(** * Raw-REPL session protocol of the badge web flasher

    A shallow embedding of [micropython-webserial.ts] (class
    [MicroPythonWrapper], [HELPER_CODE]) and of the bundle handling of
    [usb.ts], with the properties of the natural-language specification
    stated and proved over it.

    Conventions of the embedding:
    - a JavaScript string is a [text], the list of its code units; the
      protocol alphabet is ASCII, so a code unit is an [ascii];
    - [indexOf] returns a [Z], with [-1] for "not found", as in the source;
    - a [Uint8Array] is a [list byte];
    - promises live in a store inside the session ([promises]); the two
      callback fields of the class hold references into that store, so the
      aliasing between the promise returned by [readUntil] and the
      callbacks invoked later by [onData] is explicit;
    - platform APIs ([TextDecoder], the serial streams, the device at the
      other end of the cable) are section variables or explicit models. *)

From stdpp Require Import list strings.
From Stdlib Require Import Ascii ZArith Lia DecimalString.

Local Open Scope Z_scope.
Local Open Scope nat_scope.
Local Open Scope list_scope.

(** ** Text *)

Abbreviation text := (list ascii) (only parsing).

(** [lit "abc"] is the JavaScript string literal ['abc']. *)
Definition lit (s : string) : text := String.list_ascii_of_string s.
Arguments lit : simpl never.

Definition chr (n : nat) : ascii := ascii_of_nat n.

(** [s.startsWith(needle)] *)
Fixpoint startsWith (s needle : text) {struct needle} : bool :=
  match needle, s with
  | [], _ => true
  | _ :: _, [] => false
  | a :: needle', b :: s' => if Ascii.eqb a b then startsWith s' needle' else false
  end.

Fixpoint indexOf_from (s needle : text) (pos : Z) : Z :=
  if startsWith s needle then pos
  else match s with
       | [] => (-1)%Z
       | _ :: s' => indexOf_from s' needle (pos + 1)%Z
       end.

(** [s.indexOf(needle)]: position of the first occurrence, [-1] if none. *)
Definition indexOf (s needle : text) : Z := indexOf_from s needle 0%Z.

(** [m] occurs in [s] as a substring. *)
Definition contains (m s : text) : Prop := ∃ l r, s = l ++ m ++ r.

(** [s] cut right after the first occurrence of [m] (all of [s] if none). *)
Definition upto_first (m s : text) : text :=
  let i := indexOf s m in
  if (i =? -1)%Z then s else take (Z.to_nat i + length m) s.

(** ** Session state *)

Inductive error := Error (message : text).

Definition dquote : ascii := chr 34.

Definition msg_already_running : text :=
  lit "Already running " ++ [dquote] ++ lit "read until" ++ [dquote].

Definition msg_readUntil_rejected : text := lit "readUntil rejected".

Inductive settlement :=
| Pending
| Fulfilled (value : text)
| Rejected (reason : error).

(** What the fields [resolveReadingUntilPromise] and
    [rejectReadingUntilPromise] can hold: [null], one of the two closures
    built by [readUntil] for promise [p], or [() => false]. *)
Inductive callback :=
| CbNull
| CbResolve (p : nat)
| CbReject (p : nat)
| CbNoop.

Inductive loop_state := LoopNotStarted | LoopReading | LoopEnded.

#[global] Instance loop_state_eq_dec : EqDecision loop_state.
Proof. solve_decision. Defined.

(** A stream end ([reader], [writer]): [None] is [null], [Some true] holds
    the lock, [Some false] has released it. *)
Definition stream_end := option bool.

Record session := mkSession {
  reader : stream_end;
  writer : stream_end;
  readingBuffer : text;
  readingUntil : option text;
  resolveReadingUntilPromise : callback;
  rejectReadingUntilPromise : callback;
  isConnected : bool;
  onDisconnect : bool;          (* is a callback installed *)
  (* the world the object lives in *)
  promises : list settlement;   (* promise store *)
  notified : nat;               (* invocations of the onDisconnect callback *)
  loop : loop_state;            (* readForeverAndReport *)
  listening : bool;             (* 'disconnect' listener registered by init *)
  portOpen : bool
}.

(** Field initialisers of the class; [constructor(port)]. *)
Definition new_session : session :=
  {| reader := None; writer := None;
     readingBuffer := []; readingUntil := None;
     resolveReadingUntilPromise := CbNull;
     rejectReadingUntilPromise := CbNull;
     isConnected := false; onDisconnect := false;
     promises := []; notified := 0; loop := LoopNotStarted;
     listening := false; portOpen := true |}.

Definition set_readingBuffer (b : text) (s : session) : session :=
  mkSession (reader s) (writer s) b (readingUntil s)
    (resolveReadingUntilPromise s) (rejectReadingUntilPromise s)
    (isConnected s) (onDisconnect s) (promises s) (notified s) (loop s)
    (listening s) (portOpen s).

Definition set_readingUntil (u : option text) (s : session) : session :=
  mkSession (reader s) (writer s) (readingBuffer s) u
    (resolveReadingUntilPromise s) (rejectReadingUntilPromise s)
    (isConnected s) (onDisconnect s) (promises s) (notified s) (loop s)
    (listening s) (portOpen s).

Definition set_callbacks (res rej : callback) (s : session) : session :=
  mkSession (reader s) (writer s) (readingBuffer s) (readingUntil s)
    res rej
    (isConnected s) (onDisconnect s) (promises s) (notified s) (loop s)
    (listening s) (portOpen s).

Definition set_promises (ps : list settlement) (s : session) : session :=
  mkSession (reader s) (writer s) (readingBuffer s) (readingUntil s)
    (resolveReadingUntilPromise s) (rejectReadingUntilPromise s)
    (isConnected s) (onDisconnect s) ps (notified s) (loop s)
    (listening s) (portOpen s).


Definition set_isConnected (b : bool) (s : session) : session :=
  mkSession (reader s) (writer s) (readingBuffer s) (readingUntil s)
    (resolveReadingUntilPromise s) (rejectReadingUntilPromise s)
    b (onDisconnect s) (promises s) (notified s) (loop s)
    (listening s) (portOpen s).

Definition set_reader (r : stream_end) (s : session) : session :=
  mkSession r (writer s) (readingBuffer s) (readingUntil s)
    (resolveReadingUntilPromise s) (rejectReadingUntilPromise s)
    (isConnected s) (onDisconnect s) (promises s) (notified s) (loop s)
    (listening s) (portOpen s).

Definition set_writer (w : stream_end) (s : session) : session :=
  mkSession (reader s) w (readingBuffer s) (readingUntil s)
    (resolveReadingUntilPromise s) (rejectReadingUntilPromise s)
    (isConnected s) (onDisconnect s) (promises s) (notified s) (loop s)
    (listening s) (portOpen s).

Definition set_loop (l : loop_state) (s : session) : session :=
  mkSession (reader s) (writer s) (readingBuffer s) (readingUntil s)
    (resolveReadingUntilPromise s) (rejectReadingUntilPromise s)
    (isConnected s) (onDisconnect s) (promises s) (notified s) l
    (listening s) (portOpen s).

Definition set_listening (b : bool) (s : session) : session :=
  mkSession (reader s) (writer s) (readingBuffer s) (readingUntil s)
    (resolveReadingUntilPromise s) (rejectReadingUntilPromise s)
    (isConnected s) (onDisconnect s) (promises s) (notified s) (loop s)
    b (portOpen s).

Definition set_portOpen (b : bool) (s : session) : session :=
  mkSession (reader s) (writer s) (readingBuffer s) (readingUntil s)
    (resolveReadingUntilPromise s) (rejectReadingUntilPromise s)
    (isConnected s) (onDisconnect s) (promises s) (notified s) (loop s)
    (listening s) b.

(** [if (this.onDisconnect) this.onDisconnect()] *)
Definition notify (s : session) : session :=
  if onDisconnect s then
    mkSession (reader s) (writer s) (readingBuffer s) (readingUntil s)
      (resolveReadingUntilPromise s) (rejectReadingUntilPromise s)
      (isConnected s) (onDisconnect s) (promises s) (S (notified s)) (loop s)
      (listening s) (portOpen s)
  else s.

(** ** Promises *)

(** [new Promise(...)]: allocate a promise in the given state. *)
Definition new_promise (st : settlement) (s : session) : session * nat :=
  (set_promises (promises s ++ [st]) s, length (promises s)).

(** Calling the [resolve] or [reject] function of promise [p]: only the first
    call settles it. *)
Definition settle (p : nat) (st : settlement) (s : session) : session :=
  match promises s !! p with
  | Some Pending => set_promises (<[p := st]> (promises s)) s
  | _ => s
  end.

(** The common prologue of the two closures built by [readUntil]. *)
Definition reset_wait (s : session) : session :=
  set_callbacks CbNoop CbNoop (set_readingBuffer [] (set_readingUntil None s)).

(** [cb(result)] for [cb] one of the callback fields (the call sites test the
    field for truthiness first, so [CbNull] is never applied). *)
Definition call_resolve (cb : callback) (result : text) (s : session) : session :=
  match cb with
  | CbResolve p => settle p (Fulfilled result) (reset_wait s)
  | CbReject p =>
      settle p (Rejected (Error (if result is [] then msg_readUntil_rejected else result)))
        (reset_wait s)
  | CbNoop | CbNull => s
  end.

Definition truthy_cb (cb : callback) : bool :=
  match cb with CbNull => false | _ => true end.

(** ** The framer: [onData] and [readUntil] *)

Inductive chunk :=
| Bytes (b : list Byte.byte)    (* a Uint8Array *)
| Str (s : text).

Section Framer.

(** [this.decoder.decode], a [TextDecoder]. *)
Variable decode : list Byte.byte → text.

Definition decoded (c : chunk) : text :=
  match c with
  | Bytes b => decode b
  | Str s => s
  end.

Definition onData (buffer : chunk) (s : session) : session :=
  let str := decoded buffer in
  match readingUntil s with
  | Some token =>
      let s := set_readingBuffer (readingBuffer s ++ str) s in
      if negb (indexOf (readingBuffer s) token =? -1)%Z then
        let response := readingBuffer s in
        let s := set_readingUntil None s in
        let s := set_readingBuffer [] s in
        if truthy_cb (resolveReadingUntilPromise s)
        then call_resolve (resolveReadingUntilPromise s) response s
        else s
      else s
  | None => s
  end.

(** [readUntil(token)]: the new state and the promise returned. *)
Definition readUntil (token : text) (s : session) : session * nat :=
  match readingUntil s with
  | Some _ => new_promise (Rejected (Error msg_already_running)) s
  | None =>
      let s := set_readingBuffer [] s in
      let s := set_readingUntil (Some token) s in
      let '(s, p) := new_promise Pending s in
      (set_callbacks (CbResolve p) (CbReject p) s, p)
  end.

(** The chunks [cs] arrive one after the other. *)
Definition feed (cs : list chunk) (s : session) : session :=
  foldl (fun s c => onData c s) s cs.

(** The text carried by the chunks [cs]. *)
Definition carried (cs : list chunk) : text := concat (decoded <$> cs).

(** Truthiness of a [string | null] field: [null] and [''] are falsy. *)
Definition truthy_text (u : option text) : bool :=
  match u with
  | Some (_ :: _) => true
  | _ => false
  end.

(** First statement of [getPrompt]:
    [if (this.readingUntil) this.rejectReadingUntilPromise(msg)]. *)
Definition interrupt_wait (msg : text) (s : session) : session :=
  if truthy_text (readingUntil s)
  then call_resolve (rejectReadingUntilPromise s) msg s
  else s.

(** Everything that touches the framer fields of a session. *)
Inductive framer_event :=
| EvData (c : chunk)
| EvReadUntil (token : text)
| EvInterrupt (msg : text).

Definition framer_step (s : session) (e : framer_event) : session :=
  match e with
  | EvData c => onData c s
  | EvReadUntil token => (readUntil token s).1
  | EvInterrupt msg => interrupt_wait msg s
  end.

(** The sessions a freshly constructed wrapper can get into. *)
Definition reachable (s : session) : Prop :=
  ∃ es, s = foldl framer_step new_session es.


(** *** Substring search *)

Lemma startsWith_spec (s needle : text) :
  startsWith s needle = true ↔ ∃ r, s = needle ++ r.
Proof.
  revert s; induction needle as [|a needle IH]; intros s; simpl.
  - split; [intros _; by exists s | done].
  - destruct s as [|b s].
    + split; [done | intros [r Hr]; discriminate].
    + destruct (Ascii.eqb_spec a b) as [->|Hne].
      * rewrite IH. split; intros [r Hr]; exists r; simpl in *; congruence.
      * split; [done | intros [r Hr]; simpl in Hr; congruence].
Qed.

Lemma contains_app_r (m s t : text) : contains m s → contains m (s ++ t).
Proof.
  intros (l & r & ->). exists l, (r ++ t). by rewrite <- !app_assoc.
Qed.

Lemma contains_cons (m s : text) (a : ascii) :
  contains m (a :: s) ↔ startsWith (a :: s) m = true ∨ contains m s.
Proof.
  rewrite startsWith_spec. split.
  - intros ([|b l] & r & H).
    + left. by exists r.
    + right. exists l, r. simpl in H. congruence.
  - intros [[r Hr] | (l & r & ->)].
    + exists [], r. done.
    + exists (a :: l), r. done.
Qed.

Lemma contains_nil (m : text) : contains m [] ↔ m = [].
Proof.
  split.
  - intros (l & r & H). symmetry in H.
    apply app_eq_nil in H as [_ H]. by apply app_eq_nil in H as [H _].
  - intros ->. by exists [], [].
Qed.

Lemma indexOf_from_range (s needle : text) (pos : Z) :
  (0 ≤ pos)%Z →
  indexOf_from s needle pos = (-1)%Z ∨
  (pos ≤ indexOf_from s needle pos ≤ pos + Z.of_nat (length s))%Z.
Proof.
  revert pos; induction s as [|a s IH]; intros pos Hpos; simpl.
  - destruct (startsWith [] needle); [right; lia | by left].
  - destruct (startsWith (a :: s) needle); [right; lia|].
    destruct (IH (pos + 1)%Z) as [H|H]; [lia | by left | right; lia].
Qed.

Lemma indexOf_from_found (s needle : text) (pos : Z) :
  (0 ≤ pos)%Z →
  indexOf_from s needle pos ≠ (-1)%Z ↔ contains needle s.
Proof.
  revert pos; induction s as [|a s IH]; intros pos Hpos; simpl.
  - rewrite contains_nil. destruct needle; simpl; [|done].
    split; [done | lia].
  - rewrite contains_cons.
    destruct (startsWith (a :: s) needle) eqn:E.
    + split; [by left | lia].
    + rewrite (IH (pos + 1)%Z) by lia. intuition congruence.
Qed.

(** [indexOf] finds the marker exactly when it occurs. *)
Lemma indexOf_found (s needle : text) :
  indexOf s needle ≠ (-1)%Z ↔ contains needle s.
Proof. by apply indexOf_from_found. Qed.

Lemma indexOf_test (s needle : text) :
  negb (indexOf s needle =? -1)%Z = true ↔ contains needle s.
Proof.
  rewrite <- indexOf_found, negb_true_iff, Z.eqb_neq. done.
Qed.

Lemma indexOf_test_false (s needle : text) :
  negb (indexOf s needle =? -1)%Z = false ↔ ¬ contains needle s.
Proof.
  rewrite <- indexOf_test. destruct (negb _); naive_solver.
Qed.

(** *** A registered wait *)

(** The state right after [readUntil(m)] succeeded for promise [p], with
    [buf] accumulated so far. *)
Record waiting (m : text) (p : nat) (buf : text) (s : session) : Prop := {
  w_until : readingUntil s = Some m;
  w_buffer : readingBuffer s = buf;
  w_resolve : resolveReadingUntilPromise s = CbResolve p;
  w_reject : rejectReadingUntilPromise s = CbReject p;
  w_pending : promises s !! p = Some Pending
}.

Lemma readUntil_idle (m : text) (s : session) :
  readingUntil s = None →
  waiting m (length (promises s)) [] (readUntil m s).1 ∧
  (readUntil m s).2 = length (promises s) ∧
  promises (readUntil m s).1 = promises s ++ [Pending].
Proof.
  intros Hidle. unfold readUntil. rewrite Hidle. simpl.
  split; [|done]. split; simpl; try done.
  by rewrite lookup_app_r, Nat.sub_diag.
Qed.

Lemma onData_idle (c : chunk) (s : session) :
  readingUntil s = None → onData c s = s.
Proof. intros H. unfold onData. by rewrite H. Qed.

Lemma feed_idle (cs : list chunk) (s : session) :
  readingUntil s = None → feed cs s = s.
Proof.
  induction cs as [|c cs IH]; [done|]. intros H.
  unfold feed in *. simpl. rewrite onData_idle by done. by apply IH.
Qed.

Lemma feed_app (cs ds : list chunk) (s : session) :
  feed (cs ++ ds) s = feed ds (feed cs s).
Proof. unfold feed. by rewrite foldl_app. Qed.

Lemma carried_app (cs ds : list chunk) :
  carried (cs ++ ds) = carried cs ++ carried ds.
Proof. unfold carried. by rewrite fmap_app, concat_app. Qed.

Lemma carried_snoc (cs : list chunk) (c : chunk) :
  carried (cs ++ [c]) = carried cs ++ decoded c.
Proof. rewrite carried_app. unfold carried. simpl. by rewrite app_nil_r. Qed.

(** A chunk that does not complete the marker is only accumulated. *)
Lemma onData_accumulate (m : text) (p : nat) (buf : text) (c : chunk) (s : session) :
  waiting m p buf s →
  ¬ contains m (buf ++ decoded c) →
  waiting m p (buf ++ decoded c) (onData c s) ∧ promises (onData c s) = promises s.
Proof.
  intros [Hu Hb Hres Hrej Hp] Hno. unfold onData. rewrite Hu. simpl.
  rewrite Hb. apply indexOf_test_false in Hno. rewrite Hno.
  split; [|done]. by split.
Qed.

(** The chunk that completes the marker settles the promise with the whole
    buffer, completing chunk included, and leaves the session idle. *)
Lemma onData_complete (m : text) (p : nat) (buf : text) (c : chunk) (s : session) :
  waiting m p buf s →
  contains m (buf ++ decoded c) →
  promises (onData c s) = <[p := Fulfilled (buf ++ decoded c)]> (promises s) ∧
  readingUntil (onData c s) = None ∧
  readingBuffer (onData c s) = [] ∧
  resolveReadingUntilPromise (onData c s) = CbNoop ∧
  rejectReadingUntilPromise (onData c s) = CbNoop.
Proof.
  intros [Hu Hb Hres Hrej Hp] Hyes. unfold onData. rewrite Hu. simpl.
  rewrite Hb. apply indexOf_test in Hyes. rewrite Hyes. simpl.
  rewrite Hres. simpl. unfold settle. simpl. rewrite Hp. done.
Qed.

Lemma feed_accumulate (m : text) (p : nat) (cs : list chunk) :
  ∀ (buf : text) (s : session),
  waiting m p buf s →
  (∀ j, j < length cs → ¬ contains m (buf ++ carried (take (S j) cs))) →
  waiting m p (buf ++ carried cs) (feed cs s) ∧ promises (feed cs s) = promises s.
Proof.
  induction cs as [|c cs IH]; intros buf s Hw Hno.
  - unfold carried. simpl. by rewrite app_nil_r.
  - assert (Hc : ¬ contains m (buf ++ decoded c)).
    { specialize (Hno 0 ltac:(simpl; lia)). unfold carried in Hno.
      simpl in Hno. by rewrite app_nil_r in Hno. }
    destruct (onData_accumulate m p buf c s Hw Hc) as [Hw' Hp'].
    destruct (IH (buf ++ decoded c) (onData c s) Hw') as [Hw'' Hp''].
    + intros j Hj. specialize (Hno (S j) ltac:(simpl; lia)).
      unfold carried in *. simpl in Hno. by rewrite <- app_assoc.
    + unfold feed, carried in *. simpl. rewrite app_assoc. split; [done|].
      by rewrite Hp''.
Qed.

(** Settled promises never change again. *)
Lemma settle_settled (p q : nat) (st : settlement) (s : session) (v : settlement) :
  promises s !! q = Some v → v ≠ Pending →
  promises (settle p st s) !! q = Some v.
Proof.
  intros Hq Hv. unfold settle.
  destruct (promises s !! p) as [[]|] eqn:Hp; try done. simpl.
  destruct (decide (p = q)) as [->|Hne]; [congruence|].
  by rewrite list_lookup_insert_ne.
Qed.

Lemma call_resolve_settled (cb : callback) (r : text) (q : nat) (s : session) (v : settlement) :
  promises s !! q = Some v → v ≠ Pending →
  promises (call_resolve cb r s) !! q = Some v.
Proof.
  intros Hq Hv. destruct cb; simpl; try done; by apply settle_settled.
Qed.

Lemma onData_settled (c : chunk) (q : nat) (s : session) (v : settlement) :
  promises s !! q = Some v → v ≠ Pending →
  promises (onData c s) !! q = Some v.
Proof.
  intros Hq Hv. unfold onData.
  destruct (readingUntil s); [|done]. simpl.
  destruct (negb _); [|done].
  destruct (truthy_cb _); [|done]. by apply call_resolve_settled.
Qed.

Lemma feed_settled (cs : list chunk) (q : nat) (v : settlement) :
  ∀ s, promises s !! q = Some v → v ≠ Pending →
  promises (feed cs s) !! q = Some v.
Proof.
  induction cs as [|c cs IH]; intros s Hq Hv; [done|].
  unfold feed in *. simpl. apply IH; [|done]. by apply onData_settled.
Qed.

(** The first chunk after which the marker is complete. *)
Lemma first_completing_chunk (m : text) (cs : list chunk) :
  cs ≠ [] → contains m (carried cs) →
  ∃ k, k < length cs ∧
       contains m (carried (take (S k) cs)) ∧
       ∀ j, j < k → ¬ contains m (carried (take (S j) cs)).
Proof.
  intros Hne Hall.
  set (P := fun k => k < length cs ∧ contains m (carried (take (S k) cs))).
  assert (Hdec : ∀ n, P n ∨ ¬ P n).
  { intros n. unfold P.
    destruct (decide (n < length cs)); [|right; tauto].
    destruct (negb (indexOf (carried (take (S n) cs)) m =? -1)%Z) eqn:E.
    - apply indexOf_test in E. by left.
    - apply indexOf_test_false in E. right; tauto. }
  assert (Hex : ∃ n, P n).
  { exists (pred (length cs)). destruct cs as [|c cs]; [done|]. split.
    - simpl; lia.
    - rewrite take_ge by (simpl; lia). done. }
  destruct (Wf_nat.dec_inh_nat_subset_has_unique_least_element P Hdec Hex)
    as (k & [[Hk Hm] Hleast] & _).
  exists k. repeat split; [done..|].
  intros j Hj Hc. assert (P j) as HP by (split; [lia | done]).
  apply Hleast in HP. lia.
Qed.

(** *** Simulation: an extra settled promise at the end of the store *)

Definition with_extra (x : settlement) (s : session) : session :=
  set_promises (promises s ++ [x]) s.

Lemma settle_with_extra (x : settlement) (p : nat) (st : settlement) (s : session) :
  x ≠ Pending →
  settle p st (with_extra x s) = with_extra x (settle p st s).
Proof.
  intros Hx. unfold settle, with_extra. simpl.
  destruct (decide (p < length (promises s))) as [Hlt|Hge].
  - rewrite lookup_app_l by done.
    destruct (promises s !! p) as [[]|] eqn:Hp; try done. simpl.
    by rewrite insert_app_l.
  - rewrite (lookup_ge_None_2 (promises s)) by lia.
    destruct (decide (p = length (promises s))) as [->|Hne].
    + rewrite lookup_app_r, Nat.sub_diag by lia. simpl. by destruct x.
    + rewrite lookup_ge_None_2; [done|]. rewrite length_app. simpl. lia.
Qed.

Lemma call_resolve_with_extra (x : settlement) (cb : callback) (r : text) (s : session) :
  x ≠ Pending →
  call_resolve cb r (with_extra x s) = with_extra x (call_resolve cb r s).
Proof.
  intros Hx. destruct cb; simpl; try done.
  - by rewrite <- settle_with_extra.
  - by rewrite <- settle_with_extra.
Qed.

Lemma onData_with_extra (x : settlement) (c : chunk) (s : session) :
  x ≠ Pending →
  onData c (with_extra x s) = with_extra x (onData c s).
Proof.
  intros Hx. unfold onData. simpl.
  destruct (readingUntil s); [|done]. simpl.
  destruct (negb _); [|done].
  destruct (truthy_cb _); [|done].
  by rewrite <- call_resolve_with_extra.
Qed.

Lemma feed_with_extra (x : settlement) (cs : list chunk) :
  x ≠ Pending → ∀ s,
  feed cs (with_extra x s) = with_extra x (feed cs s).
Proof.
  intros Hx. induction cs as [|c cs IH]; intros s; [done|].
  unfold feed in *. simpl. by rewrite onData_with_extra, IH.
Qed.

(** *** The buffer is empty whenever no wait is registered *)





(** *** A registered wait has its two closures *)

(** Whenever a marker is registered, the callback fields hold the closures
    of the promise of that wait; so the call sites that apply a field never
    apply [null]. *)
Definition wait_consistent (s : session) : Prop :=
  ∀ m, readingUntil s = Some m →
       ∃ p, resolveReadingUntilPromise s = CbResolve p ∧
            rejectReadingUntilPromise s = CbReject p.

Lemma call_resolve_wait_consistent (cb : callback) (r : text) (s : session) :
  wait_consistent s → wait_consistent (call_resolve cb r s).
Proof.
  intros H. destruct cb; simpl; try done; unfold settle; simpl;
    destruct (_ !! _) as [[]|]; by intros m.
Qed.

Lemma framer_step_wait_consistent (s : session) (e : framer_event) :
  wait_consistent s → wait_consistent (framer_step s e).
Proof.
  intros H. destruct e as [c|token|msg]; simpl.
  - unfold onData. destruct (readingUntil s) as [m|] eqn:Hu; [|done]. simpl.
    destruct (negb _).
    + destruct (H m Hu) as (p & -> & _). simpl. unfold settle. simpl.
      destruct (_ !! _) as [[]|]; by intros m'.
    + intros m' Hm'. simpl in *. by apply (H m').
  - unfold readUntil. destruct (readingUntil s) as [m|] eqn:Hu; simpl.
    + intros m' Hm'. simpl in *. by apply (H m').
    + intros m' _. simpl. by eexists.
  - unfold interrupt_wait. destruct (truthy_text _); [|done].
    by apply call_resolve_wait_consistent.
Qed.

Lemma reachable_wait_consistent (s : session) : reachable s → wait_consistent s.
Proof.
  intros [es ->]. induction es as [|e es IH] using rev_ind.
  - by intros m.
  - rewrite foldl_app. simpl. by apply framer_step_wait_consistent.
Qed.

(** *** Properties of the framer *)

(** C1 (as amended). For every marker [m] and every non-empty sequence of
    chunks whose concatenation contains [m], a [readUntil(m)] registered on
    an idle session before the chunks arrive resolves at the first chunk [k]
    after which the accumulated text contains [m], and it resolves with the
    whole accumulated text: the concatenation of the chunks [0..k], the
    completing chunk included in full, however the chunk boundaries split
    [m]. Later chunks are not part of it, and the session is idle again with
    an empty buffer. *)
Theorem readUntil_resolves_with_accumulated_chunks
    (m : text) (cs : list chunk) (s : session) :
  readingUntil s = None →
  cs ≠ [] →
  contains m (carried cs) →
  ∃ k, k < length cs ∧
    contains m (carried (take (S k) cs)) ∧
    (∀ j, j < k → ¬ contains m (carried (take (S j) cs))) ∧
    promises (feed cs (readUntil m s).1) !! (readUntil m s).2
      = Some (Fulfilled (carried (take (S k) cs))) ∧
    readingUntil (feed cs (readUntil m s).1) = None ∧
    readingBuffer (feed cs (readUntil m s).1) = [].
Proof.
  intros Hidle Hne Hall.
  destruct (first_completing_chunk m cs Hne Hall) as (k & Hk & Hm & Hleast).
  exists k. split; [done|]. split; [done|]. split; [done|].
  destruct (readUntil_idle m s Hidle) as (Hw & -> & Hps).
  set (s1 := (readUntil m s).1) in *.
  set (p := length (promises s)) in *.
  destruct (lookup_lt_is_Some_2 cs k Hk) as [c Hc].
  destruct (feed_accumulate m p (take k cs) [] s1 Hw) as [Hw1 Hp1].
  { intros j Hj. rewrite length_take in Hj. simpl.
    rewrite take_take. replace (S j `min` k) with (S j) by lia.
    apply Hleast. lia. }
  simpl in Hw1.
  assert (Hsnoc : carried (take k cs) ++ decoded c = carried (take (S k) cs)).
  { erewrite take_S_r by done. by rewrite carried_snoc. }
  destruct (onData_complete m p (carried (take k cs)) c _ Hw1) as (Hp2 & Hu2 & Hb2 & _).
  { by rewrite Hsnoc. }
  rewrite Hsnoc in Hp2.
  assert (Hfeed : feed cs s1 = onData c (feed (take k cs) s1)).
  { rewrite <- (take_drop_middle cs k c Hc) at 1. rewrite feed_app.
    change (feed (c :: drop (S k) cs) ?x) with (feed (drop (S k) cs) (onData c x)).
    by rewrite (feed_idle (drop (S k) cs)). }
  rewrite Hfeed. split; [|done]. rewrite Hp2.
  apply list_lookup_insert_eq. destruct Hw1 as [_ _ _ _ Hpend].
  by apply lookup_lt_Some in Hpend.
Qed.

(** C3. While a wait is outstanding, a further [readUntil] returns a promise
    that is already rejected with the "Already running" error; it is not
    queued (no later data ever settles it differently), and the outstanding
    wait keeps its marker, its buffer, its callbacks and, whatever data
    arrives afterwards, its resolution. *)
Theorem readUntil_while_waiting_fails (token m : text) (s : session) :
  readingUntil s = Some m →
  promises (readUntil token s).1 !! (readUntil token s).2
    = Some (Rejected (Error msg_already_running)) ∧
  readingUntil (readUntil token s).1 = Some m ∧
  readingBuffer (readUntil token s).1 = readingBuffer s ∧
  resolveReadingUntilPromise (readUntil token s).1 = resolveReadingUntilPromise s ∧
  rejectReadingUntilPromise (readUntil token s).1 = rejectReadingUntilPromise s ∧
  ∀ cs : list chunk,
    promises (feed cs (readUntil token s).1) !! (readUntil token s).2
      = Some (Rejected (Error msg_already_running)) ∧
    readingUntil (feed cs (readUntil token s).1) = readingUntil (feed cs s) ∧
    readingBuffer (feed cs (readUntil token s).1) = readingBuffer (feed cs s) ∧
    ∀ p, p < length (promises s) →
      promises (feed cs (readUntil token s).1) !! p = promises (feed cs s) !! p.
Proof.
  intros Hu. unfold readUntil. rewrite Hu. simpl.
  assert (Hlast : (promises s ++ [Rejected (Error msg_already_running)])
                    !! length (promises s)
                  = Some (Rejected (Error msg_already_running))).
  { by rewrite lookup_app_r, Nat.sub_diag. }
  do 5 (split; [done|]). intros cs.
  change (set_promises _ s) with (with_extra (Rejected (Error msg_already_running)) s).
  split; [by apply feed_settled|].
  rewrite feed_with_extra by done.
  do 2 (split; [done|]). intros p Hp. simpl.
  apply lookup_app_l.
  enough (length (promises (feed cs s)) = length (promises s)) by lia.
  clear. revert s. induction cs as [|c cs IH]; intros s; [done|].
  change (feed (c :: cs) s) with (feed cs (onData c s)). rewrite IH.
  unfold onData. destruct (readingUntil s); [|done]. simpl.
  destruct (negb _); [|done]. destruct (truthy_cb _); [|done].
  destruct (resolveReadingUntilPromise _); simpl; try done;
    unfold settle; simpl; destruct (_ !! _) as [[]|]; simpl;
    by rewrite ?length_insert.
Qed.


End Framer.

(** *** Closed instances *)

(** A decoder for ASCII input: one code unit per byte. *)
Definition decode_ascii (b : list Byte.byte) : text := ascii_of_byte <$> b.

Lemma readUntil_resolves_with_accumulated_chunks_witness :
  ∃ k, k < 2 ∧
    promises (feed decode_ascii [Str (lit "a>"); Str (lit ">>x")]
                (readUntil (lit ">>>") new_session).1) !! 0
      = Some (Fulfilled (carried decode_ascii (take (S k) [Str (lit "a>"); Str (lit ">>x")]))).
Proof.
  destruct (readUntil_resolves_with_accumulated_chunks decode_ascii
              (lit ">>>") [Str (lit "a>"); Str (lit ">>x")] new_session)
    as (k & Hk & _ & _ & Hp & _).
  - reflexivity.
  - discriminate.
  - exists (lit "a"), (lit "x"). reflexivity.
  - exists k. split; [exact Hk | exact Hp].
Defined.

(** C1 as stated fails: the completing chunk is delivered in full, so text
    after the first occurrence of the marker is part of the result. *)
Lemma readUntil_result_not_cut_at_marker :
  ¬ (∀ (m : text) (cs : list chunk) (s : session),
       readingUntil s = None →
       contains m (carried decode_ascii cs) →
       promises (feed decode_ascii cs (readUntil m s).1) !! (readUntil m s).2
         = Some (Fulfilled (upto_first m (carried decode_ascii cs)))).
Proof.
  intros H.
  specialize (H (lit "ab") [Str (lit "xab!")] new_session eq_refl).
  assert (Hc : contains (lit "ab") (carried decode_ascii [Str (lit "xab!")])).
  { exists (lit "x"), (lit "!"). reflexivity. }
  specialize (H Hc). vm_compute in H. discriminate H.
Qed.

Lemma readUntil_while_waiting_fails_witness :
  promises (readUntil (lit ">>>") (readUntil (lit "OK") new_session).1).1 !! 1
    = Some (Rejected (Error msg_already_running)).
Proof.
  exact (proj1 (readUntil_while_waiting_fails decode_ascii (lit ">>>") (lit "OK")
                  (readUntil (lit "OK") new_session).1 eq_refl)).
Defined.


(** ** Transport session: [init], the read loop, [close] *)

(** What [await this.reader.read()] can produce. *)
Inductive read_result :=
| RChunk (value : list Byte.byte)   (* { value, done: false } *)
| RDone                             (* { done: true } *)
| RError.                           (* the read rejects *)

Section Transport.

Variable decode : list Byte.byte → text.

(** One turn of the loop of [readForeverAndReport]: the pending [read()]
    settles with [r]. Nothing happens unless the loop is at its [await]. *)
Definition read_settles (s : session) (r : read_result) : session :=
  match loop s with
  | LoopReading =>
      match r with
      | RDone =>
          let s := set_reader (Some false) s in     (* releaseLock() *)
          let s := set_isConnected false s in
          let s := notify s in
          set_loop LoopEnded s                      (* break *)
      | RChunk value => onData decode (Bytes value) s
      | RError => set_loop LoopEnded s              (* catch: console.warn *)
      end
  | _ => s
  end.

(** [init()], where [serial] tells whether [navigator.serial] is defined.
    [getReader()] throws on a stream that is already locked. *)
Definition init (serial : bool) (s : session) : option session :=
  match reader s with
  | Some true => None
  | _ =>
      let s := set_reader (Some true) s in
      let s := set_writer (Some true) s in
      let s := set_isConnected true s in
      let s := if serial then set_listening true s else s in
      Some (set_loop LoopReading s)
  end.

(** The listener registered by [init] on the ['disconnect'] event, for an
    event of this port. *)
Definition serial_disconnect (s : session) : session :=
  if listening s then notify (set_isConnected false s) else s.

(** [close()]. Cancelling a reader that holds the lock ends the pending
    [read()] with [done]; on a released reader [cancel()] rejects and the
    rejection is swallowed. The port closes once both ends are unlocked. *)
Definition close (s : session) : session :=
  let s := match reader s with
           | Some true => read_settles s RDone
           | _ => s
           end in
  let s := match writer s with
           | Some _ => set_writer (Some false) s
           | None => s
           end in
  let s := match reader s, writer s with
           | Some true, _ | _, Some true => s
           | _, _ => set_portOpen false s
           end in
  let s := set_isConnected false s in
  notify s.

(** The chunks [vs] are read one after the other. *)
Definition read_all (vs : list (list Byte.byte)) (s : session) : session :=
  foldl read_settles s (RChunk <$> vs).

Lemma notified_call_resolve (cb : callback) (r : text) (s : session) :
  notified (call_resolve cb r s) = notified s.
Proof.
  destruct cb; simpl; try done; unfold settle; simpl;
    by destruct (_ !! _) as [[]|].
Qed.

Lemma transport_onData (c : chunk) (s : session) :
  notified (onData decode c s) = notified s ∧
  onDisconnect (onData decode c s) = onDisconnect s ∧
  reader (onData decode c s) = reader s ∧
  writer (onData decode c s) = writer s ∧
  loop (onData decode c s) = loop s.
Proof.
  unfold onData. destruct (readingUntil s); [|done]. simpl.
  destruct (negb _); [|done]. destruct (truthy_cb _); [|done].
  destruct (resolveReadingUntilPromise _); simpl; try done;
    unfold settle; simpl; by destruct (_ !! _) as [[]|].
Qed.

Lemma transport_read_all (vs : list (list Byte.byte)) : ∀ s,
  notified (read_all vs s) = notified s ∧
  onDisconnect (read_all vs s) = onDisconnect s ∧
  reader (read_all vs s) = reader s ∧
  writer (read_all vs s) = writer s ∧
  loop (read_all vs s) = loop s.
Proof.
  induction vs as [|v vs IH]; intros s; [done|].
  change (read_all (v :: vs) s) with (read_all vs (read_settles s (RChunk v))).
  destruct (IH (read_settles s (RChunk v))) as (-> & -> & -> & -> & ->).
  unfold read_settles. destruct (loop s) eqn:Hl; try done.
  destruct (transport_onData (Bytes v) s) as (-> & -> & -> & -> & ->). done.
Qed.


End Transport.




(** ** The asynchronous protocol layer

    An [async] method is a computation over a [world]: the session, the
    device at the other end, the read results on their way to the read
    loop, and the trace of what the method did. At an [await] other tasks
    run: the read loop handles some of the results in flight ([schedule]
    tells how many at each suspension that does not wait for the framer);
    an [await] of a [readUntil] promise lets the loop run until the promise
    is settled, and blocks for ever when nothing more is in flight. *)

Inductive action :=
| Wrote (data : text)                 (* writer.write(encode(data)) *)
| Slept (ms : nat)                    (* setTimeout(r, ms) *)
| Reported (uploaded total : nat)     (* reporter(uploaded, total) *)
| Logged (value : text).              (* console.log(..., value) *)

Inductive outcome (A : Type) :=
| Done (a : A)
| Threw (e : error)
| Blocked.
Arguments Done {A} a.
Arguments Threw {A} e.
Arguments Blocked {A}.

Definition msg_type_error : text := lit "TypeError".

(** [s.slice(b, e)] for [0 <= b], [0 <= e]. *)
Definition slice {A} (s : list A) (b e : nat) : list A := take (e - b) (drop b s).

(** ** Generated device commands *)

Definition nl : text := [chr 10].
Definition squote : ascii := "'"%char.
Definition backslash : ascii := chr 92.

(** [path.replace(/'/g, "\\'")] *)
Definition escape_quotes (path : text) : text :=
  concat ((fun c : ascii => if Ascii.eqb c squote then [backslash; squote] else [c]) <$> path).

(** [xs.join(sep)] *)
Fixpoint join (sep : text) (xs : list text) : text :=
  match xs with
  | [] => []
  | [x] => x
  | x :: xs => x ++ sep ++ join sep xs
  end.

(** [String(n)] for a natural number. *)
Definition decimal (n : nat) : text :=
  lit (DecimalString.NilZero.string_of_uint (Nat.to_uint n)).

(** [`${c}`] for a [Uint8Array]: the elements in decimal, joined by commas. *)
Definition uint8array_toString (c : list Byte.byte) : text :=
  join (lit ",") ((fun b => decimal (Byte.to_nat b)) <$> c).

Definition open_wb_command (path : text) : text :=
  lit "f=open('" ++ path ++ lit "','wb')" ++ nl ++ lit "w=f.write".

Definition write_command (c : list Byte.byte) : text :=
  lit "w(bytes([" ++ uint8array_toString c ++ lit "]))".

Definition close_command : text := lit "f.close()".

Definition createFolder_command (path : text) : text :=
  lit "import os;os.mkdir('" ++ path ++ lit "')".

Definition removeFolder_command (path : text) : text :=
  lit "delete_folder('" ++ path ++ lit "')".

Definition createFile_command (path : text) : text :=
  lit "f=open('" ++ path ++ lit "', 'w');f.close()".

Definition removeFile_command (path : text) : text :=
  lit "import uos" ++ nl ++
  lit "try:" ++ nl ++
  lit "  uos.remove(" ++ [dquote] ++ path ++ [dquote] ++ lit ")" ++ nl ++
  lit "except OSError:" ++ nl ++
  lit "  print(0)" ++ nl.

Definition loadFile_command (path : text) : text :=
  lit "with open('" ++ path ++ lit "','r') as f:" ++ nl ++
  lit " while 1:" ++ nl ++
  lit "  b=f.read(256)" ++ nl ++
  lit "  if not b:break" ++ nl ++
  lit "  print(b,end='')".

Definition downloadFile_command (source : text) : text :=
  lit "with open('" ++ source ++ lit "','rb') as f:" ++ nl ++
  lit "  b = b2a_base64(f.read())" ++ nl ++
  lit "  for i in b:" ++ nl ++
  lit "    print( chr(i), end='' )" ++ nl.

(** The command text of [uploadFile] that opens the destination. *)
Definition uploadFile_command (path : text) : text :=
  open_wb_command (escape_quotes path).

Definition HELPER_CODE : text :=
  lit "import os
import json
os.chdir('/')

def is_directory(path):
  return True if os.stat(path)[0] == 0x4000 else False

def get_all_files(path, array_of_files = []):
  files = os.ilistdir(path)
  for file in files:
    is_folder = file[1] == 16384
    p = path + '/' + file[0]
    array_of_files.append({
        " ++ [dquote] ++
  lit "path" ++ [dquote] ++
  lit ": p,
        " ++ [dquote] ++
  lit "type" ++ [dquote] ++
  lit ": " ++ [dquote] ++
  lit "folder" ++ [dquote] ++
  lit " if is_folder else " ++ [dquote] ++
  lit "file" ++ [dquote] ++
  lit "
    })
    if is_folder:
        array_of_files = get_all_files(p, array_of_files)
  return array_of_files

def ilist_all(path):
  print(json.dumps(get_all_files(path)))

def delete_folder(path):
  files = get_all_files(path)
  for file in files:
    if file['type'] == 'file':
        os.remove(file['path'])
  for file in reversed(files):
    if file['type'] == 'folder':
        os.rmdir(file['path'])
  os.rmdir(path)
".

(** ** [atob]: forgiving base64 decoding *)

Definition is_ascii_whitespace (c : ascii) : bool :=
  let n := nat_of_ascii c in
  (n =? 9) || (n =? 10) || (n =? 12) || (n =? 13) || (n =? 32).

(** The value of a character of the base64 alphabet. *)
Definition b64_value (c : ascii) : option nat :=
  let n := nat_of_ascii c in
  if (65 <=? n) && (n <=? 90) then Some (n - 65)
  else if (97 <=? n) && (n <=? 122) then Some (n - 97 + 26)
  else if (48 <=? n) && (n <=? 57) then Some (n - 48 + 52)
  else if n =? 43 then Some 62
  else if n =? 47 then Some 63
  else None.

(** Groups of four sextets give three bytes; a rest of three gives two, a
    rest of two gives one, the spare bits being dropped. *)
Fixpoint b64_bytes (v : list nat) : list nat :=
  match v with
  | a :: b :: c :: d :: rest =>
      (a * 4 + b / 16) :: ((b mod 16) * 16 + c / 4) :: ((c mod 4) * 64 + d)
      :: b64_bytes rest
  | [a; b; c] => [a * 4 + b / 16; (b mod 16) * 16 + c / 4]
  | [a; b] => [a * 4 + b / 16]
  | _ => []
  end.

(** One or two ['='] at the end are removed. *)
Definition drop_equals (data : text) : text :=
  match reverse data with
  | c1 :: r1 =>
      if Ascii.eqb c1 "="%char then
        match r1 with
        | c2 :: r2 => if Ascii.eqb c2 "="%char then reverse r2 else reverse r1
        | [] => reverse r1
        end
      else data
  | [] => data
  end.

Definition strip_padding (data : text) : text :=
  if length data mod 4 =? 0 then drop_equals data else data.

(** [atob(data)]; [None] when it throws [InvalidCharacterError]. *)
Definition atob (data : text) : option text :=
  let data := filter (fun c => is_ascii_whitespace c = false) data in
  let data := strip_padding data in
  if length data mod 4 =? 1 then None
  else
    match mapM b64_value data with
    | Some v => Some (ascii_of_nat <$> b64_bytes v)
    | None => None
    end.

Definition msg_invalid_character : text := lit "InvalidCharacterError".

(** Number of chunks of [size] items that cover [len] items. *)
Definition chunk_count (len size : nat) : nat := (len + size - 1) / size.

(** The [k]-th chunk of [size] items of [s]. *)
Definition chunk_at {A} (size : nat) (s : list A) (k : nat) : list A :=
  slice s (k * size) (k * size + size).

(** [s] cut into consecutive chunks of [size] items. *)
Definition pieces {A} (size : nat) (s : list A) : list (list A) :=
  chunk_at size s <$> seq 0 (chunk_count (length s) size).

Lemma chunk_count_covers (len size : nat) :
  0 < size → len ≤ chunk_count len size * size.
Proof.
  intros H. unfold chunk_count.
  pose proof (Nat.div_mod_eq (len + size - 1) size).
  pose proof (Nat.mod_upper_bound (len + size - 1) size). nia.
Qed.

Lemma chunk_count_tight (len size : nat) :
  0 < size → ∀ k, k < chunk_count len size → k * size < len.
Proof.
  intros H k Hk. unfold chunk_count in *.
  pose proof (Nat.div_mod_eq (len + size - 1) size).
  pose proof (Nat.mod_upper_bound (len + size - 1) size). nia.
Qed.

Lemma concat_chunks {A} (size : nat) (s : list A) (m : nat) :
  concat (chunk_at size s <$> seq 0 m) = take (m * size) s.
Proof.
  induction m as [|m IH]; [done|].
  rewrite seq_S, fmap_app, concat_app, IH. simpl. rewrite app_nil_r.
  unfold chunk_at, slice.
  replace (m * size + size - m * size) with size by lia.
  rewrite take_take_drop. f_equal. lia.
Qed.

Lemma concat_pieces {A} (size : nat) (s : list A) :
  0 < size → concat (pieces size s) = s.
Proof.
  intros H. unfold pieces. rewrite concat_chunks.
  apply take_ge. by apply chunk_count_covers.
Qed.

Lemma length_chunk_at {A} (size : nat) (s : list A) (k : nat) :
  length (chunk_at size s k) = size `min` (length s - k * size).
Proof.
  unfold chunk_at, slice. rewrite length_take, length_drop. lia.
Qed.

Lemma pieces_bounded {A} (size : nat) (s : list A) :
  0 < size → Forall (fun c => 0 < length c ≤ size) (pieces size s).
Proof.
  intros H. unfold pieces. apply Forall_fmap, Forall_forall.
  intros k Hk%elem_of_seq. simpl. rewrite length_chunk_at.
  pose proof (chunk_count_tight (length s) size H k). lia.
Qed.

Lemma length_pieces {A} (size : nat) (s : list A) :
  length (pieces size s) = chunk_count (length s) size.
Proof. unfold pieces. by rewrite length_fmap, length_seq. Qed.

Section Protocol.

Variable decode : list Byte.byte → text.

(** The device: its state and what it sends back when it is written to. *)
Variable dev : Type.
Variable respond : text → dev → dev * list read_result.

Record world := mkWorld {
  sess : session;
  device : dev;
  incoming : list read_result;
  schedule : list nat;
  out : list action
}.

Definition M (A : Type) : Type := world → outcome A * world.

Definition ret {A} (a : A) : M A := fun w => (Done a, w).

Definition bind {A B} (m : M A) (f : A → M B) : M B :=
  fun w =>
    match m w with
    | (Done a, w') => f a w'
    | (Threw e, w') => (Threw e, w')
    | (Blocked, w') => (Blocked, w')
    end.

Notation "'let*' x := m 'in' k" := (bind m (fun x => k))
  (at level 10, x name, m at level 100, k at level 200).
Notation "m >> k" := (bind m (fun _ => k))
  (at level 65, right associativity).

Definition with_sess (s : session) (w : world) : world :=
  mkWorld s (device w) (incoming w) (schedule w) (out w).

Definition emit (a : action) : M unit :=
  fun w => (Done tt, mkWorld (sess w) (device w) (incoming w) (schedule w) (out w ++ [a])).

(** The read loop handles the next [n] results in flight. *)
Fixpoint deliver (n : nat) (inc : list read_result) (s : session)
  : session * list read_result :=
  match n, inc with
  | S n', r :: inc' => deliver n' inc' (read_settles decode s r)
  | _, _ => (s, inc)
  end.

(** A suspension point that does not depend on the framer. *)
Definition yield : M unit :=
  fun w =>
    let '(s, inc) := deliver (hd 0 (schedule w)) (incoming w) (sess w) in
    (Done tt, mkWorld s (device w) inc (tl (schedule w)) (out w)).

(** [await p] for a promise [p] of the store. *)
Fixpoint await_promise (p : nat) (inc : list read_result) (s : session)
  : outcome text * session * list read_result :=
  match promises s !! p with
  | Some (Fulfilled v) => (Done v, s, inc)
  | Some (Rejected e) => (Threw e, s, inc)
  | _ =>
      match inc with
      | [] => (Blocked, s, [])
      | r :: inc' => await_promise p inc' (read_settles decode s r)
      end
  end.

Definition await (p : nat) : M text :=
  fun w =>
    let '(r, s, inc) := await_promise p (incoming w) (sess w) in
    (r, mkWorld s (device w) inc (schedule w) (out w)).

(** The synchronous part of [write(str)]: the data is handed to the writer
    and reaches the device. Without a locked writer the call fails. *)
Definition send (str : text) : M unit :=
  fun w =>
    match writer (sess w) with
    | Some true =>
        let '(d, rs) := respond str (device w) in
        (Done tt, mkWorld (sess w) d (incoming w ++ rs) (schedule w)
                    (out w ++ [Wrote str]))
    | _ => (Threw (Error msg_type_error), w)
    end.

(** [await this.write(str)] *)
Definition write (str : text) : M unit := send str >> yield.

(** [this.write(str)] without [await]: a failure is an unhandled rejection
    and does not reach the caller. *)
Definition write_nowait (str : text) : M unit :=
  fun w =>
    match send str w with
    | (Done _, w') => (Done tt, w')
    | _ => (Done tt, w)
    end.

(** [await new Promise((r) => setTimeout(r, ms))] *)
Definition sleep (ms : nat) : M unit := emit (Slept ms) >> yield.

(** [await this.readUntil(token)] *)
Definition readUntil_await (token : text) : M text :=
  fun w =>
    let '(s, p) := readUntil token (sess w) in
    await p (with_sess s w).

(** [for (let i = start; i < stop; i += step) body(i)], for [0 < step]. *)
Fixpoint for_loop (fuel i stop step : nat) (body : nat → M unit) : M unit :=
  match fuel with
  | 0 => ret tt
  | S fuel' =>
      if i <? stop then body i >> for_loop fuel' (i + step) stop step body
      else ret tt
  end.

Definition CTRL_A : text := [chr 1].
Definition CTRL_B : text := [chr 2].
Definition CTRL_C : text := [chr 3].
Definition CTRL_D : text := [chr 4].

Definition PROMPT : text := lit ">>>".
Definition RAW_BANNER : text := lit "raw REPL; CTRL-B to exit".
Definition RAW_DONE : text := CTRL_D ++ lit ">".

Definition getPrompt : M unit :=
  (fun w => (Done tt,
             with_sess (interrupt_wait (lit "Interrupt execution to get prompt") (sess w)) w)) >>
  write_nowait (CTRL_C ++ CTRL_B) >>
  let* _ := readUntil_await PROMPT in
  ret tt.

Definition enterRawRepl : M unit :=
  write_nowait CTRL_A >>
  let* _ := readUntil_await RAW_BANNER in
  ret tt.

Definition exitRawRepl : M unit :=
  write_nowait CTRL_B >>
  let* _ := readUntil_await PROMPT in
  ret tt.

Definition executeRaw (code : text) : M text :=
  let S := 128 in
  for_loop (length code) 0 (length code) S (fun i =>
    let c := slice code i (i + S) in
    write c >>
    sleep 10) >>
  write CTRL_D >>
  let* result := readUntil_await RAW_DONE in
  emit (Logged result) >>
  ret result.

(** *** File transfer operations *)

Definition runHelper : M text :=
  getPrompt >>
  enterRawRepl >>
  let* out := executeRaw HELPER_CODE in
  exitRawRepl >>
  ret out.

Definition createFolder (path : text) : M unit :=
  getPrompt >>
  enterRawRepl >>
  let command := createFolder_command path in
  let* _ := executeRaw command in
  exitRawRepl.


Definition createFile (path : text) : M unit :=
  getPrompt >>
  enterRawRepl >>
  let command := createFile_command path in
  let* _ := executeRaw command in
  exitRawRepl.

Definition removeFile (path : text) : M unit :=
  getPrompt >>
  enterRawRepl >>
  let command := removeFile_command path in
  let* _ := executeRaw command in
  exitRawRepl.

Definition downloadFile (source : text) : M text :=
  getPrompt >>
  let* _ := runHelper in
  enterRawRepl >>
  let* output := executeRaw (downloadFile_command source) in
  exitRawRepl >>
  let idxOk := indexOf output (lit "OK") in
  let idxEnd := indexOf output [chr 4] in
  if (idxOk =? -1)%Z || (idxEnd =? -1)%Z then ret []
  else
    let base64 := slice output (Z.to_nat (idxOk + 2)) (Z.to_nat idxEnd) in
    ret base64.

(** [atob(base64)] inside an [async] method. *)
Definition atob_or_throw (base64 : text) : M text :=
  fun w =>
    match atob base64 with
    | Some decoded => (Done decoded, w)
    | None => (Threw (Error msg_invalid_character), w)
    end.

Definition downloadFileToString (source : text) : M text :=
  let* base64 := downloadFile source in
  atob_or_throw base64.

Definition uploadFile (path : text) (content : list Byte.byte) : M unit :=
  let CHUNK_SIZE := 512 in
  getPrompt >>
  enterRawRepl >>
  let safePath := escape_quotes path in
  let* _ := executeRaw (open_wb_command safePath) in
  for_loop (length content) 0 (length content) CHUNK_SIZE (fun i =>
    let c := slice content i (i + CHUNK_SIZE) in
    let* _ := executeRaw (write_command c) in
    let uploaded := (i + CHUNK_SIZE) `min` length content in
    emit (Reported uploaded (length content))) >>
  let* _ := executeRaw close_command in
  exitRawRepl.

Definition downloadFileToBytes (path : text) : M (list Byte.byte) :=
  let* base64 := downloadFile path in
  let* decoded := atob_or_throw base64 in
  ret (byte_of_ascii <$> decoded).

(** *** Chunking *)

(** The computations [ms], one after the other. *)
Definition run_all (ms : list (M unit)) : M unit :=
  foldr (fun m k => m >> k) (ret tt) ms.

Lemma for_loop_unroll (stop step : nat) (body : nat → M unit) :
  0 < step →
  ∀ fuel k,
    stop - k * step ≤ fuel →
    for_loop fuel (k * step) stop step body
    = run_all (body <$> ((fun j => j * step) <$> seq k (chunk_count stop step - k))).
Proof.
  intros Hstep. induction fuel as [|fuel IH]; intros k Hfuel.
  - assert (chunk_count stop step - k = 0) as ->.
    { pose proof (chunk_count_tight stop step Hstep k). lia. }
    done.
  - simpl. destruct (Nat.ltb_spec (k * step) stop) as [Hlt|Hge].
    + assert (k < chunk_count stop step).
      { pose proof (chunk_count_covers stop step Hstep). nia. }
      replace (chunk_count stop step - k) with (S (chunk_count stop step - S k)) by lia.
      simpl. replace (k * step + step) with (S k * step) by lia.
      rewrite IH by (simpl; lia). done.
    + assert (chunk_count stop step - k = 0) as ->.
      { pose proof (chunk_count_tight stop step Hstep k). lia. }
      done.
Qed.

(** *** What an [await] of the framer returns *)

Lemma bind_Done {A B} (m : M A) (f : A → M B) (w w' : world) (b : B) :
  bind m f w = (Done b, w') ↔ ∃ a w1, m w = (Done a, w1) ∧ f a w1 = (Done b, w').
Proof.
  unfold bind. destruct (m w) as [[a|e|] w1]; split.
  - intros H. by exists a, w1.
  - intros (a' & w1' & [= -> ->] & H). done.
  - done.
  - intros (a' & w1' & [=] & _).
  - done.
  - intros (a' & w1' & [=] & _).
Qed.

(** With the read loop stopped, a pending promise stays pending. *)
Lemma await_promise_dead (p : nat) (inc : list read_result) (s : session) :
  loop s ≠ LoopReading →
  promises s !! p = Some Pending →
  (await_promise p inc s).1.1 = Blocked.
Proof.
  intros Hl Hp. induction inc as [|r inc IH]; simpl; rewrite Hp; [done|].
  assert (read_settles decode s r = s) as ->; [|done].
  unfold read_settles. by destruct (loop s).
Qed.

(** A wait registered for promise [p] that is fulfilled: the read loop has
    handled the chunks [vs], and only them; the value is the buffer followed
    by the text of all of [vs]; it contains the marker; the chunks before the
    last one did not complete it; and the session is idle again. *)
Lemma await_promise_waiting (m : text) (p : nat) (inc : list read_result) :
  ∀ (buf : text) (s : session) (v : text) (s' : session) (inc' : list read_result),
  waiting m p buf s →
  await_promise p inc s = (Done v, s', inc') →
  ∃ vs, inc = (RChunk <$> vs) ++ inc' ∧
        v = buf ++ carried decode (Bytes <$> vs) ∧
        contains m v ∧
        (∀ j, S j < length vs →
           ¬ contains m (buf ++ carried decode (Bytes <$> take (S j) vs))) ∧
        s' = read_all decode vs s ∧
        promises s' = <[p := Fulfilled v]> (promises s) ∧
        readingUntil s' = None ∧ readingBuffer s' = [].
Proof.
  induction inc as [|r inc IH]; intros buf s v s' inc' Hw Hrun;
    destruct (Hw) as [Hu Hb Hres Hrej Hp]; simpl in Hrun; rewrite Hp in Hrun;
    [done|].
  destruct (decide (loop s = LoopReading)) as [Hl|Hl]; last first.
  { pose proof (await_promise_dead p inc s Hl Hp) as Hdead.
    assert (read_settles decode s r = s) as Heq.
    { unfold read_settles. by destruct (loop s). }
    rewrite Heq, (surjective_pairing (await_promise p inc s)),
      (surjective_pairing (await_promise p inc s).1), Hdead in Hrun. done. }
  destruct r as [value| |].
  - assert (Hstep : read_settles decode s (RChunk value) = onData decode (Bytes value) s).
    { unfold read_settles. by rewrite Hl. }
    rewrite Hstep in Hrun.
    destruct (negb (indexOf (buf ++ decode value) m =? -1)%Z) eqn:Htest.
    + apply indexOf_test in Htest.
      destruct (onData_complete decode m p buf (Bytes value) s Hw Htest)
        as (Hps & Hu' & Hb' & _).
      assert (Hful : promises (onData decode (Bytes value) s) !! p
                     = Some (Fulfilled (buf ++ decode value))).
      { rewrite Hps. apply list_lookup_insert_eq. by apply lookup_lt_Some in Hp. }
      destruct inc as [|r' inc]; simpl in Hrun; rewrite Hful in Hrun;
        injection Hrun as <- <- <-.
      * exists [value]. unfold carried, read_all. simpl. rewrite app_nil_r.
        do 3 (split; [done|]). split; [intros j Hj; lia|].
        rewrite Hstep. done.
      * exists [value]. unfold carried, read_all. simpl. rewrite app_nil_r.
        do 3 (split; [done|]). split; [intros j Hj; lia|].
        rewrite Hstep. done.
    + apply indexOf_test_false in Htest.
      destruct (onData_accumulate decode m p buf (Bytes value) s Hw Htest) as [Hw' Hps].
      destruct (IH _ _ _ _ _ Hw' Hrun) as (vs & -> & -> & Hc & Hleast & -> & Hps' & Hu' & Hb').
      exists (value :: vs). unfold carried in *. simpl. rewrite <- app_assoc.
      do 2 (split; [done|]). rewrite <- app_assoc in Hc. split; [done|].
      split.
      { intros [|j] Hj; simpl.
        - by rewrite app_nil_r.
        - rewrite app_assoc. apply Hleast. simpl in Hj. lia. }
      split; [unfold read_all; simpl; by rewrite Hstep|].
      split; [|done]. rewrite Hps', Hps. simpl. by rewrite <- app_assoc.
  - exfalso.
    set (s1 := read_settles decode s RDone) in *.
    assert (Hl1 : loop s1 ≠ LoopReading).
    { unfold s1, read_settles. rewrite Hl. done. }
    assert (Hp1 : promises s1 !! p = Some Pending).
    { unfold s1, read_settles, notify. rewrite Hl. simpl.
      by destruct (onDisconnect s). }
    pose proof (await_promise_dead p inc s1 Hl1 Hp1) as Hdead.
    rewrite Hrun in Hdead. done.
  - exfalso.
    set (s1 := read_settles decode s RError) in *.
    assert (Hl1 : loop s1 ≠ LoopReading).
    { unfold s1, read_settles. rewrite Hl. done. }
    assert (Hp1 : promises s1 !! p = Some Pending).
    { unfold s1, read_settles. rewrite Hl. done. }
    pose proof (await_promise_dead p inc s1 Hl1 Hp1) as Hdead.
    rewrite Hrun in Hdead. done.
Qed.

Lemma readUntil_await_Done (m : text) (w w' : world) (v : text) :
  readUntil_await m w = (Done v, w') →
  readingUntil (sess w) = None ∧
  ∃ vs, incoming w = (RChunk <$> vs) ++ incoming w' ∧
        v = carried decode (Bytes <$> vs) ∧
        contains m v ∧
        (∀ j, S j < length vs →
           ¬ contains m (carried decode (Bytes <$> take (S j) vs))) ∧
        sess w' = read_all decode vs (readUntil m (sess w)).1 ∧
        promises (sess w') !! length (promises (sess w)) = Some (Fulfilled v) ∧
        readingUntil (sess w') = None ∧ readingBuffer (sess w') = [] ∧
        out w' = out w ∧ device w' = device w ∧ schedule w' = schedule w.
Proof.
  unfold readUntil_await, await. intros Hrun.
  destruct (readingUntil (sess w)) as [m'|] eqn:Hu.
  { exfalso. unfold readUntil in Hrun. rewrite Hu in Hrun. simpl in Hrun.
    destruct (incoming w); simpl in Hrun;
      rewrite lookup_app_r, Nat.sub_diag in Hrun by done; simpl in Hrun; done. }
  split; [done|].
  destruct (readUntil_idle m (sess w) Hu) as (Hw & Hid & Hps).
  destruct (readUntil m (sess w)) as [s1 p] eqn:Hru. simpl in *. subst p.
  destruct (await_promise _ _ _) as [[r s2] inc2] eqn:Haw. simpl in Hrun.
  injection Hrun as -> <-. simpl.
  destruct (await_promise_waiting m _ _ _ _ _ _ _ Hw Haw)
    as (vs & Hinc & Hv & Hc & Hleast & Hs2 & Hps2 & Hu2 & Hb2).
  exists vs. simpl in *. do 5 (split; [done|]). split; [|done].
  rewrite Hps2. apply list_lookup_insert_eq. rewrite Hps, length_app. simpl. lia.
Qed.

(** *** Traces *)

(** Whenever [m] completes it has appended [t] to the trace. *)
Definition emits {A} (m : M A) (t : list action) : Prop :=
  ∀ w a w', m w = (Done a, w') → out w' = out w ++ t.

Lemma emits_ret {A} (a : A) : emits (ret a) [].
Proof. intros w b w' [= <- <-]. by rewrite app_nil_r. Qed.

Lemma emits_bind {A B} (m : M A) (f : A → M B) (t1 t2 : list action) :
  emits m t1 → (∀ a, emits (f a) t2) → emits (bind m f) (t1 ++ t2).
Proof.
  intros H1 H2 w b w' (a & w1 & Hm & Hf)%bind_Done.
  rewrite (H2 _ _ _ _ Hf), (H1 _ _ _ Hm). by rewrite app_assoc.
Qed.

Lemma emits_emit (a : action) : emits (emit a) [a].
Proof. by intros w b w' [= <- <-]. Qed.

Lemma emits_yield : emits yield [].
Proof.
  intros w b w'. unfold yield. destruct (deliver _ _ _).
  intros [= <- <-]. simpl. by rewrite app_nil_r.
Qed.

Lemma emits_send (str : text) : emits (send str) [Wrote str].
Proof.
  intros w b w'. unfold send. destruct (writer (sess w)) as [[]|]; try done.
  destruct (respond _ _). by intros [= <- <-].
Qed.

Lemma emits_write (str : text) : emits (write str) [Wrote str].
Proof.
  change [Wrote str] with ([Wrote str] ++ []).
  apply emits_bind; [apply emits_send | intros _; apply emits_yield].
Qed.

Lemma emits_sleep (ms : nat) : emits (sleep ms) [Slept ms].
Proof.
  change [Slept ms] with ([Slept ms] ++ []).
  apply emits_bind; [apply emits_emit | intros _; apply emits_yield].
Qed.

Lemma emits_readUntil_await (m : text) : emits (readUntil_await m) [].
Proof.
  intros w v w' H. apply readUntil_await_Done in H as (_ & vs & H).
  rewrite app_nil_r. tauto.
Qed.

Lemma emits_run_all (ms : list (M unit)) (ts : list (list action)) :
  Forall2 emits ms ts → emits (run_all ms) (concat ts).
Proof.
  induction 1 as [|m t ms ts Hm _ IH]; simpl.
  - apply emits_ret.
  - apply emits_bind; [done | by intros _].
Qed.

(** *** [executeRaw] *)

(** What [executeRaw(code)] hands to the writer, pauses included. *)
Definition exec_trace (code : text) : list action :=
  concat ((fun c => [Wrote c; Slept 10]) <$> pieces 128 code) ++ [Wrote [chr 4]].

Lemma executeRaw_unroll (code : text) :
  executeRaw code
  = (run_all ((fun c => write c >> sleep 10) <$> pieces 128 code) >>
     write [chr 4] >>
     let* result := readUntil_await RAW_DONE in
     emit (Logged result) >>
     ret result).
Proof.
  unfold executeRaw.
  rewrite (for_loop_unroll (length code) 128 _ ltac:(lia) (length code) 0) by lia.
  rewrite Nat.sub_0_r. unfold pieces. rewrite <- !list_fmap_compose. done.
Qed.

Lemma executeRaw_Done (code : text) (w w' : world) (r : text) :
  executeRaw code w = (Done r, w') →
  out w' = out w ++ exec_trace code ++ [Logged r] ∧
  contains RAW_DONE r ∧
  ∃ w1 vs,
    out w1 = out w ++ exec_trace code ∧
    incoming w1 = (RChunk <$> vs) ++ incoming w' ∧
    r = carried decode (Bytes <$> vs) ∧
    sess w' = read_all decode vs (readUntil RAW_DONE (sess w1)).1.
Proof.
  rewrite executeRaw_unroll.
  intros (u1 & w1 & Hchunks & (u2 & w2 & Hd & (v & w3 & Hwait & (u3 & w4 & Hlog & Hret)%bind_Done)%bind_Done)%bind_Done)%bind_Done.
  unfold emit, ret in Hlog, Hret. simplify_eq/=.
  assert (Ht1 : out w1 = out w ++ concat ((fun c => [Wrote c; Slept 10]) <$> pieces 128 code)).
  { revert Hchunks. apply emits_run_all.
    apply Forall2_fmap, Forall_Forall2_diag, Forall_forall. intros c _.
    change [Wrote c; Slept 10] with ([Wrote c] ++ [Slept 10]).
    apply emits_bind; [apply emits_write | intros _; apply emits_sleep]. }
  apply emits_write in Hd.
  apply readUntil_await_Done in Hwait
    as (_ & vs & Hinc & Hv & Hc & _ & Hs & _ & _ & _ & Hout & _).
  assert (Ht2 : out w2 = out w ++ exec_trace code).
  { rewrite Hd, Ht1. unfold exec_trace. by rewrite <- app_assoc. }
  split; [|split; [done|]].
  - rewrite Hout, Ht2. by rewrite <- !app_assoc.
  - by exists w2, vs.
Qed.

(** *** What an operation hands to the writer and to the reporter *)

Definition is_logged (a : action) : bool :=
  match a with Logged _ => true | _ => false end.

(** A trace without its [console.log] entries. *)
Definition quiet (t : list action) : list action :=
  filter (fun a => is_logged a = false) t.

(** Whenever [m] completes on a session with a locked writer it has added
    [t], and possibly log entries, to the trace; the writer is still
    locked. *)
Definition performs {A} (m : M A) (t : list action) : Prop :=
  ∀ w a w',
    writer (sess w) = Some true →
    m w = (Done a, w') →
    quiet (out w') = quiet (out w) ++ t ∧ writer (sess w') = Some true.

Lemma quiet_app (t1 t2 : list action) : quiet (t1 ++ t2) = quiet t1 ++ quiet t2.
Proof. apply filter_app. Qed.

Lemma writer_read_settles (s : session) (r : read_result) :
  writer (read_settles decode s r) = writer s.
Proof.
  unfold read_settles. destruct (loop s); try done.
  destruct r; try done.
  - apply transport_onData.
  - unfold notify. simpl. by destruct (onDisconnect s).
Qed.

Lemma writer_deliver (n : nat) : ∀ inc s,
  writer (deliver n inc s).1 = writer s.
Proof.
  induction n as [|n IH]; intros [|r inc] s; simpl; try done.
  by rewrite IH, writer_read_settles.
Qed.

Lemma writer_call_resolve (cb : callback) (r : text) (s : session) :
  writer (call_resolve cb r s) = writer s.
Proof.
  destruct cb; simpl; try done; unfold settle; simpl;
    by destruct (_ !! _) as [[]|].
Qed.

Lemma writer_readUntil (m : text) (s : session) :
  writer (readUntil m s).1 = writer s.
Proof. unfold readUntil. by destruct (readingUntil s). Qed.

Lemma performs_ret {A} (a : A) : performs (ret a) [].
Proof. intros w b w' Hw [= <- <-]. by rewrite app_nil_r. Qed.

Lemma performs_bind {A B} (m : M A) (f : A → M B) (t1 t2 : list action) :
  performs m t1 → (∀ a, performs (f a) t2) → performs (bind m f) (t1 ++ t2).
Proof.
  intros H1 H2 w b w' Hw (a & w1 & Hm & Hf)%bind_Done.
  destruct (H1 _ _ _ Hw Hm) as [Ht1 Hw1].
  destruct (H2 _ _ _ _ Hw1 Hf) as [Ht2 Hw2].
  split; [|done]. rewrite Ht2, Ht1. by rewrite app_assoc.
Qed.

Lemma performs_emit (a : action) :
  performs (emit a) (quiet [a]).
Proof.
  intros w u w' Hw H. injection H as H. subst w'. split; [apply quiet_app | done].
Qed.

Lemma performs_yield : performs yield [].
Proof.
  intros w u w' Hw. unfold yield.
  pose proof (writer_deliver (hd 0 (schedule w)) (incoming w) (sess w)) as H.
  destruct (deliver _ _ _) as [s inc] eqn:Hd. intros Heq. simplify_eq. simpl in *.
  rewrite app_nil_r. split; [done | congruence].
Qed.

Lemma performs_send (str : text) : performs (send str) [Wrote str].
Proof.
  intros w u w' Hw. unfold send. rewrite Hw.
  destruct (respond _ _). intros H. injection H as H. subst w'. split; [apply quiet_app | done].
Qed.

Lemma performs_write (str : text) : performs (write str) [Wrote str].
Proof.
  change [Wrote str] with ([Wrote str] ++ []).
  apply performs_bind; [apply performs_send | intros _; apply performs_yield].
Qed.

Lemma performs_sleep (ms : nat) : performs (sleep ms) [Slept ms].
Proof.
  change [Slept ms] with (quiet [Slept ms] ++ []).
  apply performs_bind; [apply performs_emit | intros _; apply performs_yield].
Qed.

Lemma performs_write_nowait (str : text) : performs (write_nowait str) [Wrote str].
Proof.
  intros w a w' Hw. unfold write_nowait, send. rewrite Hw.
  destruct (respond _ _). intros H. injection H as H. subst w'. split; [apply quiet_app | done].
Qed.

Lemma performs_readUntil_await (m : text) : performs (readUntil_await m) [].
Proof.
  intros w v w' Hw H.
  apply readUntil_await_Done in H
    as (_ & vs & _ & _ & _ & _ & Hs & _ & _ & _ & Hout & _).
  rewrite Hout, app_nil_r. split; [done|]. rewrite Hs.
  destruct (transport_read_all decode vs (readUntil m (sess w)).1)
    as (_ & _ & _ & -> & _).
  by rewrite writer_readUntil.
Qed.

Lemma performs_getPrompt : performs getPrompt [Wrote (CTRL_C ++ CTRL_B)].
Proof.
  unfold getPrompt.
  change [Wrote (CTRL_C ++ CTRL_B)] with ([] ++ [Wrote (CTRL_C ++ CTRL_B)] ++ [] ++ []).
  apply performs_bind; [|intros _; apply performs_bind;
    [apply performs_write_nowait | intros _; apply performs_bind;
      [apply performs_readUntil_await | intros _; apply performs_ret]]].
  intros w a w' Hw H. simplify_eq. simpl. rewrite app_nil_r. split; [done|].
  unfold interrupt_wait. destruct (truthy_text _); [|done].
  by rewrite writer_call_resolve.
Qed.

Lemma performs_enterRawRepl : performs enterRawRepl [Wrote CTRL_A].
Proof.
  unfold enterRawRepl. change [Wrote CTRL_A] with ([Wrote CTRL_A] ++ [] ++ []).
  apply performs_bind; [apply performs_write_nowait | intros _; apply performs_bind;
      [apply performs_readUntil_await | intros _; apply performs_ret]].
Qed.

Lemma performs_exitRawRepl : performs exitRawRepl [Wrote CTRL_B].
Proof.
  unfold exitRawRepl. change [Wrote CTRL_B] with ([Wrote CTRL_B] ++ [] ++ []).
  apply performs_bind; [apply performs_write_nowait | intros _; apply performs_bind;
      [apply performs_readUntil_await | intros _; apply performs_ret]].
Qed.

Lemma performs_run_all (ms : list (M unit)) (ts : list (list action)) :
  Forall2 performs ms ts → performs (run_all ms) (concat ts).
Proof.
  induction 1 as [|m t ms ts Hm _ IH]; simpl.
  - apply performs_ret.
  - apply performs_bind; [done | by intros _].
Qed.

Lemma performs_executeRaw (code : text) : performs (executeRaw code) (exec_trace code).
Proof.
  rewrite executeRaw_unroll. unfold exec_trace.
  apply performs_bind.
  { apply performs_run_all, Forall2_fmap, Forall_Forall2_diag, Forall_forall.
    intros c _. change [Wrote c; Slept 10] with ([Wrote c] ++ [Slept 10]).
    apply performs_bind; [apply performs_write | intros _; apply performs_sleep]. }
  intros _. change [Wrote [chr 4]] with ([Wrote [chr 4]] ++ [] ++ quiet [] ++ []).
  apply performs_bind; [apply performs_write|]. intros _.
  apply performs_bind; [apply performs_readUntil_await|]. intros r.
  apply performs_bind; [apply (performs_emit (Logged r))|]. intros _.
  apply performs_ret.
Qed.

(** *** [uploadFile] *)

(** The [k]-th step of the upload loop: one chunk command, then the
    progress report. *)
Definition upload_step (content : list Byte.byte) (k : nat) : M unit :=
  let* _ := executeRaw (write_command (chunk_at 512 content k)) in
  emit (Reported (((k + 1) * 512) `min` length content) (length content)).

Definition upload_step_trace (content : list Byte.byte) (k : nat) : list action :=
  exec_trace (write_command (chunk_at 512 content k))
  ++ [Reported (((k + 1) * 512) `min` length content) (length content)].

Lemma uploadFile_unroll (path : text) (content : list Byte.byte) :
  uploadFile path content
  = (getPrompt >>
     enterRawRepl >>
     let* _ := executeRaw (open_wb_command (escape_quotes path)) in
     run_all (upload_step content <$> seq 0 (chunk_count (length content) 512)) >>
     let* _ := executeRaw close_command in
     exitRawRepl).
Proof.
  unfold uploadFile.
  rewrite (for_loop_unroll (length content) 512 _ ltac:(lia) (length content) 0) by lia.
  rewrite Nat.sub_0_r, <- list_fmap_compose.
  match goal with
  | |- context [?f <$> seq 0 ?c] =>
      assert (f <$> seq 0 c = upload_step content <$> seq 0 c) as ->; [|done]
  end.
  apply list_fmap_ext. intros i k _. simpl.
  unfold upload_step, chunk_at.
  by replace (k * 512 + 512) with ((k + 1) * 512) by lia.
Qed.

(** *** Progress

    The statements above say what a method has done whenever it returns.
    The ones below give the conditions under which it does return: the
    session is standing, nothing is in flight or due at a suspension point,
    and the device answers the last write of the method with one chunk that
    contains the marker the method waits for. *)

(** A session on which a method can start: the writer is locked, the read
    loop is at its [await], no wait is registered. *)
Definition standing (s : session) : Prop :=
  writer s = Some true ∧ loop s = LoopReading ∧ readingUntil s = None.

Lemma loop_readUntil (m : text) (s : session) : loop (readUntil m s).1 = loop s.
Proof. unfold readUntil. by destruct (readingUntil s). Qed.

Lemma readUntil_await_returns (m : text) (s : session) (d : dev)
    (v : list Byte.byte) (o : list action) :
  standing s → contains m (decode v) →
  ∃ s', standing s' ∧
        readUntil_await m (mkWorld s d [RChunk v] [] o)
        = (Done (decode v), mkWorld s' d [] [] o).
Proof.
  intros (Hw & Hl & Hu) Hc.
  destruct (readUntil_idle m s Hu) as (Hwait & Hp & Hps).
  pose proof (loop_readUntil m s) as Hl1.
  pose proof (writer_readUntil m s) as Hw1.
  unfold readUntil_await, await. simpl.
  destruct (readUntil m s) as [s1 p] eqn:Hru. simpl in *. subst p.
  rewrite (w_pending _ _ _ _ Hwait).
  assert (Hstep : read_settles decode s1 (RChunk v) = onData decode (Bytes v) s1).
  { unfold read_settles. by rewrite Hl1, Hl. }
  rewrite Hstep.
  destruct (onData_complete decode m _ [] (Bytes v) s1 Hwait Hc)
    as (Hps' & Hu' & _).
  destruct (transport_onData decode (Bytes v) s1) as (_ & _ & _ & Hw2 & Hl2).
  assert (Hful : promises (onData decode (Bytes v) s1) !! length (promises s)
                 = Some (Fulfilled (decode v))).
  { rewrite Hps'. apply list_lookup_insert_eq.
    by apply lookup_lt_Some with Pending, (w_pending _ _ _ _ Hwait). }
  rewrite Hful. eexists. split; [|reflexivity].
  unfold standing. by rewrite Hw2, Hl2, Hw1, Hl1.
Qed.

Lemma write_answered (str : text) (s : session) (d d' : dev)
    (rs : list read_result) (o : list action) :
  writer s = Some true → respond str d = (d', rs) →
  write str (mkWorld s d [] [] o) = (Done tt, mkWorld s d' rs [] (o ++ [Wrote str])).
Proof. intros Hw Hr. unfold write, bind, send, yield. simpl. by rewrite Hw, Hr. Qed.

Lemma write_nowait_answered (str : text) (s : session) (d d' : dev)
    (rs : list read_result) (o : list action) :
  writer s = Some true → respond str d = (d', rs) →
  write_nowait str (mkWorld s d [] [] o)
  = (Done tt, mkWorld s d' rs [] (o ++ [Wrote str])).
Proof. intros Hw Hr. unfold write_nowait, send. simpl. by rewrite Hw, Hr. Qed.

(** The device takes the texts [cs] one after the other and stays silent. *)
Fixpoint absorbs (cs : list text) (d d' : dev) : Prop :=
  match cs with
  | [] => d' = d
  | c :: cs => ∃ d1, respond c d = (d1, []) ∧ absorbs cs d1 d'
  end.

Lemma run_all_absorbed (cs : list text) :
  ∀ (s : session) (d d' : dev) (o : list action),
  writer s = Some true → absorbs cs d d' →
  run_all ((fun c => write c >> sleep 10) <$> cs) (mkWorld s d [] [] o)
  = (Done tt, mkWorld s d' [] [] (o ++ concat ((fun c => [Wrote c; Slept 10]) <$> cs))).
Proof.
  induction cs as [|c cs IH]; intros s d d' o Hw Habs.
  - simpl in *. subst d'. by rewrite app_nil_r.
  - destruct Habs as (d1 & Hr & Habs).
    cbn [fmap list_fmap run_all foldr]. unfold bind at 1 2.
    rewrite (write_answered c s d d1 [] o Hw Hr).
    unfold sleep, bind, emit, yield. cbn.
    fold (run_all ((fun c => write c >> sleep 10) <$> cs)).
    rewrite (IH s d1 d' _ Hw Habs). by rewrite <- !app_assoc.
Qed.

Lemma executeRaw_returns (code : text) (s : session) (d d1 d2 : dev)
    (v : list Byte.byte) (o : list action) :
  standing s →
  absorbs (pieces 128 code) d d1 →
  respond CTRL_D d1 = (d2, [RChunk v]) →
  contains RAW_DONE (decode v) →
  ∃ s', standing s' ∧
        executeRaw code (mkWorld s d [] [] o)
        = (Done (decode v),
           mkWorld s' d2 [] [] (o ++ exec_trace code ++ [Logged (decode v)])).
Proof.
  intros Hs Habs Hr Hc. rewrite executeRaw_unroll.
  unfold bind at 1. rewrite (run_all_absorbed _ s d d1 o (proj1 Hs) Habs).
  unfold bind at 1. rewrite (write_answered _ s d1 d2 [RChunk v] _ (proj1 Hs) Hr).
  destruct (readUntil_await_returns RAW_DONE s d2 v
              ((o ++ concat ((fun c => [Wrote c; Slept 10]) <$> pieces 128 code))
               ++ [Wrote CTRL_D]) Hs Hc) as (s' & Hs' & Hrun).
  exists s'. split; [done|].
  unfold bind at 1. rewrite Hrun. unfold bind, emit, ret. simpl.
  unfold exec_trace. change CTRL_D with [chr 4]. by rewrite <- !app_assoc.
Qed.

(** A control write answered by one chunk with the awaited marker. *)
Lemma command_returns (str m : text) (s : session) (d d' : dev)
    (v : list Byte.byte) (o : list action) :
  standing s →
  respond str d = (d', [RChunk v]) →
  contains m (decode v) →
  ∃ s', standing s' ∧
        (write_nowait str >> let* _ := readUntil_await m in ret tt)
          (mkWorld s d [] [] o)
        = (Done tt, mkWorld s' d' [] [] (o ++ [Wrote str])).
Proof.
  intros Hs Hr Hc.
  destruct (readUntil_await_returns m s d' v (o ++ [Wrote str]) Hs Hc)
    as (s' & Hs' & Hrun).
  exists s'. split; [done|].
  unfold bind at 1. rewrite (write_nowait_answered str s d d' _ o (proj1 Hs) Hr).
  unfold bind. by rewrite Hrun.
Qed.

Lemma getPrompt_returns (s : session) (d d' : dev) (v : list Byte.byte)
    (o : list action) :
  standing s →
  respond (CTRL_C ++ CTRL_B) d = (d', [RChunk v]) →
  contains PROMPT (decode v) →
  ∃ s', standing s' ∧
        getPrompt (mkWorld s d [] [] o)
        = (Done tt, mkWorld s' d' [] [] (o ++ [Wrote (CTRL_C ++ CTRL_B)])).
Proof.
  intros Hs Hr Hc.
  destruct (command_returns _ PROMPT s d d' v o Hs Hr Hc) as (s' & Hs' & Hrun).
  exists s'. split; [done|].
  unfold getPrompt. unfold bind at 1. unfold with_sess, interrupt_wait. simpl.
  destruct Hs as (_ & _ & ->). simpl. exact Hrun.
Qed.

(** Computations run one after the other keep an invariant indexed by the
    number of them that have run. *)
Lemma run_all_invariant (I : nat → world → Prop) (ms : list (M unit)) :
  (∀ k m w, ms !! k = Some m → I k w → ∃ w', m w = (Done tt, w') ∧ I (S k) w') →
  ∀ w, I 0 w → ∃ w', run_all ms w = (Done tt, w') ∧ I (length ms) w'.
Proof.
  revert I. induction ms as [|m ms IH]; intros I Hstep w Hw.
  - by exists w.
  - destruct (Hstep 0 m w eq_refl Hw) as (w1 & Hm & Hw1).
    destruct (IH (fun k => I (S k)) (fun k m' w' Hk => Hstep (S k) m' w' Hk) w1 Hw1)
      as (w' & Hrun & Hw').
    exists w'. split; [|done]. simpl. unfold bind. by rewrite Hm.
Qed.

(** The device answers the control write [str] with one chunk that holds
    the marker [m]. *)
Definition answers (str m : text) (d d' : dev) : Prop :=
  ∃ v, respond str d = (d', [RChunk v]) ∧ contains m (decode v).

(** The device takes the chunks of [code] in silence and answers the
    trigger byte with one chunk that holds the completion marker. *)
Definition runs (code : text) (d d' : dev) : Prop :=
  ∃ d1 v, absorbs (pieces 128 code) d d1 ∧
          respond [chr 4] d1 = (d', [RChunk v]) ∧
          contains RAW_DONE (decode v).

Lemma executeRaw_runs (code : text) (s : session) (d d' : dev) (o : list action) :
  standing s → runs code d d' →
  ∃ s' r o', standing s' ∧
    executeRaw code (mkWorld s d [] [] o) = (Done r, mkWorld s' d' [] [] o').
Proof.
  intros Hs (d1 & v & Habs & Hr & Hc).
  destruct (executeRaw_returns code s d d1 d' v o Hs Habs Hr Hc) as (s' & Hs' & Hrun).
  by exists s', (decode v), (o ++ exec_trace code ++ [Logged (decode v)]).
Qed.

Lemma handshake_answered (str m : text) (s : session) (d d' : dev) (o : list action) :
  standing s → answers str m d d' →
  ∃ s', standing s' ∧
    (write_nowait str >> let* _ := readUntil_await m in ret tt) (mkWorld s d [] [] o)
    = (Done tt, mkWorld s' d' [] [] (o ++ [Wrote str])).
Proof. intros Hs (v & Hr & Hc). by apply (command_returns str m s d d' v). Qed.

Lemma uploadFile_returns (path : text) (content : list Byte.byte)
    (ds : nat → dev) (d d1 d2 d3 d4 : dev) (s : session) (o : list action) :
  standing s →
  answers [chr 3; chr 2] (lit ">>>") d d1 →
  answers [chr 1] (lit "raw REPL; CTRL-B to exit") d1 d2 →
  runs (open_wb_command (escape_quotes path)) d2 (ds 0) →
  (∀ k, k < (length content + 511) / 512 →
     runs (write_command (chunk_at 512 content k)) (ds k) (ds (S k))) →
  runs (lit "f.close()") (ds ((length content + 511) / 512)) d3 →
  answers [chr 2] (lit ">>>") d3 d4 →
  ∃ s' o', standing s' ∧
    uploadFile path content (mkWorld s d [] [] o)
    = (Done tt, mkWorld s' d4 [] [] o').
Proof.
  assert (Hcc : (length content + 511) / 512 = chunk_count (length content) 512).
  { unfold chunk_count. f_equal. lia. }
  rewrite Hcc. set (cnt := chunk_count (length content) 512).
  intros Hs (v1 & Hr1 & Hc1) H2 H3 Hloop H5 H6.
  destruct (getPrompt_returns s d d1 v1 o Hs Hr1 Hc1) as (s1 & Hs1 & E1).
  set (o1 := o ++ [Wrote (CTRL_C ++ CTRL_B)]) in *.
  destruct (handshake_answered _ _ s1 d1 d2 o1 Hs1 H2) as (s2 & Hs2 & E2).
  destruct (executeRaw_runs _ s2 d2 (ds 0) (o1 ++ [Wrote [chr 1]]) Hs2 H3)
    as (s3 & r3 & o3 & Hs3 & E3).
  set (I := fun (k : nat) (w : world) =>
              ∃ s' o', standing s' ∧ w = mkWorld s' (ds k) [] [] o').
  destruct (run_all_invariant I (upload_step content <$> seq 0 cnt))
    with (w := mkWorld s3 (ds 0) [] [] o3)
    as (w4 & E4 & (s4 & o4 & Hs4 & ->)).
  { intros k m w Hk (s' & o' & Hs' & ->).
    rewrite list_lookup_fmap in Hk.
    destruct (seq 0 cnt !! k) as [j|] eqn:Hj; [|done].
    apply lookup_seq in Hj as [-> Hlt]. simpl in Hk. injection Hk as <-.
    destruct (executeRaw_runs _ s' (ds k) (ds (S k)) o' Hs' (Hloop k Hlt))
      as (s'' & r & o'' & Hs'' & Hrun).
    eexists. split.
    - unfold upload_step, bind. rewrite Hrun. reflexivity.
    - by eexists s'', _. }
  { by exists s3, o3. }
  rewrite length_fmap, length_seq in E4.
  destruct (executeRaw_runs _ s4 (ds cnt) d3 o4 Hs4 H5) as (s5 & r5 & o5 & Hs5 & E5).
  destruct (handshake_answered _ _ s5 d3 d4 o5 Hs5 H6) as (s6 & Hs6 & E6).
  exists s6. eexists. split; [done|].
  rewrite uploadFile_unroll.
  unfold bind at 1. rewrite E1.
  change (write_nowait [chr 1] >>
          let* _ := readUntil_await (lit "raw REPL; CTRL-B to exit") in ret tt)
    with enterRawRepl in E2.
  unfold bind at 1. rewrite E2.
  unfold bind at 1. rewrite E3.
  unfold bind at 1. fold cnt. rewrite E4.
  change (lit "f.close()") with close_command in E5.
  unfold bind at 1. rewrite E5.
  exact E6.
Qed.

(** C4. [executeRaw(code)] writes [code] as its consecutive chunks of at
    most 128 characters (none empty, their concatenation is [code]), each
    followed by a pause of 10 ms, then writes the single byte [0x04], then
    waits for the marker [0x04 '>'] and returns what the wait delivered,
    unchanged. Whenever it returns, the trace has grown by exactly these
    writes, in that order, and the text returned is the text of the chunks
    the read loop handled during the wait; it contains the marker. And it
    does return: on a standing session with nothing in flight, when the
    device takes the chunks in silence and answers [0x04] with a chunk whose
    text contains the marker, the call returns the whole text of that
    chunk. *)
Theorem executeRaw_protocol (code : text) :
  concat (pieces 128 code) = code ∧
  Forall (fun c => 0 < length c ≤ 128) (pieces 128 code) ∧
  RAW_DONE = [chr 4; ">"%char] ∧
  executeRaw code
    = (run_all ((fun c => write c >> sleep 10) <$> pieces 128 code) >>
       write [chr 4] >>
       let* result := readUntil_await RAW_DONE in
       emit (Logged result) >>
       ret result) ∧
  (∀ w r w', executeRaw code w = (Done r, w') →
    out w' = out w
             ++ concat ((fun c => [Wrote c; Slept 10]) <$> pieces 128 code)
             ++ [Wrote [chr 4]; Logged r] ∧
    contains RAW_DONE r ∧
    ∃ w1 vs,
      out w1 = out w
               ++ concat ((fun c => [Wrote c; Slept 10]) <$> pieces 128 code)
               ++ [Wrote [chr 4]] ∧
      incoming w1 = (RChunk <$> vs) ++ incoming w' ∧
      r = carried decode (Bytes <$> vs)) ∧
  (∀ s d d1 d2 v o,
    standing s →
    absorbs (pieces 128 code) d d1 →
    respond [chr 4] d1 = (d2, [RChunk v]) →
    contains RAW_DONE (decode v) →
    ∃ s', standing s' ∧
          executeRaw code (mkWorld s d [] [] o)
          = (Done (decode v),
             mkWorld s' d2 [] []
               (o ++ concat ((fun c => [Wrote c; Slept 10]) <$> pieces 128 code)
                  ++ [Wrote [chr 4]; Logged (decode v)]))).
Proof.
  split; [by apply concat_pieces; lia|].
  split; [by apply pieces_bounded; lia|].
  split; [done|].
  split; [apply executeRaw_unroll|].
  split.
  - intros w r w' H.
    destruct (executeRaw_Done code w w' r H) as (Ht & Hc & w1 & vs & Ht1 & Hinc & Hr & _).
    unfold exec_trace in *. rewrite <- app_assoc in Ht. simpl in Ht.
    split; [done|]. split; [done|]. by exists w1, vs.
  - intros s d d1 d2 v o Hs Habs Hr Hc.
    destruct (executeRaw_returns code s d d1 d2 v o Hs Habs Hr Hc) as (s' & Hs' & Hrun).
    exists s'. split; [done|]. rewrite Hrun. unfold exec_trace.
    by rewrite <- !app_assoc.
Qed.

(** C8. For a content of [n] bytes, [uploadFile] opens the destination
    (quote-escaped path) for binary write, then issues exactly
    [ceil(n/512)] chunk commands, the [k]-th one for the [k]-th chunk of at
    most 512 bytes, written [w(bytes([b0,b1,...]))] with the bytes in
    decimal, each followed by a call of the reporter with
    [min((k+1)*512, n)] and [n]; then it issues [f.close()] and leaves raw
    mode. The chunks are not empty and their concatenation is the content.
    Whenever the upload returns on a session with a locked writer, the
    writes, pauses and reports of the trace are exactly these. And it does
    return: on a standing session with nothing in flight, when the device
    answers the two handshakes and runs each command in turn. *)
Theorem uploadFile_protocol (path : text) (content : list Byte.byte) :
  let n := length content in
  length (pieces 512 content) = (n + 511) / 512 ∧
  concat (pieces 512 content) = content ∧
  Forall (fun c => 0 < length c ≤ 512) (pieces 512 content) ∧
  (∀ k, k < (n + 511) / 512 → pieces 512 content !! k = Some (chunk_at 512 content k)) ∧
  (∀ c, write_command c
        = lit "w(bytes([" ++ join (lit ",") ((fun b => decimal (Byte.to_nat b)) <$> c)
          ++ lit "]))") ∧
  uploadFile path content
    = (getPrompt >>
       enterRawRepl >>
       let* _ := executeRaw (open_wb_command (escape_quotes path)) in
       run_all ((fun k =>
                   let* _ := executeRaw (write_command (chunk_at 512 content k)) in
                   emit (Reported (((k + 1) * 512) `min` n) n))
                <$> seq 0 ((n + 511) / 512)) >>
       let* _ := executeRaw close_command in
       exitRawRepl) ∧
  (∀ w w', writer (sess w) = Some true →
    uploadFile path content w = (Done tt, w') →
    quiet (out w')
    = quiet (out w)
      ++ [Wrote [chr 3; chr 2]; Wrote [chr 1]]
      ++ exec_trace (open_wb_command (escape_quotes path))
      ++ concat ((fun k =>
                    exec_trace (write_command (chunk_at 512 content k))
                    ++ [Reported (((k + 1) * 512) `min` n) n])
                 <$> seq 0 ((n + 511) / 512))
      ++ exec_trace (lit "f.close()")
      ++ [Wrote [chr 2]]) ∧
  (∀ (ds : nat → dev) d d1 d2 d3 d4 s o,
    standing s →
    answers [chr 3; chr 2] (lit ">>>") d d1 →
    answers [chr 1] (lit "raw REPL; CTRL-B to exit") d1 d2 →
    runs (open_wb_command (escape_quotes path)) d2 (ds 0) →
    (∀ k, k < (n + 511) / 512 →
       runs (write_command (chunk_at 512 content k)) (ds k) (ds (S k))) →
    runs (lit "f.close()") (ds ((n + 511) / 512)) d3 →
    answers [chr 2] (lit ">>>") d3 d4 →
    ∃ s' o', standing s' ∧
      uploadFile path content (mkWorld s d [] [] o)
      = (Done tt, mkWorld s' d4 [] [] o')).
Proof.
  intros n.
  assert (Hcc : (n + 511) / 512 = chunk_count n 512).
  { unfold chunk_count. f_equal. lia. }
  rewrite Hcc.
  split; [apply length_pieces|].
  split; [by apply concat_pieces; lia|].
  split; [by apply pieces_bounded; lia|].
  split.
  { intros k Hk. unfold pieces. rewrite list_lookup_fmap.
    rewrite lookup_seq_lt; [done|]. exact Hk. }
  split; [done|].
  split; [apply uploadFile_unroll|].
  split; [|rewrite <- Hcc; apply uploadFile_returns].
  intros w w' Hw. rewrite uploadFile_unroll. intros H.
  eapply (performs_bind getPrompt _ [Wrote (CTRL_C ++ CTRL_B)]
            ([Wrote CTRL_A] ++ exec_trace (open_wb_command (escape_quotes path))
             ++ concat (upload_step_trace content <$> seq 0 (chunk_count n 512))
             ++ exec_trace close_command ++ [Wrote CTRL_B])) in H;
    [exact (proj1 H) | apply performs_getPrompt | | exact Hw].
  intros _. apply performs_bind; [apply performs_enterRawRepl|]. intros _.
  apply performs_bind; [apply performs_executeRaw|]. intros _.
  apply performs_bind.
  { apply performs_run_all, Forall2_fmap, Forall_Forall2_diag, Forall_forall.
    intros k _. apply performs_bind; [apply performs_executeRaw|].
    intros _. apply (performs_emit (Reported _ _)). }
  intros _. apply performs_bind; [apply performs_executeRaw|]. intros _.
  apply performs_exitRawRepl.
Qed.

End Protocol.

Arguments mkWorld {dev} _ _ _ _ _.
Arguments sess {dev} _.
Arguments device {dev} _.
Arguments incoming {dev} _.
Arguments schedule {dev} _.
Arguments out {dev} _.

(** ** Paths inside generated commands *)

(** How the device reads a short string literal opened by a single quote:
    [py_squoted s] scans [s], the text after the opening quote, and gives
    the string denoted and the text after the closing quote. [None] stands
    for a literal that is not terminated on its line, and for the escapes
    this model leaves out (hexadecimal, octal, unicode). *)
Fixpoint py_squoted (s : text) : option (text * text) :=
  match s with
  | [] => None
  | c :: s' =>
      if Ascii.eqb c squote then Some ([], s')
      else if Ascii.eqb c (chr 10) then None
      else if Ascii.eqb c backslash then
        match s' with
        | [] => None
        | e :: s'' =>
            let denoted :=
              if Ascii.eqb e squote then Some [squote]
              else if Ascii.eqb e dquote then Some [dquote]
              else if Ascii.eqb e backslash then Some [backslash]
              else if Ascii.eqb e "n"%char then Some [chr 10]
              else if Ascii.eqb e "r"%char then Some [chr 13]
              else if Ascii.eqb e "t"%char then Some [chr 9]
              else if Ascii.eqb e (chr 10) then Some []
              else None in
            match denoted, py_squoted s'' with
            | Some v, Some (v', rest) => Some (v ++ v', rest)
            | _, _ => None
            end
        end
      else
        match py_squoted s' with
        | Some (v, rest) => Some (c :: v, rest)
        | None => None
        end
  end.

(** A path the textual interpolation can carry: no backslash, no line
    break. *)
Definition plain_path (path : text) : Prop :=
  (backslash ∉ path) ∧ ((chr 10) ∉ path).

(** Every single quote of [s] directly follows a backslash. *)
Fixpoint quotes_escaped (s : text) : bool :=
  match s with
  | [] => true
  | c :: s' =>
      if Ascii.eqb c squote then false
      else if Ascii.eqb c backslash then
        match s' with
        | e :: s'' => if Ascii.eqb e squote then quotes_escaped s'' else quotes_escaped s'
        | [] => true
        end
      else quotes_escaped s'
  end.

Lemma escape_quotes_cons (c : ascii) (path : text) :
  escape_quotes (c :: path)
  = (if Ascii.eqb c squote then [backslash; squote] else [c]) ++ escape_quotes path.
Proof. done. Qed.

Lemma py_squoted_escaped_quote (s : text) :
  py_squoted (backslash :: squote :: s)
  = match py_squoted s with
    | Some (v, rest) => Some (squote :: v, rest)
    | None => None
    end.
Proof. done. Qed.

Lemma py_squoted_plain (c : ascii) (s : text) :
  c ≠ squote → c ≠ chr 10 → c ≠ backslash →
  py_squoted (c :: s)
  = match py_squoted s with
    | Some (v, rest) => Some (c :: v, rest)
    | None => None
    end.
Proof.
  intros H1 H2 H3. cbn [py_squoted].
  destruct (Ascii.eqb_spec c squote); [done|].
  destruct (Ascii.eqb_spec c (chr 10)); [done|].
  destruct (Ascii.eqb_spec c backslash); [done|]. done.
Qed.

(** [uploadFile] escapes the quotes of its path: the literal in the command
    it generates denotes the path itself and ends where it should. *)
Lemma uploadFile_path_escaped (path rest : text) :
  plain_path path →
  py_squoted (escape_quotes path ++ squote :: rest) = Some (path, rest) ∧
  uploadFile_command path
  = (lit "f=open('" ++ escape_quotes path ++ [squote] ++ lit ",'wb')" ++ nl
     ++ lit "w=f.write").
Proof.
  intros [Hb Hn]. split; [|done].
  induction path as [|c path IH]; [done|].
  apply not_elem_of_cons in Hb as [Hcb Hb].
  apply not_elem_of_cons in Hn as [Hcn Hn].
  specialize (IH Hb Hn). rewrite escape_quotes_cons, <- app_assoc.
  destruct (Ascii.eqb_spec c squote) as [->|Hq].
  - change ([backslash; squote] ++ ?x) with (backslash :: squote :: x).
    by rewrite py_squoted_escaped_quote, IH.
  - change ([c] ++ ?x) with (c :: x).
    by rewrite py_squoted_plain, IH.
Qed.

Lemma escape_quotes_escaped (path : text) :
  backslash ∉ path → quotes_escaped (escape_quotes path) = true.
Proof.
  induction path as [|c path IH]; [done|].
  intros [Hc Hb]%not_elem_of_cons. rewrite escape_quotes_cons.
  destruct (Ascii.eqb_spec c squote) as [->|Hq].
  - by apply IH.
  - change ([c] ++ ?x) with (c :: x). cbn [quotes_escaped].
    destruct (Ascii.eqb_spec c squote); [done|].
    destruct (Ascii.eqb_spec c backslash); [done|]. by apply IH.
Qed.

(** C5 at the failing input ["/a'b"]: [createFolder], [removeFolder],
    [createFile], [loadFile] and [downloadFile] interpolate the path as it
    is, so the quote inside it ends the literal: the device reads the path
    ["/a"] followed by stray text. [removeFile] interpolates it unescaped
    between double quotes. Only [uploadFile] escapes it. *)
Theorem quote_in_path_not_escaped :
  let path := lit "/a'b" in
  createFolder_command path = lit "import os;os.mkdir('/a'b')" ∧
  py_squoted (drop 20 (createFolder_command path)) = Some (lit "/a", lit "b')") ∧
  removeFolder_command path = lit "delete_folder('/a'b')" ∧
  py_squoted (drop 15 (removeFolder_command path)) = Some (lit "/a", lit "b')") ∧
  createFile_command path = lit "f=open('/a'b', 'w');f.close()" ∧
  py_squoted (drop 8 (createFile_command path))
    = Some (lit "/a", lit "b', 'w');f.close()") ∧
  take 22 (loadFile_command path) = lit "with open('/a'b','r') " ∧
  take 23 (downloadFile_command path) = lit "with open('/a'b','rb') " ∧
  quotes_escaped (removeFile_command path) = false ∧
  quotes_escaped (createFolder_command path) = false ∧
  uploadFile_command path = lit "f=open('/a\'b','wb')" ++ nl ++ lit "w=f.write" ∧
  py_squoted (drop 8 (uploadFile_command path))
    = Some (path, lit ",'wb')" ++ nl ++ lit "w=f.write").
Proof. vm_compute. repeat split. Qed.

(** ** Ordering of a firmware bundle ([usb.ts]) *)

Record firmware_file := mkFile {
  path : text;
  content : list Byte.byte;
  folder : text
}.

(** [xs.findIndex(pred)]: the first index whose element satisfies [pred],
    [-1] if there is none. *)
Fixpoint findIndex_from {A} (pred : A → bool) (xs : list A) (i : Z) : Z :=
  match xs with
  | [] => (-1)%Z
  | x :: xs' => if pred x then i else findIndex_from pred xs' (i + 1)%Z
  end.

Definition findIndex {A} (pred : A → bool) (xs : list A) : Z :=
  findIndex_from pred xs 0%Z.

(** [xs.splice(start, 1)] for [0 <= start]: the removed elements and what is
    left of the array. *)
Definition splice1 {A} (xs : list A) (start : nat) : list A * list A :=
  (take 1 (drop start xs), take start xs ++ drop (S start) xs).

Definition text_eqb (a b : text) : bool := bool_decide (a = b).

Definition VERSION : text := lit "/VERSION".

(** "Move VERSION file to end so we upload it last". *)
Definition move_version_last (firmwareFiles : list firmware_file) : list firmware_file :=
  let versionIndex := findIndex (fun f => text_eqb (path f) VERSION) firmwareFiles in
  if negb (versionIndex =? -1)%Z then
    match splice1 firmwareFiles (Z.to_nat versionIndex) with
    | (versionFile :: _, firmwareFiles) => firmwareFiles ++ [versionFile]
    | ([], firmwareFiles) => firmwareFiles      (* not reached: the index is valid *)
    end
  else firmwareFiles.

Lemma findIndex_from_spec {A} (pred : A → bool) (xs : list A) (i : Z) :
  (findIndex_from pred xs i = (-1)%Z ∧ Forall (fun x => pred x = false) xs ∧ True) ∨
  (∃ pre v post,
     xs = pre ++ v :: post ∧ pred v = true ∧
     Forall (fun x => pred x = false) pre ∧
     findIndex_from pred xs i = (i + Z.of_nat (length pre))%Z).
Proof.
  revert i. induction xs as [|x xs IH]; intros i; simpl.
  - left. by repeat constructor.
  - destruct (pred x) eqn:Hx.
    + right. exists [], x, xs. simpl. repeat split; [done|constructor|lia].
    + destruct (IH (i + 1)%Z) as [(Hi & Hall & _)|(pre & v & post & -> & Hv & Hpre & Hi)].
      * left. repeat split; [done|by constructor].
      * right. exists (x :: pre), v, post. simpl.
        repeat split; [done|by constructor|lia].
Qed.

(** C9. If a bundle has an entry with path ['/VERSION'], the ordering step
    takes the first such entry out of its place, wherever that is, and puts
    it at the very end; the other entries keep their order in front of it.
    With distinct paths no entry before the last is a version file. *)
Theorem version_file_moved_last (firmwareFiles : list firmware_file) :
  (∃ f, f ∈ firmwareFiles ∧ path f = VERSION) →
  ∃ pre v post,
    firmwareFiles = pre ++ v :: post ∧
    path v = VERSION ∧
    (∀ f, f ∈ pre → path f ≠ VERSION) ∧
    move_version_last firmwareFiles = (pre ++ post) ++ [v] ∧
    last (move_version_last firmwareFiles) = Some v ∧
    (NoDup (path <$> firmwareFiles) →
     ∀ f, f ∈ pre ++ post → path f ≠ VERSION).
Proof.
  intros (f & Hf & Hpath).
  unfold move_version_last, findIndex.
  destruct (findIndex_from_spec (fun f => text_eqb (path f) VERSION) firmwareFiles 0)
    as [(_ & Hall & _)|(pre & v & post & -> & Hv & Hpre & ->)].
  { rewrite Forall_forall in Hall. specialize (Hall f Hf).
    unfold text_eqb in Hall. by apply bool_decide_eq_false in Hall. }
  apply bool_decide_eq_true in Hv.
  exists pre, v, post. split; [done|]. split; [done|].
  assert (Hpre' : ∀ f, f ∈ pre → path f ≠ VERSION).
  { intros g Hg. rewrite Forall_forall in Hpre.
    specialize (Hpre g Hg). by apply bool_decide_eq_false in Hpre. }
  split; [done|].
  assert (Hmove :
    (if negb (0 + Z.of_nat (length pre) =? -1)%Z
     then match splice1 (pre ++ v :: post) (Z.to_nat (0 + Z.of_nat (length pre))) with
          | (versionFile :: _, rest) => rest ++ [versionFile]
          | ([], rest) => rest
          end
     else pre ++ v :: post) = (pre ++ post) ++ [v]).
  { destruct (Z.eqb_spec (0 + Z.of_nat (length pre)) (-1)) as [?|_]; [lia|]. simpl.
    replace (Z.to_nat (0 + Z.of_nat (length pre))) with (length pre) by lia.
    unfold splice1. rewrite drop_app_length. simpl.
    rewrite take_app_length.
    replace (S (length pre)) with (length (pre ++ [v])) by (rewrite length_app; simpl; lia).
    rewrite (cons_middle v pre post), app_assoc, drop_app_length. done. }
  rewrite Hmove. split; [done|]. split; [by rewrite last_snoc|].
  intros Hnd g Hg. rewrite fmap_app, fmap_cons in Hnd.
  apply NoDup_app in Hnd as (_ & Hdisj & Hnd).
  apply NoDup_cons in Hnd as [Hnotin _].
  apply elem_of_app in Hg as [Hg|Hg]; [by apply Hpre'|].
  intros Heq. apply Hnotin. rewrite Hv, <- Heq. by apply list_elem_of_fmap_2.
Qed.

Lemma version_file_moved_last_witness :
  path <$> last (move_version_last
    [mkFile (lit "/main.py") [] (lit "/"); mkFile VERSION [] (lit "/");
     mkFile (lit "/lib/a.py") [] (lit "/lib")])
  = Some VERSION.
Proof.
  destruct (version_file_moved_last
    [mkFile (lit "/main.py") [] (lit "/"); mkFile VERSION [] (lit "/");
     mkFile (lit "/lib/a.py") [] (lit "/lib")])
    as (pre & v & post & _ & Hv & _ & _ & Hlast & _).
  - exists (mkFile VERSION [] (lit "/")). split; [|reflexivity].
    apply list_elem_of_In. simpl. tauto.
  - rewrite Hlast. simpl. f_equal. exact Hv.
Defined.

(** ** The device file system and the helper routines of [HELPER_CODE]

    The helper is Python source run by the device. Its routines are
    embedded here over a model of the file system calls they make
    ([os.ilistdir], [os.remove], [os.rmdir]): a tree of named entries, with
    a path resolved from the root through its non-empty segments. A call
    that fails raises [OSError]. *)

#[warnings="-register-all"]
Inductive node :=
| File (data : list Byte.byte)
| Dir (entries : list (text * node)).

Definition is_file (n : node) : bool :=
  match n with File _ => true | Dir _ => false end.

Definition is_empty_dir (n : node) : bool :=
  match n with Dir [] => true | _ => false end.

(** [s.split(sep)] *)
Fixpoint split_on (sep : ascii) (s : text) : list text :=
  match s with
  | [] => [[]]
  | c :: s' =>
      if Ascii.eqb c sep then [] :: split_on sep s'
      else match split_on sep s' with
           | h :: t => (c :: h) :: t
           | [] => [[c]]
           end
  end.

Definition slash : ascii := "/"%char.

(** The names a path goes through, from the root. *)
Definition segments (path : text) : list text :=
  filter (fun x => x ≠ []) (split_on slash path).

Fixpoint lookup_entry (name : text) (es : list (text * node)) : option node :=
  match es with
  | [] => None
  | (n, c) :: es' => if text_eqb n name then Some c else lookup_entry name es'
  end.

Fixpoint remove_entry (name : text) (es : list (text * node)) : list (text * node) :=
  match es with
  | [] => []
  | (n, c) :: es' => if text_eqb n name then es' else (n, c) :: remove_entry name es'
  end.

Fixpoint replace_entry (name : text) (c' : node) (es : list (text * node))
  : list (text * node) :=
  match es with
  | [] => []
  | (n, c) :: es' =>
      if text_eqb n name then (n, c') :: es' else (n, c) :: replace_entry name c' es'
  end.

Fixpoint resolve (n : node) (segs : list text) : option node :=
  match segs with
  | [] => Some n
  | name :: segs' =>
      match n with
      | Dir es =>
          match lookup_entry name es with
          | Some c => resolve c segs'
          | None => None
          end
      | File _ => None
      end
  end.

(** Remove the entry at [segs] if it satisfies [ok]; [None] when there is
    no such entry, when it does not satisfy [ok], and for the root. *)
Fixpoint remove_at (ok : node → bool) (n : node) (segs : list text) : option node :=
  match n, segs with
  | Dir es, [name] =>
      match lookup_entry name es with
      | Some c => if ok c then Some (Dir (remove_entry name es)) else None
      | None => None
      end
  | Dir es, name :: segs' =>
      match lookup_entry name es with
      | Some c =>
          match remove_at ok c segs' with
          | Some c' => Some (Dir (replace_entry name c' es))
          | None => None
          end
      | None => None
      end
  | _, _ => None
  end.

Definition S_IFDIR : Z := 16384.   (* 0x4000 *)
Definition S_IFREG : Z := 32768.   (* 0x8000 *)

(** [os.ilistdir(path)]: name and type of each entry. *)
Definition os_ilistdir (fs : node) (path : text) : option (list (text * Z)) :=
  match resolve fs (segments path) with
  | Some (Dir es) =>
      Some ((fun e : text * node => (e.1, if is_file e.2 then S_IFREG else S_IFDIR)) <$> es)
  | _ => None
  end.

(** [os.remove(path)] *)
Definition os_remove (fs : node) (path : text) : option node :=
  remove_at is_file fs (segments path).

(** [os.rmdir(path)] *)
Definition os_rmdir (fs : node) (path : text) : option node :=
  remove_at is_empty_dir fs (segments path).

Inductive exception :=
| OSError
| NameError (name : text)
| RuntimeError          (* maximum recursion depth exceeded *)
| SyntaxError
| ValueError.

(** The value of the ["type"] key of a listing entry. *)
Inductive entry_type := TypeFile | TypeFolder.

(** [{"path": p, "type": ...}] *)
Record file_entry := mkEntry {
  entry_path : text;
  entry_type_of : entry_type
}.

Inductive os_call :=
| CallRemove (path : text)
| CallRmdir (path : text).

(** The interpreter state the helper works on: the file system, the list
    object that is the default value of [array_of_files] (created when the
    [def] is executed and shared by all calls that omit the argument), and
    the log of the removal calls made. *)
Record py_state := mkPy {
  fs : node;
  default_array : list file_entry;
  calls : list os_call
}.

Definition is_folder_entry (e : file_entry) : bool :=
  match entry_type_of e with TypeFolder => true | TypeFile => false end.

(** The body of the [for file in files] loop of [get_all_files], with
    [recurse] for the recursive call. The list is one object, appended to in
    place: the result carries it as it is when the loop ends or a call
    raises. *)
Fixpoint each_file
    (recurse : text → list file_entry → list file_entry * option exception)
    (path : text) (files : list (text * Z)) (array_of_files : list file_entry)
  : list file_entry * option exception :=
  match files with
  | [] => (array_of_files, None)
  | file :: files' =>
      let is_folder := (file.2 =? 16384)%Z in
      let p := path ++ [slash] ++ file.1 in
      let array_of_files :=
        array_of_files ++ [mkEntry p (if is_folder then TypeFolder else TypeFile)] in
      if is_folder then
        match recurse p array_of_files with
        | (array_of_files, None) => each_file recurse path files' array_of_files
        | (array_of_files, Some e) => (array_of_files, Some e)
        end
      else each_file recurse path files' array_of_files
  end.

(** [get_all_files(path, array_of_files)]. [limit] is the recursion depth
    the interpreter has left. *)
Fixpoint get_all_files (limit : nat) (fs : node) (path : text)
    (array_of_files : list file_entry) : list file_entry * option exception :=
  match limit with
  | 0 => (array_of_files, Some RuntimeError)
  | S limit' =>
      match os_ilistdir fs path with
      | None => (array_of_files, Some OSError)
      | Some files => each_file (get_all_files limit' fs) path files array_of_files
      end
  end.

(** [for file in files: if file['type'] == 'file': os.remove(file['path'])] *)
Fixpoint remove_files (files : list file_entry) (st : py_state)
  : py_state * option exception :=
  match files with
  | [] => (st, None)
  | file :: files' =>
      if is_folder_entry file then remove_files files' st
      else
        let st := mkPy (fs st) (default_array st)
                    (calls st ++ [CallRemove (entry_path file)]) in
        match os_remove (fs st) (entry_path file) with
        | Some fs' => remove_files files' (mkPy fs' (default_array st) (calls st))
        | None => (st, Some OSError)
        end
  end.

(** [for file in files: if file['type'] == 'folder': os.rmdir(file['path'])],
    for [files] already reversed. *)
Fixpoint remove_folders (files : list file_entry) (st : py_state)
  : py_state * option exception :=
  match files with
  | [] => (st, None)
  | file :: files' =>
      if is_folder_entry file then
        let st := mkPy (fs st) (default_array st)
                    (calls st ++ [CallRmdir (entry_path file)]) in
        match os_rmdir (fs st) (entry_path file) with
        | Some fs' => remove_folders files' (mkPy fs' (default_array st) (calls st))
        | None => (st, Some OSError)
        end
      else remove_folders files' st
  end.

(** [os.rmdir(path)] as a statement. *)
Definition rmdir_stmt (path : text) (st : py_state) : py_state * option exception :=
  let st := mkPy (fs st) (default_array st) (calls st ++ [CallRmdir path]) in
  match os_rmdir (fs st) path with
  | Some fs' => (mkPy fs' (default_array st) (calls st), None)
  | None => (st, Some OSError)
  end.

(** [delete_folder(path)] of [HELPER_CODE]. *)
Definition delete_folder (limit : nat) (path : text) (st : py_state)
  : py_state * option exception :=
  let '(files, e) := get_all_files limit (fs st) path (default_array st) in
  let st := mkPy (fs st) files (calls st) in
  match e with
  | Some e => (st, Some e)
  | None =>
      match remove_files files st with
      | (st, Some e) => (st, Some e)
      | (st, None) =>
          match remove_folders (reverse files) st with
          | (st, Some e) => (st, Some e)
          | (st, None) => rmdir_stmt path st
          end
      end
  end.

(** [delete_folder(path)] of the helper that the earlier wrapper inside
    [usb.ts] uploads: the same, but the last statement is
    [if path != '/': try: os.rmdir(path) except OSError: pass]. *)
Definition delete_folder_guarded (limit : nat) (path : text) (st : py_state)
  : py_state * option exception :=
  let '(files, e) := get_all_files limit (fs st) path (default_array st) in
  let st := mkPy (fs st) files (calls st) in
  match e with
  | Some e => (st, Some e)
  | None =>
      match remove_files files st with
      | (st, Some e) => (st, Some e)
      | (st, None) =>
          match remove_folders (reverse files) st with
          | (st, Some e) => (st, Some e)
          | (st, None) =>
              if negb (text_eqb path [slash]) then
                match rmdir_stmt path st with
                | (st, _) => (st, None)
                end
              else (st, None)
          end
      end
  end.

(** A small tree: [/main.py], [/lib/a.py], [/lib/sub/b.py], [/VERSION]. *)
Definition sample_fs : node :=
  Dir [(lit "main.py", File []);
       (lit "lib", Dir [(lit "a.py", File []);
                        (lit "sub", Dir [(lit "b.py", File [])])]);
       (lit "VERSION", File [])].

(** *** Trees the helper works on *)

(** A name an entry can have: not empty, no slash. *)
Definition valid_name (name : text) : Prop := name ≠ [] ∧ slash ∉ name.

(** The names of a directory are valid and distinct, all the way down. *)
#[warnings="-register-all"]
Inductive wf_node : node → Prop :=
| wf_File data : wf_node (File data)
| wf_Dir es :
    NoDup es.*1 →
    Forall (fun e => valid_name e.1 ∧ wf_node e.2) es →
    wf_node (Dir es).

(** Directories below a node, itself included. *)
Fixpoint depth (n : node) : nat :=
  match n with
  | File _ => 0
  | Dir es => S (foldr (fun e acc => depth e.2 `max` acc) 0 es)
  end.

(** The tree without its files. *)
Fixpoint strip (n : node) : node :=
  match n with
  | File data => File data
  | Dir es =>
      Dir (omap (fun e : text * node =>
                   match e.2 with
                   | File _ => None
                   | Dir _ => Some (e.1, strip e.2)
                   end) es)
  end.

Definition entry_of (path : text) (e : text * node) : file_entry :=
  mkEntry (path ++ [slash] ++ e.1) (if is_file e.2 then TypeFile else TypeFolder).

(** The entries below [path] in discovery order: each entry, then what it
    contains, then its next sibling. *)
Fixpoint listing (path : text) (n : node) : list file_entry :=
  match n with
  | File _ => []
  | Dir es =>
      concat ((fun e : text * node =>
                 entry_of path e :: listing (path ++ [slash] ++ e.1) e.2) <$> es)
  end.

(** The tree with the node at [segs] replaced by [t]. *)
Fixpoint replace_at (n : node) (segs : list text) (t : node) : node :=
  match segs with
  | [] => t
  | name :: segs' =>
      match n with
      | Dir es =>
          match lookup_entry name es with
          | Some c => Dir (replace_entry name (replace_at c segs' t) es)
          | None => n
          end
      | File _ => n
      end
  end.

(** The tree without the entry at [segs], whatever it is. *)
Definition delete_node (n : node) (segs : list text) : option node :=
  remove_at (fun _ => true) n segs.

(** The [os.remove] calls of the first loop of [delete_folder]. *)
Definition remove_calls (files : list file_entry) : list os_call :=
  (fun e => CallRemove (entry_path e)) <$> filter (fun e => is_folder_entry e = false) files.

(** The [os.rmdir] calls of its second loop, for [files] already reversed. *)
Definition rmdir_calls (files : list file_entry) : list os_call :=
  (fun e => CallRmdir (entry_path e)) <$> filter (fun e => is_folder_entry e = true) files.

Lemma node_ind' (P : node → Prop) :
  (∀ data, P (File data)) →
  (∀ es, Forall (fun e => P e.2) es → P (Dir es)) →
  ∀ n, P n.
Proof.
  intros HF HD. fix IH 1. intros [data|es]; [apply HF|].
  apply HD. induction es as [|[name c] es IHes]; constructor; [apply IH | exact IHes].
Qed.

Lemma text_eqb_eq (a b : text) : text_eqb a b = true ↔ a = b.
Proof. unfold text_eqb. apply bool_decide_eq_true. Qed.

Lemma text_eqb_refl (a : text) : text_eqb a a = true.
Proof. by apply text_eqb_eq. Qed.

Lemma text_eqb_ne (a b : text) : a ≠ b → text_eqb a b = false.
Proof. unfold text_eqb. apply bool_decide_eq_false. Qed.

(** **** Paths and segments *)

Lemma split_on_app (sep : ascii) (a b : text) :
  split_on sep (a ++ sep :: b) = split_on sep a ++ split_on sep b.
Proof.
  induction a as [|c a IH].
  - simpl. by rewrite Ascii.eqb_refl.
  - simpl. rewrite IH. destruct (Ascii.eqb c sep); [done|].
    destruct (split_on sep a) as [|h t] eqn:E; [|done].
    by destruct a as [|x a]; simpl in E; repeat case_match.
Qed.

Lemma split_on_plain (sep : ascii) (name : text) :
  sep ∉ name → split_on sep name = [name].
Proof.
  induction name as [|c name IH]; [done|].
  intros [Hc Hn]%not_elem_of_cons. simpl.
  destruct (Ascii.eqb_spec c sep); [congruence|]. by rewrite IH.
Qed.

(** The segments of [path + '/' + name]. *)
Lemma segments_child (path name : text) :
  valid_name name →
  segments (path ++ [slash] ++ name) = segments path ++ [name].
Proof.
  intros [Hne Hs]. unfold segments. simpl.
  rewrite split_on_app, filter_app. f_equal.
  rewrite split_on_plain by done. rewrite filter_cons_True by done. done.
Qed.

(** **** Entries of a directory *)

Lemma lookup_entry_middle (name : text) (c : node) (pre post : list (text * node)) :
  name ∉ pre.*1 →
  lookup_entry name (pre ++ (name, c) :: post) = Some c.
Proof.
  induction pre as [|[n x] pre IH]; simpl.
  - by rewrite text_eqb_refl.
  - intros [Hn Hpre]%not_elem_of_cons. rewrite text_eqb_ne by done. by apply IH.
Qed.

Lemma remove_entry_middle (name : text) (c : node) (pre post : list (text * node)) :
  name ∉ pre.*1 →
  remove_entry name (pre ++ (name, c) :: post) = pre ++ post.
Proof.
  induction pre as [|[n x] pre IH]; simpl.
  - by rewrite text_eqb_refl.
  - intros [Hn Hpre]%not_elem_of_cons. rewrite text_eqb_ne by done.
    by rewrite IH.
Qed.

Lemma replace_entry_middle (name : text) (c c' : node) (pre post : list (text * node)) :
  name ∉ pre.*1 →
  replace_entry name c' (pre ++ (name, c) :: post) = pre ++ (name, c') :: post.
Proof.
  induction pre as [|[n x] pre IH]; simpl.
  - by rewrite text_eqb_refl.
  - intros [Hn Hpre]%not_elem_of_cons. rewrite text_eqb_ne by done.
    by rewrite IH.
Qed.

Lemma lookup_entry_split (name : text) (c : node) (es : list (text * node)) :
  lookup_entry name es = Some c →
  ∃ pre post, es = pre ++ (name, c) :: post ∧ name ∉ pre.*1.
Proof.
  induction es as [|[n x] es IH]; [done|]. simpl.
  destruct (text_eqb n name) eqn:E.
  - apply text_eqb_eq in E as ->. intros [= ->]. exists [], es. split; [done|].
    apply not_elem_of_nil.
  - intros (pre & post & -> & Hpre)%IH. exists ((n, x) :: pre), post.
    split; [done|]. simpl. apply not_elem_of_cons. split; [|done].
    intros ->. by rewrite text_eqb_refl in E.
Qed.

Lemma replace_entry_same (name : text) (c : node) (es : list (text * node)) :
  lookup_entry name es = Some c → replace_entry name c es = es.
Proof.
  intros (pre & post & -> & Hpre)%lookup_entry_split.
  by apply replace_entry_middle.
Qed.

Lemma lookup_replace_entry (name : text) (c c' : node) (es : list (text * node)) :
  lookup_entry name es = Some c →
  lookup_entry name (replace_entry name c' es) = Some c'.
Proof.
  intros (pre & post & -> & Hpre)%lookup_entry_split.
  rewrite (replace_entry_middle _ c) by done. by apply lookup_entry_middle.
Qed.

Lemma replace_replace_entry (name : text) (c a b : node) (es : list (text * node)) :
  lookup_entry name es = Some c →
  replace_entry name b (replace_entry name a es) = replace_entry name b es.
Proof.
  intros (pre & post & -> & Hpre)%lookup_entry_split.
  rewrite (replace_entry_middle _ c) by done.
  by rewrite (replace_entry_middle _ a), (replace_entry_middle _ c).
Qed.

(** **** Resolving and replacing *)

Lemma resolve_app (n : node) (a b : list text) :
  resolve n (a ++ b) = resolve n a ≫= fun m => resolve m b.
Proof.
  revert n. induction a as [|name a IH]; intros n; [done|]. simpl.
  destruct n as [|es]; [done|]. destruct (lookup_entry name es); [|done].
  apply IH.
Qed.

Lemma replace_at_same (n : node) (segs : list text) (t : node) :
  resolve n segs = Some t → replace_at n segs t = n.
Proof.
  revert n. induction segs as [|name segs IH]; intros n; simpl.
  - congruence.
  - destruct n as [|es]; [done|].
    destruct (lookup_entry name es) as [c|] eqn:Hl; [|done].
    intros H. rewrite (IH c H). by rewrite replace_entry_same.
Qed.

Lemma resolve_replace_at (n : node) (segs : list text) (x t : node) :
  resolve n segs = Some x → resolve (replace_at n segs t) segs = Some t.
Proof.
  revert n. induction segs as [|name segs IH]; intros n; simpl; [done|].
  destruct n as [|es]; [done|].
  destruct (lookup_entry name es) as [c|] eqn:Hl; [|done].
  intros H. simpl. rewrite (lookup_replace_entry _ c) by done. by apply IH.
Qed.

Lemma replace_at_prefix (n : node) (segs rel : list text) (x y : node) :
  replace_at (replace_at n (segs ++ rel) x) segs y = replace_at n segs y.
Proof.
  revert n. induction segs as [|name segs IH]; intros n; simpl; [done|].
  destruct n as [|es]; [done|].
  destruct (lookup_entry name es) as [c|] eqn:Hl; simpl; [|by rewrite Hl].
  rewrite (lookup_replace_entry _ c) by done.
  by rewrite IH, (replace_replace_entry _ c).
Qed.

Lemma replace_at_replace_at (n : node) (segs : list text) (x y : node) :
  replace_at (replace_at n segs x) segs y = replace_at n segs y.
Proof.
  pose proof (replace_at_prefix n segs [] x y) as H. by rewrite app_nil_r in H.
Qed.

Lemma replace_at_child (n : node) (segs : list text) (name : text)
    (cur : list (text * node)) (c x : node) :
  resolve n segs = Some (Dir cur) →
  lookup_entry name cur = Some c →
  replace_at n (segs ++ [name]) x = replace_at n segs (Dir (replace_entry name x cur)).
Proof.
  revert n. induction segs as [|s segs IH]; intros n; simpl.
  - intros [= ->] Hl. by rewrite Hl.
  - destruct n as [|es]; [done|].
    destruct (lookup_entry s es) as [c'|] eqn:Hl; [|done].
    intros H Hc. by rewrite (IH c' H Hc).
Qed.

Lemma remove_at_lift (ok : node → bool) (n : node) (segs rel : list text) (t t' : node) :
  resolve n segs = Some t →
  rel ≠ [] →
  remove_at ok t rel = Some t' →
  remove_at ok n (segs ++ rel) = Some (replace_at n segs t').
Proof.
  intros Hres Hrel Hrem. revert n Hres.
  induction segs as [|s segs IH]; intros n; simpl.
  - by intros [= ->].
  - destruct n as [|es]; [done|].
    destruct (lookup_entry s es) as [c|] eqn:Hl; [|done].
    intros H. specialize (IH c H).
    destruct (segs ++ rel) as [|r l] eqn:E.
    { by apply app_eq_nil in E as [_ ->]. }
    by rewrite IH.
Qed.

Lemma remove_at_emptied (n : node) (segs : list text) (t : node) :
  segs ≠ [] →
  resolve n segs = Some t →
  remove_at is_empty_dir (replace_at n segs (Dir [])) segs = delete_node n segs ∧
  is_Some (delete_node n segs).
Proof.
  unfold delete_node. revert n.
  induction segs as [|s segs IH]; intros n Hne; [done|]. simpl.
  destruct n as [|es]; [done|].
  destruct (lookup_entry s es) as [c|] eqn:Hl; [|done].
  intros H. rewrite (lookup_replace_entry _ c) by done.
  destruct segs as [|s' segs].
  - simpl in *. split; [|done]. f_equal. f_equal.
    destruct (lookup_entry_split _ _ _ Hl) as (pre & post & -> & Hpre).
    rewrite (replace_entry_middle _ c) by done.
    by rewrite !remove_entry_middle.
  - destruct (IH c ltac:(done) H) as [Heq [fs' Hfs']].
    rewrite Heq, Hfs'. split; [|done].
    by rewrite (replace_replace_entry _ c).
Qed.

(** **** The listing *)

Lemma lookup_entry_NoDup (es : list (text * node)) (e : text * node) :
  NoDup es.*1 → e ∈ es → lookup_entry e.1 es = Some e.2.
Proof.
  intros Hnd (pre & post & ->)%list_elem_of_split.
  destruct e as [name c]. apply lookup_entry_middle.
  rewrite fmap_app, fmap_cons in Hnd. apply NoDup_app in Hnd as (_ & Hdisj & _).
  intros Hin. apply (Hdisj _ Hin). simpl. left.
Qed.

Lemma depth_entry (es : list (text * node)) (e : text * node) :
  e ∈ es → depth e.2 ≤ foldr (fun e acc => depth e.2 `max` acc) 0 es.
Proof.
  induction es as [|x es IH]; [by intros ?%elem_of_nil|].
  intros [->|Hin]%elem_of_cons; simpl; [lia|]. specialize (IH Hin). lia.
Qed.

Lemma resolve_child (fs : node) (path : text) (es : list (text * node)) (e : text * node) :
  resolve fs (segments path) = Some (Dir es) →
  valid_name e.1 →
  lookup_entry e.1 es = Some e.2 →
  resolve fs (segments (path ++ [slash] ++ e.1)) = Some e.2.
Proof.
  intros Hres Hv Hl. rewrite segments_child by done.
  rewrite resolve_app, Hres. simpl. by rewrite Hl.
Qed.

Definition type_code (e : text * node) : text * Z :=
  (e.1, if is_file e.2 then S_IFREG else S_IFDIR).

Lemma each_file_listing
    (recurse : text → list file_entry → list file_entry * option exception)
    (path : text) (todo : list (text * node)) :
  (∀ e arr, e ∈ todo → is_file e.2 = false →
     recurse (path ++ [slash] ++ e.1) arr
     = (arr ++ listing (path ++ [slash] ++ e.1) e.2, None)) →
  ∀ arr,
    each_file recurse path (type_code <$> todo) arr
    = (arr ++ concat ((fun e : text * node =>
                         entry_of path e :: listing (path ++ [slash] ++ e.1) e.2)
                      <$> todo), None).
Proof.
  induction todo as [|[name c] todo IH]; intros Hrec arr; simpl.
  - by rewrite app_nil_r.
  - unfold entry_of. simpl. destruct c as [data|es]; simpl.
    + rewrite IH.
      * by rewrite <- app_assoc.
      * intros e arr' He. apply Hrec. by right.
    + rewrite (Hrec (name, Dir es)); [|by left|done]. simpl.
      rewrite IH.
      * by rewrite <- !app_assoc.
      * intros e arr' He. apply Hrec. by right.
Qed.

(** On a well-formed tree within the recursion limit, [get_all_files]
    appends the listing of the directory to the list it is given. *)
Lemma get_all_files_listing (n : node) :
  wf_node n →
  ∀ limit fs path arr,
    depth n ≤ limit →
    resolve fs (segments path) = Some n →
    is_file n = false →
    get_all_files limit fs path arr = (arr ++ listing path n, None).
Proof.
  induction n as [data|es IH] using node_ind'; [done|].
  intros Hwf limit fs path arr Hd Hres _.
  inversion Hwf as [|es' Hnd Hall]; subst.
  destruct limit as [|limit]; [simpl in Hd; lia|]. simpl in Hd.
  cbn [get_all_files]. unfold os_ilistdir. rewrite Hres.
  change ((fun e : text * node => (e.1, if is_file e.2 then S_IFREG else S_IFDIR)) <$> es)
    with (type_code <$> es).
  apply each_file_listing. intros e arr' He Hdir.
  rewrite Forall_forall in IH, Hall.
  destruct (Hall e He) as [Hv Hwfe].
  apply IH; [done|done| | |done].
  - pose proof (depth_entry es e He). lia.
  - apply (resolve_child fs path es e Hres Hv). by apply lookup_entry_NoDup.
Qed.

(** **** The two loops of [delete_folder] *)

Definition strip_entries (es : list (text * node)) : list (text * node) :=
  omap (fun e : text * node =>
          match e.2 with
          | File _ => None
          | Dir _ => Some (e.1, strip e.2)
          end) es.

Lemma strip_entries_names (es : list (text * node)) (name : text) :
  name ∈ (strip_entries es).*1 → name ∈ es.*1.
Proof.
  induction es as [|[n c] es IH]; [done|]. unfold strip_entries in *. simpl.
  destruct c; simpl.
  - intros H. right. by apply IH.
  - intros [->|H]%elem_of_cons; [by left | right; by apply IH].
Qed.

Lemma remove_files_app (l1 l2 : list file_entry) (st : py_state) :
  remove_files (l1 ++ l2) st
  = match remove_files l1 st with
    | (st', None) => remove_files l2 st'
    | r => r
    end.
Proof.
  revert st. induction l1 as [|e l1 IH]; intros st; simpl; [done|].
  destruct (is_folder_entry e); [apply IH|].
  destruct (os_remove _ _); [apply IH | done].
Qed.

Lemma remove_folders_app (l1 l2 : list file_entry) (st : py_state) :
  remove_folders (l1 ++ l2) st
  = match remove_folders l1 st with
    | (st', None) => remove_folders l2 st'
    | r => r
    end.
Proof.
  revert st. induction l1 as [|e l1 IH]; intros st; simpl; [done|].
  destruct (is_folder_entry e); [|apply IH].
  destruct (os_rmdir _ _); [apply IH | done].
Qed.

Lemma remove_calls_app (l1 l2 : list file_entry) :
  remove_calls (l1 ++ l2) = remove_calls l1 ++ remove_calls l2.
Proof. unfold remove_calls. by rewrite filter_app, fmap_app. Qed.

Lemma rmdir_calls_app (l1 l2 : list file_entry) :
  rmdir_calls (l1 ++ l2) = rmdir_calls l1 ++ rmdir_calls l2.
Proof. unfold rmdir_calls. by rewrite filter_app, fmap_app. Qed.

(** The listing of the entries [es] of the directory [path]. *)
Definition listing_entries (path : text) (es : list (text * node)) : list file_entry :=
  concat ((fun e : text * node =>
             entry_of path e :: listing (path ++ [slash] ++ e.1) e.2) <$> es).

Lemma listing_Dir (path : text) (es : list (text * node)) :
  listing path (Dir es) = listing_entries path es.
Proof. done. Qed.

Lemma listing_entries_nil (path : text) : listing_entries path [] = [].
Proof. done. Qed.

Lemma strip_entries_nil : strip_entries [] = [].
Proof. done. Qed.

Lemma listing_entries_file (path name : text) (data : list Byte.byte)
    (es : list (text * node)) :
  listing_entries path ((name, File data) :: es)
  = mkEntry (path ++ [slash] ++ name) TypeFile :: listing_entries path es.
Proof. done. Qed.

Lemma listing_entries_dir (path name : text) (esc es : list (text * node)) :
  listing_entries path ((name, Dir esc) :: es)
  = mkEntry (path ++ [slash] ++ name) TypeFolder
    :: listing (path ++ [slash] ++ name) (Dir esc) ++ listing_entries path es.
Proof. done. Qed.

Lemma listing_entries_app (path : text) (es1 es2 : list (text * node)) :
  listing_entries path (es1 ++ es2) = listing_entries path es1 ++ listing_entries path es2.
Proof. unfold listing_entries. by rewrite fmap_app, concat_app. Qed.

Lemma remove_files_folder (p : text) (l : list file_entry) (st : py_state) :
  remove_files (mkEntry p TypeFolder :: l) st = remove_files l st.
Proof. done. Qed.

Lemma remove_files_file (p : text) (l : list file_entry) (root root' : node)
    (dflt : list file_entry) (cl : list os_call) :
  os_remove root p = Some root' →
  remove_files (mkEntry p TypeFile :: l) (mkPy root dflt cl)
  = remove_files l (mkPy root' dflt (cl ++ [CallRemove p])).
Proof. intros H. simpl. by rewrite H. Qed.

Lemma remove_folders_file (p : text) (l : list file_entry) (st : py_state) :
  remove_folders (mkEntry p TypeFile :: l) st = remove_folders l st.
Proof. done. Qed.

Lemma remove_folders_folder (p : text) (l : list file_entry) (root root' : node)
    (dflt : list file_entry) (cl : list os_call) :
  os_rmdir root p = Some root' →
  remove_folders (mkEntry p TypeFolder :: l) (mkPy root dflt cl)
  = remove_folders l (mkPy root' dflt (cl ++ [CallRmdir p])).
Proof. intros H. simpl. by rewrite H. Qed.

Lemma remove_calls_file (p : text) (l : list file_entry) :
  remove_calls (mkEntry p TypeFile :: l) = CallRemove p :: remove_calls l.
Proof. done. Qed.

Lemma remove_calls_folder (p : text) (l : list file_entry) :
  remove_calls (mkEntry p TypeFolder :: l) = remove_calls l.
Proof. done. Qed.

Lemma rmdir_calls_file (p : text) (l : list file_entry) :
  rmdir_calls (mkEntry p TypeFile :: l) = rmdir_calls l.
Proof. done. Qed.

Lemma rmdir_calls_folder (p : text) (l : list file_entry) :
  rmdir_calls (mkEntry p TypeFolder :: l) = CallRmdir p :: rmdir_calls l.
Proof. done. Qed.

Lemma strip_entries_file (name : text) (data : list Byte.byte) (es : list (text * node)) :
  strip_entries ((name, File data) :: es) = strip_entries es.
Proof. done. Qed.

Lemma strip_entries_dir (name : text) (esc es : list (text * node)) :
  strip_entries ((name, Dir esc) :: es) = (name, strip (Dir esc)) :: strip_entries es.
Proof. done. Qed.

Lemma strip_entries_app (es1 es2 : list (text * node)) :
  strip_entries (es1 ++ es2) = strip_entries es1 ++ strip_entries es2.
Proof. unfold strip_entries. apply omap_app. Qed.

Lemma strip_Dir (es : list (text * node)) : strip (Dir es) = Dir (strip_entries es).
Proof. done. Qed.

(** What the first loop is proved to do below a node. *)
Definition files_removed (n : node) : Prop :=
  wf_node n →
  ∀ root path dflt cl,
    resolve root (segments path) = Some n →
    remove_files (listing path n) (mkPy root dflt cl)
    = (mkPy (replace_at root (segments path) (strip n)) dflt
         (cl ++ remove_calls (listing path n)), None).

Lemma NoDup_names_step (sdone todo : list (text * node)) (name : text) (c : node) :
  NoDup (sdone.*1 ++ ((name, c) :: todo).*1) →
  (name ∉ sdone.*1) ∧ NoDup (sdone.*1 ++ todo.*1) ∧
  ∀ x, NoDup ((sdone ++ [(name, x)]).*1 ++ todo.*1).
Proof.
  intros Hnd. simpl in Hnd.
  assert (Hperm : sdone.*1 ++ name :: todo.*1 ≡ₚ name :: sdone.*1 ++ todo.*1)
    by (by rewrite <- Permutation_middle).
  rewrite Hperm in Hnd. apply NoDup_cons in Hnd as [Hnot Hnd].
  split; [|split; [done|]].
  - intros Hin. apply Hnot. apply elem_of_app. by left.
  - intros x. rewrite fmap_app. simpl. rewrite <- app_assoc. simpl.
    rewrite Hperm. by apply NoDup_cons.
Qed.

Lemma remove_files_entries (path : text) (todo : list (text * node)) :
  Forall (fun e => files_removed e.2) todo →
  Forall (fun e => valid_name e.1 ∧ wf_node e.2) todo →
  ∀ sdone root dflt cl,
    NoDup (sdone.*1 ++ todo.*1) →
    resolve root (segments path) = Some (Dir (sdone ++ todo)) →
    remove_files (listing_entries path todo) (mkPy root dflt cl)
    = (mkPy (replace_at root (segments path) (Dir (sdone ++ strip_entries todo))) dflt
         (cl ++ remove_calls (listing_entries path todo)), None).
Proof.
  induction todo as [|[name c] todo IHtodo]; intros HP Hwf sdone root dflt cl Hnd Hres.
  - unfold listing_entries, strip_entries, remove_calls. simpl.
    rewrite !app_nil_r in *. by rewrite replace_at_same.
  - apply Forall_cons in HP as [HPc HP]. apply Forall_cons in Hwf as [[Hv Hwfc] Hwf].
    simpl in Hv, Hwfc, HPc.
    destruct (NoDup_names_step _ _ _ _ Hnd) as (Hname & Hnd' & Hnd'').
    destruct c as [data|esc].
    + (* a file: removed *)
      rewrite listing_entries_file, strip_entries_file, remove_calls_file.
      rewrite (remove_files_file _ _ root
                 (replace_at root (segments path) (Dir (sdone ++ todo)))).
      * rewrite (IHtodo HP Hwf sdone); [|done|by eapply resolve_replace_at].
        rewrite replace_at_replace_at. by rewrite <- app_assoc.
      * unfold os_remove. rewrite segments_child by done.
        apply (remove_at_lift is_file root (segments path) [name]
                 (Dir (sdone ++ (name, File data) :: todo))); [done|done|].
        simpl. rewrite lookup_entry_middle by done. simpl.
        by rewrite remove_entry_middle.
    + (* a folder: its files first, then the next entries *)
      rewrite listing_entries_dir, strip_entries_dir, remove_calls_folder.
      rewrite remove_files_folder, remove_files_app.
      assert (Hchild : resolve root (segments (path ++ [slash] ++ name)) = Some (Dir esc)).
      { apply (resolve_child root path _ (name, Dir esc) Hres Hv). simpl.
        by apply lookup_entry_middle. }
      rewrite (HPc Hwfc root _ dflt cl Hchild).
      rewrite segments_child by done.
      rewrite (replace_at_child root (segments path) name _ (Dir esc) _ Hres)
        by (by apply lookup_entry_middle).
      rewrite (replace_entry_middle _ (Dir esc)) by done.
      rewrite (cons_middle _ sdone todo), app_assoc.
      rewrite (IHtodo HP Hwf (sdone ++ [(name, strip (Dir esc))])); [|done|].
      * rewrite replace_at_replace_at, remove_calls_app.
        by rewrite <- !app_assoc.
      * rewrite <- app_assoc. eapply resolve_replace_at. exact Hres.
Qed.

Lemma remove_files_listing (n : node) : files_removed n.
Proof.
  induction n as [data|es IH] using node_ind'; intros Hwf root path dflt cl Hres.
  - simpl. unfold remove_calls. simpl. rewrite app_nil_r.
    by rewrite replace_at_same.
  - inversion Hwf as [|es' Hnd Hall]; subst.
    rewrite listing_Dir, strip_Dir.
    apply (remove_files_entries path es IH Hall [] root dflt cl); done.
Qed.

(** What the second loop is proved to do below a node whose files are
    gone. *)
Definition folders_removed (n : node) : Prop :=
  wf_node n →
  ∀ root path dflt cl,
    resolve root (segments path) = Some (strip n) →
    is_file n = false →
    remove_folders (reverse (listing path n)) (mkPy root dflt cl)
    = (mkPy (replace_at root (segments path) (Dir [])) dflt
         (cl ++ rmdir_calls (reverse (listing path n))), None).

Lemma remove_folders_entries (path : text) (todo : list (text * node)) :
  Forall (fun e => folders_removed e.2) todo →
  Forall (fun e => valid_name e.1 ∧ wf_node e.2) todo →
  NoDup todo.*1 →
  ∀ root dflt cl,
    resolve root (segments path) = Some (Dir (strip_entries todo)) →
    remove_folders (reverse (listing_entries path todo)) (mkPy root dflt cl)
    = (mkPy (replace_at root (segments path) (Dir [])) dflt
         (cl ++ rmdir_calls (reverse (listing_entries path todo))), None).
Proof.
  induction todo as [|[name c] todo IHtodo] using rev_ind;
    intros HP Hwf Hnd root dflt cl Hres.
  - unfold listing_entries, rmdir_calls. simpl. rewrite app_nil_r.
    by rewrite replace_at_same.
  - apply Forall_app in HP as [HP HPc]. apply Forall_cons in HPc as [HPc _].
    apply Forall_app in Hwf as [Hwf Hwfc]. apply Forall_cons in Hwfc as [[Hv Hwfc] _].
    simpl in Hv, Hwfc, HPc.
    rewrite fmap_app in Hnd. apply NoDup_app in Hnd as (Hnd & Hdisj & _).
    assert (Hname : name ∉ (strip_entries todo).*1).
    { intros Hin%strip_entries_names. apply (Hdisj _ Hin). simpl. left. }
    rewrite listing_entries_app, reverse_app.
    rewrite strip_entries_app in Hres.
    destruct c as [data|esc].
    + (* a file: nothing to do *)
      rewrite listing_entries_file, listing_entries_nil, reverse_singleton.
      rewrite strip_entries_file, strip_entries_nil, app_nil_r in Hres.
      rewrite (rmdir_calls_app [_]), rmdir_calls_file. simpl.
      by apply IHtodo.
    + (* a folder: its folders first, then itself, then the entries before *)
      rewrite listing_entries_dir, listing_entries_nil, app_nil_r.
      rewrite strip_entries_dir, strip_entries_nil in Hres.
      rewrite reverse_cons, <- app_assoc.
      rewrite remove_folders_app.
      assert (Hchild : resolve root (segments (path ++ [slash] ++ name))
                       = Some (strip (Dir esc))).
      { apply (resolve_child root path _ (name, strip (Dir esc)) Hres Hv). simpl.
        by apply lookup_entry_middle. }
      rewrite (HPc Hwfc root _ dflt cl Hchild) by done.
      rewrite segments_child by done.
      rewrite (replace_at_child root (segments path) name _ (strip (Dir esc)) _ Hres)
        by (by apply lookup_entry_middle).
      rewrite (replace_entry_middle _ (strip (Dir esc))) by done.
      change ([mkEntry (path ++ [slash] ++ name) TypeFolder] ++ ?l)
        with (mkEntry (path ++ [slash] ++ name) TypeFolder :: l).
      rewrite (remove_folders_folder _ _ _
                 (replace_at root (segments path) (Dir (strip_entries todo)))).
      * rewrite IHtodo; [|done|done|done|by eapply resolve_replace_at].
        rewrite replace_at_replace_at, !rmdir_calls_app, rmdir_calls_folder.
        simpl. by rewrite <- !app_assoc.
      * unfold os_rmdir. rewrite segments_child by done.
        rewrite <- (replace_at_replace_at root (segments path)
                      (Dir (strip_entries todo ++ [(name, Dir [])]))
                      (Dir (strip_entries todo))).
        apply (remove_at_lift is_empty_dir _ (segments path) [name]
                 (Dir (strip_entries todo ++ [(name, Dir [])]))); [|done|].
        -- by eapply resolve_replace_at.
        -- simpl. rewrite lookup_entry_middle by done. simpl.
           by rewrite remove_entry_middle, app_nil_r.
Qed.

Lemma remove_folders_listing (n : node) : folders_removed n.
Proof.
  induction n as [data|es IH] using node_ind'; [done|].
  intros Hwf root path dflt cl Hres _.
  inversion Hwf as [|es' Hnd Hall]; subst.
  rewrite listing_Dir. rewrite strip_Dir in Hres.
  by apply remove_folders_entries.
Qed.

(** **** [delete_folder] on a directory that exists *)

Lemma wf_node_resolve (n : node) (segs : list text) (t : node) :
  wf_node n → resolve n segs = Some t → wf_node t.
Proof.
  revert n. induction segs as [|name segs IH]; intros n Hwf; simpl.
  - by intros [= <-].
  - destruct n as [|es]; [done|].
    destruct (lookup_entry name es) as [c|] eqn:Hl; [|done].
    apply IH. inversion Hwf as [|es' Hnd Hall]; subst.
    destruct (lookup_entry_split _ _ _ Hl) as (pre & post & -> & _).
    apply Forall_app in Hall as [_ Hall]. apply Forall_cons in Hall as [[_ H] _].
    exact H.
Qed.

(** For every directory that exists on a well-formed file system, other
    than the root, and within the recursion limit of the interpreter,
    [delete_folder] (run right after the helper was loaded, so with an empty
    default list) returns normally: it has called [os.remove] on the files
    of the listing in discovery order, then [os.rmdir] on its folders in
    reverse discovery order, then [os.rmdir] on the directory itself; none
    of these calls failed, so every folder was empty when it was removed;
    and the file system is the one without the directory. *)
Lemma delete_folder_removes_tree
    (limit : nat) (path : text) (root : node) (es : list (text * node))
    (cl : list os_call) :
  wf_node root →
  resolve root (segments path) = Some (Dir es) →
  segments path ≠ [] →
  depth (Dir es) ≤ limit →
  ∃ root',
    delete_node root (segments path) = Some root' ∧
    delete_folder limit path (mkPy root [] cl)
    = (mkPy root' (listing path (Dir es))
         (cl ++ remove_calls (listing path (Dir es))
             ++ rmdir_calls (reverse (listing path (Dir es)))
             ++ [CallRmdir path]),
       None).
Proof.
  intros Hwf Hres Hne Hdepth.
  assert (Hwft : wf_node (Dir es)) by (by eapply wf_node_resolve).
  destruct (remove_at_emptied root (segments path) (Dir es) Hne Hres) as [Hlast [root' Hroot']].
  exists root'. split; [done|].
  unfold delete_folder. simpl.
  rewrite (get_all_files_listing (Dir es) Hwft limit root path [] Hdepth Hres eq_refl).
  simpl.
  rewrite (remove_files_listing (Dir es) Hwft root path _ cl Hres).
  rewrite (remove_folders_listing (Dir es) Hwft _ path); [|by eapply resolve_replace_at|done].
  rewrite replace_at_replace_at.
  unfold rmdir_stmt, os_rmdir. simpl. rewrite Hlast, Hroot'.
  by rewrite <- !app_assoc.
Qed.


(** ** A model of the device

    Modelled from the spec: the interpreter at the other end of the link is
    not part of the repository. The model follows sections 4.3 and 6 of the
    specification for the raw-mode convention (control bytes [0x01]..[0x04],
    the banner, the prompt, ["OK"] before the output of a command and the
    terminator [0x04] after it and after the error text) and the usual
    reading of the commands the wrapper generates: a name is looked up among
    the names the session has bound so far and the built-in ones, and an
    unbound name raises [NameError]. Commands outside the vocabulary of the
    upload, download and delete operations raise [SyntaxError] here. *)

Inductive repl_mode := Friendly | RawMode.

Record mpy := mkMpy {
  mode : repl_mode;
  input : text;                      (* what raw mode has received so far *)
  py : py_state;
  globals : list text;               (* names bound in the session *)
  handle : option (list text);       (* the file [f] is open on, for writing *)
  recursion_limit : nat
}.

(** The names a run of [HELPER_CODE] binds: its imports and its [def]s. *)
Definition helper_names : list text :=
  [lit "os"; lit "json"; lit "is_directory"; lit "get_all_files";
   lit "ilist_all"; lit "delete_folder"].

Definition b64_alphabet : text :=
  lit "ABCDEFGHIJKLMNOPQRSTUVWXYZabcdefghijklmnopqrstuvwxyz0123456789+/".

Definition b64_char (n : nat) : ascii := nth n b64_alphabet "A"%char.

Fixpoint b64_encode (bs : list nat) : text :=
  match bs with
  | a :: b :: c :: rest =>
      b64_char (a / 4) :: b64_char ((a mod 4) * 16 + b / 16)
      :: b64_char ((b mod 16) * 4 + c / 64) :: b64_char (c mod 64)
      :: b64_encode rest
  | [a; b] =>
      [b64_char (a / 4); b64_char ((a mod 4) * 16 + b / 16);
       b64_char ((b mod 16) * 4); "="%char]
  | [a] => [b64_char (a / 4); b64_char ((a mod 4) * 16); "="%char; "="%char]
  | [] => []
  end.

(** [ubinascii.b2a_base64(data)]: the encoding and a newline. *)
Definition b2a_base64 (data : list Byte.byte) : text :=
  b64_encode (Byte.to_nat <$> data) ++ [chr 10].

(** What [print] sends over the link: a newline goes out as CR LF. *)
Definition cooked (s : text) : text :=
  concat ((fun c : ascii => if Ascii.eqb c (chr 10) then [chr 13; chr 10] else [c]) <$> s).

Fixpoint strip_prefix (pre s : text) : option text :=
  match pre, s with
  | [], _ => Some s
  | a :: pre', b :: s' => if Ascii.eqb a b then strip_prefix pre' s' else None
  | _ :: _, [] => None
  end.

Definition digit_value (c : ascii) : option nat :=
  let n := nat_of_ascii c in
  if (48 <=? n) && (n <=? 57) then Some (n - 48) else None.

(** A decimal literal: its value, [None] unless [s] is one or more digits. *)
Definition parse_decimal (s : text) : option nat :=
  match s with
  | [] => None
  | _ => foldl (fun acc c =>
                  match acc, digit_value c with
                  | Some a, Some d => Some (a * 10 + d)
                  | _, _ => None
                  end) (Some 0) s
  end.

(** The elements of [bytes([...])]: decimal literals between commas, each
    below 256. *)
Definition parse_byte_list (s : text) : option (list Byte.byte) :=
  match s with
  | [] => Some []
  | _ => mapM (fun item => n ← parse_decimal item; Byte.of_nat n) (split_on ","%char s)
  end.

(** Create or truncate the file at [segs] with [data]; [None] when the
    directory is missing or the name is that of a directory. *)
Fixpoint write_file (n : node) (segs : list text) (data : list Byte.byte) : option node :=
  match n, segs with
  | Dir es, [name] =>
      match lookup_entry name es with
      | Some (File _) => Some (Dir (replace_entry name (File data) es))
      | Some (Dir _) => None
      | None => Some (Dir (es ++ [(name, File data)]))
      end
  | Dir es, name :: segs' =>
      match lookup_entry name es with
      | Some c =>
          match write_file c segs' data with
          | Some c' => Some (Dir (replace_entry name c' es))
          | None => None
          end
      | None => None
      end
  | _, _ => None
  end.

Definition read_file (n : node) (segs : list text) : option (list Byte.byte) :=
  match resolve n segs with
  | Some (File data) => Some data
  | _ => None
  end.

Definition bound (name : text) (d : mpy) : bool :=
  bool_decide (name ∈ globals d).

Definition with_py (p : py_state) (d : mpy) : mpy :=
  mkMpy (mode d) (input d) p (globals d) (handle d) (recursion_limit d).

Definition with_fs (n : node) (d : mpy) : mpy :=
  with_py (mkPy n (default_array (py d)) (calls (py d))) d.

Definition bind_names (names : list text) (d : mpy) : mpy :=
  mkMpy (mode d) (input d) (py d) (names ++ globals d) (handle d) (recursion_limit d).

Definition with_handle (h : option (list text)) (d : mpy) : mpy :=
  mkMpy (mode d) (input d) (py d) (globals d) h (recursion_limit d).

Definition open_rest : text := lit ",'wb')" ++ nl ++ lit "w=f.write".

Definition download_rest : text :=
  lit ",'rb') as f:" ++ nl ++
  lit "  b = b2a_base64(f.read())" ++ nl ++
  lit "  for i in b:" ++ nl ++
  lit "    print( chr(i), end='' )" ++ nl.

(** Run one command in raw mode: the new state, what it printed, and the
    exception it ended with, if any. *)
Definition exec (code : text) (d : mpy) : mpy * text * option exception :=
  if text_eqb code HELPER_CODE then
    (* the [def]s are executed: a fresh default list for [get_all_files] *)
    (bind_names helper_names
       (with_py (mkPy (fs (py d)) [] (calls (py d))) d), [], None)
  else if text_eqb code close_command then
    if bound (lit "f") d then (with_handle None d, [], None)
    else (d, [], Some (NameError (lit "f")))
  else
    match strip_prefix (lit "f=open('") code with
    | Some rest =>
        match py_squoted rest with
        | Some (p, rest') =>
            if text_eqb rest' open_rest then
              match write_file (fs (py d)) (segments p) [] with
              | Some n =>
                  (bind_names [lit "f"; lit "w"]
                     (with_handle (Some (segments p)) (with_fs n d)), [], None)
              | None => (d, [], Some OSError)
              end
            else (d, [], Some SyntaxError)
        | None => (d, [], Some SyntaxError)
        end
    | None =>
    match strip_prefix (lit "w(bytes([") code with
    | Some rest =>
        if negb (text_eqb (drop (length rest - 3) rest) (lit "]))")) then
          (d, [], Some SyntaxError)
        else
          match parse_byte_list (take (length rest - 3) rest) with
          | None => (d, [], Some ValueError)
          | Some bs =>
              if negb (bound (lit "w") d) then (d, [], Some (NameError (lit "w")))
              else
                match handle d with
                | None => (d, [], Some ValueError)   (* I/O on a closed file *)
                | Some segs =>
                    match read_file (fs (py d)) segs with
                    | Some old =>
                        match write_file (fs (py d)) segs (old ++ bs) with
                        | Some n => (with_fs n d, [], None)
                        | None => (d, [], Some OSError)
                        end
                    | None => (d, [], Some OSError)
                    end
                end
          end
    | None =>
    match strip_prefix (lit "with open('") code with
    | Some rest =>
        match py_squoted rest with
        | Some (p, rest') =>
            if text_eqb rest' download_rest then
              match read_file (fs (py d)) (segments p) with
              | None => (d, [], Some OSError)
              | Some data =>
                  let d := bind_names [lit "f"] d in
                  if bound (lit "b2a_base64") d
                  then (bind_names [lit "b"; lit "i"] d, cooked (b2a_base64 data), None)
                  else (d, [], Some (NameError (lit "b2a_base64")))
              end
            else (d, [], Some SyntaxError)
        | None => (d, [], Some SyntaxError)
        end
    | None =>
    match strip_prefix (lit "delete_folder('") code with
    | Some rest =>
        match py_squoted rest with
        | Some (p, rest') =>
            if text_eqb rest' (lit ")") then
              if bound (lit "delete_folder") d then
                let '(st, e) := delete_folder (recursion_limit d) p (py d) in
                (with_py st d, [], e)
              else (d, [], Some (NameError (lit "delete_folder")))
            else (d, [], Some SyntaxError)
        | None => (d, [], Some SyntaxError)
        end
    | None => (d, [], Some SyntaxError)
    end end end end.

Definition crlf : text := [chr 13; chr 10].

Definition exception_text (e : exception) : text :=
  lit "Traceback (most recent call last):" ++ crlf ++
  match e with
  | OSError => lit "OSError"
  | NameError name => lit "NameError: name '" ++ name ++ lit "' isn't defined"
  | RuntimeError => lit "RuntimeError: maximum recursion depth exceeded"
  | SyntaxError => lit "SyntaxError: invalid syntax"
  | ValueError => lit "ValueError"
  end ++ crlf.

Definition friendly_banner : text :=
  crlf ++ lit "MicroPython; badge with RP2040" ++ crlf ++ lit ">>> ".

Definition raw_banner : text := lit "raw REPL; CTRL-B to exit" ++ crlf ++ lit ">".

Definition with_mode (m : repl_mode) (inp : text) (d : mpy) : mpy :=
  mkMpy m inp (py d) (globals d) (handle d) (recursion_limit d).

(** A soft reset forgets the names of the session. *)
Definition soft_reset (d : mpy) : mpy :=
  mkMpy (mode d) [] (py d) [] None (recursion_limit d).

(** The device receives one character. *)
Definition receive (d : mpy) (c : ascii) : mpy * text :=
  let n := nat_of_ascii c in
  match mode d with
  | Friendly =>
      if n =? 1 then (with_mode RawMode [] d, raw_banner)
      else if n =? 2 then (d, friendly_banner)
      else if n =? 3 then (d, crlf ++ lit ">>> ")
      else if n =? 4 then (soft_reset d, friendly_banner)
      else (d, [])
  | RawMode =>
      if n =? 1 then (with_mode RawMode [] d, raw_banner)
      else if n =? 2 then (with_mode Friendly [] d, friendly_banner)
      else if n =? 3 then (with_mode RawMode [] d, [])
      else if n =? 4 then
        match input d with
        | [] => (soft_reset d, lit "OK" ++ crlf ++ raw_banner)
        | code =>
            let '(d', stdout, e) := exec code (with_mode RawMode [] d) in
            (d', lit "OK" ++ stdout ++ [chr 4]
                 ++ match e with Some e => exception_text e | None => [] end
                 ++ [chr 4] ++ lit ">")
        end
      else (with_mode RawMode (input d ++ [c]) d, [])
  end.

(** The device receives [str] and answers with one chunk, if it has
    anything to say. *)
Definition mpy_respond (str : text) (d : mpy) : mpy * list read_result :=
  let '(d', answer) :=
    foldl (fun acc c => let '(d', o) := receive acc.1 c in (d', acc.2 ++ o)) (d, []) str in
  (d', match answer with
       | [] => []
       | _ => [RChunk (byte_of_ascii <$> answer)]
       end).

(** A device at its prompt, with the given files and session names. *)
Definition mpy_boot (files : node) (names : list text) : mpy :=
  mkMpy Friendly [] (mkPy files [] []) names None 16.

(** A wrapper after [init()], connected to the device [d]; nothing is in
    flight, and the read loop only runs while a method waits for it. *)
Definition connected (d : mpy) : world mpy :=
  mkWorld
    (set_loop LoopReading (set_isConnected true
       (set_writer (Some true) (set_reader (Some true) new_session))))
    d [] [] [].

(** [uploadFile(path, content)] followed by [downloadFileToBytes(path)]. *)
Definition round_trip (path : text) (content : list Byte.byte)
  : M mpy (list Byte.byte) :=
  bind mpy (uploadFile decode_ascii mpy mpy_respond path content)
    (fun _ => downloadFileToBytes decode_ascii mpy mpy_respond path).

(** *** Recursive delete at the root and at an absent path *)



(** *** Upload followed by download *)

(** C2 at the failing input: one byte is uploaded to ['/f'] and stored by
    the device, but the download gives back the empty array. The download
    command calls [b2a_base64], a name that [HELPER_CODE] does not bind, so
    the device answers with an error text and no payload, and the wrapper
    decodes the empty payload. *)
Theorem round_trip_loses_content :
  let w := connected (mpy_boot (Dir []) []) in
  (round_trip (lit "/f") [Byte.x41] w).1 = Done [] ∧
  fs (py (device (round_trip (lit "/f") [Byte.x41] w).2))
  = Dir [(lit "f", File [Byte.x41])] ∧
  bool_decide (lit "b2a_base64" ∈ helper_names) = false.
Proof. by vm_compute. Qed.

(** 0, 1, 2, ... (mod 251): [n] bytes of test content. *)
Definition test_bytes (n : nat) : list Byte.byte :=
  (fun i => default Byte.x00 (Byte.of_nat (i mod 251))) <$> seq 0 n.

(** On a device where [b2a_base64] is bound before the session starts, the
    same calls give the content back, at the sizes the specification
    names. *)
Lemma round_trip_with_encoder_bound :
  let w := connected (mpy_boot (Dir []) [lit "b2a_base64"]) in
  (round_trip (lit "/f") (test_bytes 0) w).1 = Done (test_bytes 0) ∧
  (round_trip (lit "/f") (test_bytes 1) w).1 = Done (test_bytes 1) ∧
  (round_trip (lit "/f") (test_bytes 511) w).1 = Done (test_bytes 511) ∧
  (round_trip (lit "/f") (test_bytes 512) w).1 = Done (test_bytes 512) ∧
  (round_trip (lit "/f") (test_bytes 1025) w).1 = Done (test_bytes 1025).
Proof. by vm_compute. Qed.

(** *** Closed instances on the device model *)

(** A device in raw mode on which [f] is bound. *)
Definition raw_device : mpy :=
  mkMpy RawMode [] (mkPy (Dir []) [] []) [lit "f"] None 16.

(** The chunk the device sends after a command without output. *)
Definition done_chunk : list Byte.byte :=
  byte_of_ascii <$> (lit "OK" ++ [chr 4; chr 4] ++ lit ">").

(** The device after it has taken [code] and run it. *)
Definition dev_step (code : text) (d : mpy) : mpy :=
  (mpy_respond [chr 4] (mpy_respond code d).1).1.

(** The chunk the device sends back when it is written [str]. *)
Definition dev_answer (str : text) (d : mpy) : list Byte.byte :=
  match (mpy_respond str d).2 with
  | [RChunk v] => v
  | _ => []
  end.

Lemma executeRaw_protocol_witness :
  contains RAW_DONE (lit "OK" ++ [chr 4; chr 4] ++ lit ">") ∧
  ∃ s', standing s' ∧
    executeRaw decode_ascii mpy mpy_respond close_command (connected raw_device)
    = (Done (decode_ascii done_chunk),
       mkWorld s' raw_device [] []
         ([] ++ concat ((fun c => [Wrote c; Slept 10]) <$> pieces 128 close_command)
             ++ [Wrote [chr 4]; Logged (decode_ascii done_chunk)])).
Proof.
  destruct (executeRaw_protocol decode_ascii mpy mpy_respond close_command)
    as (_ & _ & _ & _ & H & Hret).
  split.
  - destruct (H (connected raw_device) (lit "OK" ++ [chr 4; chr 4] ++ lit ">")
                (executeRaw decode_ascii mpy mpy_respond close_command
                   (connected raw_device)).2)
      as (_ & Hc & _).
    + vm_compute. reflexivity.
    + exact Hc.
  - apply (Hret (sess (connected raw_device)) raw_device
             (mpy_respond close_command raw_device).1 raw_device done_chunk []).
    + repeat split.
    + vm_compute. eexists. split; reflexivity.
    + vm_compute. reflexivity.
    + exists (lit "OK" ++ [chr 4]), []. vm_compute. reflexivity.
Defined.

(** The device states an upload of one byte to ['/f'] goes through. *)
Definition upload_states (k : nat) : mpy :=
  let d2 := (mpy_respond [chr 1] (mpy_boot (Dir []) [])).1 in
  let opened := dev_step (open_wb_command (escape_quotes (lit "/f"))) d2 in
  match k with
  | 0 => opened
  | _ => dev_step (write_command [Byte.x41]) opened
  end.

Lemma uploadFile_protocol_witness :
  quiet (out (uploadFile decode_ascii mpy mpy_respond (lit "/f") [Byte.x41]
                (connected (mpy_boot (Dir []) []))).2)
  = [Wrote [chr 3; chr 2]; Wrote [chr 1]]
    ++ exec_trace (open_wb_command (escape_quotes (lit "/f")))
    ++ concat ((fun k =>
                  exec_trace (write_command (chunk_at 512 [Byte.x41] k))
                  ++ [Reported (((k + 1) * 512) `min` 1) 1])
               <$> seq 0 ((1 + 511) / 512))
    ++ exec_trace (lit "f.close()")
    ++ [Wrote [chr 2]] ∧
  ∃ s' o', standing s' ∧
    uploadFile decode_ascii mpy mpy_respond (lit "/f") [Byte.x41]
      (connected (mpy_boot (Dir []) []))
    = (Done tt,
       mkWorld s'
         (mkMpy Friendly [] (mkPy (Dir [(lit "f", File [Byte.x41])]) [] [])
            [lit "f"; lit "w"] None 16) [] [] o').
Proof.
  destruct (uploadFile_protocol decode_ascii mpy mpy_respond (lit "/f") [Byte.x41])
    as (_ & _ & _ & _ & _ & _ & H & Hret).
  split.
  - apply (H (connected (mpy_boot (Dir []) []))).
    + reflexivity.
    + vm_compute. reflexivity.
  - apply (Hret upload_states (mpy_boot (Dir []) []) (mpy_boot (Dir []) [])
             (mpy_respond [chr 1] (mpy_boot (Dir []) [])).1
             (dev_step close_command (upload_states 1))
             (mkMpy Friendly [] (mkPy (Dir [(lit "f", File [Byte.x41])]) [] [])
                [lit "f"; lit "w"] None 16)
             (sess (connected (mpy_boot (Dir []) []))) []).
    + repeat split.
    + exists (dev_answer [chr 3; chr 2] (mpy_boot (Dir []) [])).
      split; [vm_compute; reflexivity|].
      exists crlf, (lit " " ++ friendly_banner). vm_compute. reflexivity.
    + exists (dev_answer [chr 1] (mpy_boot (Dir []) [])).
      split; [vm_compute; reflexivity|].
      exists [], (crlf ++ lit ">"). vm_compute. reflexivity.
    + eexists _, done_chunk. split; [|split].
      * vm_compute. eexists. split; reflexivity.
      * vm_compute. reflexivity.
      * exists (lit "OK" ++ [chr 4]), []. vm_compute. reflexivity.
    + intros k Hk. assert (k = 0) as -> by (vm_compute in Hk; lia).
      eexists _, done_chunk. split; [|split].
      * vm_compute. eexists. split; reflexivity.
      * vm_compute. reflexivity.
      * exists (lit "OK" ++ [chr 4]), []. vm_compute. reflexivity.
    + eexists _, done_chunk. split; [|split].
      * vm_compute. eexists. split; reflexivity.
      * vm_compute. reflexivity.
      * exists (lit "OK" ++ [chr 4]), []. vm_compute. reflexivity.
    + exists (dev_answer [chr 2] (dev_step close_command (upload_states 1))).
      split; [vm_compute; reflexivity|].
      exists (crlf ++ lit "MicroPython; badge with RP2040" ++ crlf), (lit " ").
      vm_compute. reflexivity.
Defined.

(** ** Upload followed by download when the encoder is bound

    What follows shows that the wrapper's side of the round trip is right:
    on a device that binds [b2a_base64] the content comes back, whatever
    its length. *)

(** *** Base64 *)

Lemma list_ind3 {A} (P : list A → Prop) :
  P [] → (∀ a, P [a]) → (∀ a b, P [a; b]) →
  (∀ a b c l, P l → P (a :: b :: c :: l)) →
  ∀ l, P l.
Proof.
  intros H0 H1 H2 H3. fix IH 1.
  intros [|a [|b [|c l]]]; [exact H0 | apply H1 | apply H2 | apply H3, IH].
Qed.

(** The sextets of the encoding, before padding. *)
Fixpoint sextets (bs : list nat) : list nat :=
  match bs with
  | a :: b :: c :: rest =>
      a / 4 :: (a mod 4) * 16 + b / 16 :: (b mod 16) * 4 + c / 64 :: c mod 64
      :: sextets rest
  | [a; b] => [a / 4; (a mod 4) * 16 + b / 16; (b mod 16) * 4]
  | [a] => [a / 4; (a mod 4) * 16]
  | [] => []
  end.

Definition padding (bs : list nat) : text :=
  match length bs mod 3 with
  | 1 => [ "="%char; "="%char ]
  | 2 => [ "="%char ]
  | _ => []
  end.

Lemma b64_encode_sextets (bs : list nat) :
  b64_encode bs = (b64_char <$> sextets bs) ++ padding bs.
Proof.
  induction bs as [| a | a b | a b c l IH] using list_ind3; try done.
  cbn [b64_encode sextets fmap list_fmap]. rewrite IH. unfold padding.
  replace (length (a :: b :: c :: l)) with (3 + length l) by done.
  rewrite <- (Nat.Div0.mod_add (length l) 1 3).
  by replace (length l + 1 * 3) with (3 + length l) by lia.
Qed.

Lemma sextets_bounded (bs : list nat) :
  Forall (fun b => b < 256) bs → Forall (fun s => s < 64) (sextets bs).
Proof.
  assert (Hq : ∀ a, a < 256 → a / 4 < 64)
    by (intros a Ha; apply Nat.Div0.div_lt_upper_bound; lia).
  assert (Hlo : ∀ a b, b < 256 → (a mod 4) * 16 + b / 16 < 64).
  { intros a b Hb. pose proof (Nat.mod_upper_bound a 4).
    assert (b / 16 < 16) by (apply Nat.Div0.div_lt_upper_bound; lia). lia. }
  assert (Hmid : ∀ b c, c < 256 → (b mod 16) * 4 + c / 64 < 64).
  { intros b c Hc. pose proof (Nat.mod_upper_bound b 16).
    assert (c / 64 < 4) by (apply Nat.Div0.div_lt_upper_bound; lia). lia. }
  induction bs as [| a | a b | a b c l IH] using list_ind3; intros Hb; cbn [sextets].
  - constructor.
  - apply Forall_cons in Hb as [Ha _]. cbv beta in Ha.
    pose proof (Nat.mod_upper_bound a 4).
    repeat (first [apply Forall_nil | apply Forall_cons; split]);
      [by apply Hq | lia | done].
  - apply Forall_cons in Hb as [Ha Hb]. apply Forall_cons in Hb as [Hb _].
    cbv beta in Ha, Hb. pose proof (Nat.mod_upper_bound b 16).
    repeat (first [apply Forall_nil | apply Forall_cons; split]);
      [by apply Hq | by apply Hlo | lia | done].
  - apply Forall_cons in Hb as [Ha Hb]. apply Forall_cons in Hb as [Hb Hc].
    apply Forall_cons in Hc as [Hc Hl]. cbv beta in Ha, Hb, Hc.
    pose proof (Nat.mod_upper_bound c 64).
    apply Forall_cons; split; [by apply Hq|].
    apply Forall_cons; split; [by apply Hlo|].
    apply Forall_cons; split; [by apply Hmid|].
    apply Forall_cons; split; [lia | by apply IH].
Qed.

Lemma b64_first (a b : nat) : b < 256 → a / 4 * 4 + ((a mod 4) * 16 + b / 16) / 16 = a.
Proof.
  intros Hb. rewrite Nat.div_add_l by lia.
  rewrite (Nat.div_small (b / 16)) by (apply Nat.Div0.div_lt_upper_bound; lia).
  pose proof (Nat.div_mod_eq a 4). lia.
Qed.

Lemma b64_second (a b c : nat) :
  b < 256 → c < 256 →
  (((a mod 4) * 16 + b / 16) mod 16) * 16 + ((b mod 16) * 4 + c / 64) / 4 = b.
Proof.
  intros Hb Hc.
  rewrite (Nat.add_comm ((a mod 4) * 16)), Nat.Div0.mod_add.
  rewrite (Nat.mod_small (b / 16)) by (apply Nat.Div0.div_lt_upper_bound; lia).
  rewrite Nat.div_add_l by lia.
  rewrite (Nat.div_small (c / 64)) by (apply Nat.Div0.div_lt_upper_bound; lia).
  pose proof (Nat.div_mod_eq b 16). lia.
Qed.

Lemma b64_third (b c : nat) :
  c < 256 → (((b mod 16) * 4 + c / 64) mod 4) * 64 + c mod 64 = c.
Proof.
  intros Hc.
  rewrite (Nat.add_comm ((b mod 16) * 4)), Nat.Div0.mod_add.
  rewrite (Nat.mod_small (c / 64)) by (apply Nat.Div0.div_lt_upper_bound; lia).
  pose proof (Nat.div_mod_eq c 64). lia.
Qed.

Lemma b64_bytes_sextets (bs : list nat) :
  Forall (fun b => b < 256) bs → b64_bytes (sextets bs) = bs.
Proof.
  induction bs as [| a | a b | a b c l IH] using list_ind3; intros Hb.
  - done.
  - cbn [sextets b64_bytes]. f_equal.
    rewrite Nat.div_mul by lia. pose proof (Nat.div_mod_eq a 4). lia.
  - apply Forall_cons in Hb as [Ha Hb]. apply Forall_cons in Hb as [Hb _].
    cbv beta in Ha, Hb.
    cbn [sextets b64_bytes]. f_equal; [by apply b64_first|]. f_equal.
    rewrite (Nat.add_comm ((a mod 4) * 16)), Nat.Div0.mod_add.
    rewrite (Nat.mod_small (b / 16)) by (apply Nat.Div0.div_lt_upper_bound; lia).
    rewrite Nat.div_mul by lia. pose proof (Nat.div_mod_eq b 16). lia.
  - apply Forall_cons in Hb as [Ha Hb]. apply Forall_cons in Hb as [Hb Hc].
    apply Forall_cons in Hc as [Hc Hl]. cbv beta in Ha, Hb, Hc.
    cbn [sextets b64_bytes]. rewrite IH by done.
    f_equal; [by apply b64_first|]. f_equal; [by apply b64_second|].
    f_equal. by apply b64_third.
Qed.

Lemma b64_value_char (n : nat) : n < 64 → b64_value (b64_char n) = Some n.
Proof.
  intros Hn.
  assert (H : forallb (fun n => bool_decide (b64_value (b64_char n) = Some n)) (seq 0 64) = true)
    by (by vm_compute).
  rewrite forallb_forall in H. specialize (H n ltac:(apply in_seq; lia)).
  by apply bool_decide_eq_true in H.
Qed.

Lemma b64_char_plain (n : nat) :
  n < 64 →
  is_ascii_whitespace (b64_char n) = false ∧ b64_char n ≠ "="%char ∧
  b64_char n ≠ chr 10 ∧ b64_char n ≠ chr 4.
Proof.
  intros Hn.
  assert (H : forallb (fun n =>
                 negb (is_ascii_whitespace (b64_char n))
                 && negb (Ascii.eqb (b64_char n) "="%char)
                 && negb (Ascii.eqb (b64_char n) (chr 10))
                 && negb (Ascii.eqb (b64_char n) (chr 4))) (seq 0 64) = true)
    by (by vm_compute).
  rewrite forallb_forall in H. specialize (H n ltac:(apply in_seq; lia)).
  repeat (apply andb_prop in H as [H ?]).
  repeat match goal with
         | X : negb _ = true |- _ => apply negb_true_iff in X
         | X : Ascii.eqb _ _ = false |- _ => apply Ascii.eqb_neq in X
         end.
  done.
Qed.

Lemma length_sextets_mod (bs : list nat) :
  length (sextets bs) mod 4 = match length bs mod 3 with 0 => 0 | 1 => 2 | _ => 3 end.
Proof.
  induction bs as [| a | a b | a b c l IH] using list_ind3; try done.
  cbn [sextets length].
  replace (S (S (S (S (length (sextets l)))))) with (length (sextets l) + 1 * 4) by lia.
  replace (S (S (S (length l)))) with (length l + 1 * 3) by lia.
  by rewrite !Nat.Div0.mod_add.
Qed.

(** Unpadded base64 text: only characters of the alphabet. *)
Definition b64_text (s : text) : Prop :=
  Forall (fun c => is_ascii_whitespace c = false ∧ c ≠ "="%char ∧ c ≠ chr 10 ∧ c ≠ chr 4) s.

Lemma b64_text_chars (bs : list nat) :
  Forall (fun b => b < 256) bs → b64_text (b64_char <$> sextets bs).
Proof.
  intros Hb. apply Forall_fmap. eapply Forall_impl; [by apply sextets_bounded|].
  intros n Hn. by apply b64_char_plain.
Qed.

Lemma drop_equals_plain (s : text) : b64_text s → drop_equals s = s.
Proof.
  intros Hs. unfold drop_equals.
  destruct (reverse s) as [|c r] eqn:Hr; [done|].
  assert (Hc : c ∈ s) by (apply elem_of_reverse; rewrite Hr; by left).
  unfold b64_text in Hs. rewrite Forall_forall in Hs.
  destruct (Hs c Hc) as (_ & Hne & _).
  by destruct (Ascii.eqb_spec c "="%char).
Qed.

Lemma drop_equals_one (s : text) :
  b64_text s → drop_equals (s ++ ["="%char]) = s.
Proof.
  intros Hs. unfold drop_equals. rewrite reverse_app, reverse_singleton.
  cbn [app]. rewrite Ascii.eqb_refl.
  destruct (reverse s) as [|c r] eqn:Hr.
  - apply (f_equal reverse) in Hr. by rewrite reverse_involutive in Hr.
  - assert (Hc : c ∈ s) by (apply elem_of_reverse; rewrite Hr; by left).
    unfold b64_text in Hs. rewrite Forall_forall in Hs.
    destruct (Hs c Hc) as (_ & Hne & _).
    destruct (Ascii.eqb_spec c "="%char); [done|].
    by rewrite <- Hr, reverse_involutive.
Qed.

Lemma drop_equals_two (s : text) :
  drop_equals (s ++ ["="%char; "="%char]) = s.
Proof.
  unfold drop_equals. rewrite reverse_app.
  change (reverse ["="%char; "="%char]) with ["="%char; "="%char].
  cbn [app]. rewrite !Ascii.eqb_refl. apply reverse_involutive.
Qed.

Lemma strip_padding_padded (s : text) (bs : list nat) :
  b64_text s →
  length s mod 4 = match length bs mod 3 with 0 => 0 | 1 => 2 | _ => 3 end →
  strip_padding (s ++ padding bs) = s.
Proof.
  intros Hs Hlen. unfold strip_padding, padding in *.
  destruct (length bs mod 3) as [|[|[|n]]] eqn:Hmod.
  - rewrite app_nil_r, Hlen. change (0 =? 0) with true. cbv iota.
    by apply drop_equals_plain.
  - assert (length (s ++ ["="%char; "="%char]) mod 4 = 0) as ->.
    { rewrite length_app, Nat.Div0.add_mod, Hlen. done. }
    apply drop_equals_two.
  - assert (length (s ++ ["="%char]) mod 4 = 0) as ->.
    { rewrite length_app, Nat.Div0.add_mod, Hlen. done. }
    by apply drop_equals_one.
  - pose proof (Nat.mod_upper_bound (length bs) 3). lia.
Qed.

Lemma cooked_cons (c : ascii) (s : text) :
  cooked (c :: s)
  = (if Ascii.eqb c (chr 10) then [chr 13; chr 10] else [c]) ++ cooked s.
Proof. done. Qed.

Lemma cooked_plain (s : text) : Forall (fun c => c ≠ chr 10) s → cooked s = s.
Proof.
  induction 1 as [|c s Hc _ IH]; [done|]. rewrite cooked_cons, IH.
  by destruct (Ascii.eqb_spec c (chr 10)).
Qed.

Lemma cooked_app (s t : text) : cooked (s ++ t) = cooked s ++ cooked t.
Proof. unfold cooked. by rewrite fmap_app, concat_app. Qed.

(** The text of an encoded file as it arrives: no [0x04], and some
    characters of the alphabet, some padding, CR LF. *)
Lemma cooked_b2a_base64 (data : list Byte.byte) :
  ∃ s, cooked (b2a_base64 data)
       = s ++ padding (Byte.to_nat <$> data) ++ [chr 13; chr 10] ∧
       s = b64_char <$> sextets (Byte.to_nat <$> data) ∧
       b64_text s.
Proof.
  assert (Hb : Forall (fun b => b < 256) (Byte.to_nat <$> data)).
  { apply Forall_fmap, Forall_forall. intros b _. simpl.
    pose proof (Byte.to_nat_bounded b). lia. }
  exists (b64_char <$> sextets (Byte.to_nat <$> data)).
  split; [|split; [done | by apply b64_text_chars]].
  unfold b2a_base64. rewrite cooked_app, b64_encode_sextets.
  rewrite cooked_plain.
  - by rewrite <- app_assoc.
  - apply Forall_app. split.
    + eapply Forall_impl; [by apply b64_text_chars|]. by intros c (_ & _ & ? & _).
    + unfold padding. by repeat case_match; repeat constructor.
Qed.

Lemma filter_all {A} (P : A → Prop) `{∀ x, Decision (P x)} (l : list A) :
  Forall P l → filter P l = l.
Proof.
  induction 1 as [|x l Hx _ IH]; [done|].
  by rewrite filter_cons_True, IH.
Qed.

(** [atob] undoes the encoding the device prints. *)
Lemma atob_b2a_base64 (data : list Byte.byte) :
  atob (cooked (b2a_base64 data)) = Some (ascii_of_byte <$> data).
Proof.
  destruct (cooked_b2a_base64 data) as (s & -> & Hs & Htext).
  assert (Hb : Forall (fun b => b < 256) (Byte.to_nat <$> data)).
  { apply Forall_fmap, Forall_forall. intros b _. simpl.
    pose proof (Byte.to_nat_bounded b). lia. }
  unfold atob. cbv zeta.
  assert (Hfilter : filter (fun c => is_ascii_whitespace c = false)
                      (s ++ padding (Byte.to_nat <$> data) ++ [chr 13; chr 10])
                    = s ++ padding (Byte.to_nat <$> data)).
  { rewrite !filter_app.
    rewrite (filter_all _ s); last first.
    { eapply Forall_impl; [exact Htext|]. by intros c (? & _). }
    rewrite (filter_all _ (padding _)); last first.
    { unfold padding. by repeat case_match; repeat constructor. }
    by rewrite app_nil_r. }
  rewrite Hfilter.
  assert (Hlen : length s mod 4
                 = match length (Byte.to_nat <$> data) mod 3 with
                   | 0 => 0 | 1 => 2 | _ => 3 end).
  { subst s. rewrite length_fmap. apply length_sextets_mod. }
  rewrite (strip_padding_padded s _ Htext Hlen).
  assert (length s mod 4 ≠ 1) by (rewrite Hlen; by repeat case_match).
  destruct (Nat.eqb_spec (length s mod 4) 1) as [|_]; [done|].
  subst s. rewrite (mapM_fmap_Forall_Some b64_value b64_char); last first.
  { eapply Forall_impl; [by apply sextets_bounded|].
    intros k Hk. by apply b64_value_char. }
  rewrite b64_bytes_sextets by done. f_equal.
  rewrite <- list_fmap_compose. apply list_fmap_ext. intros i b _. simpl.
  symmetry. apply ascii_of_byte_via_nat.
Qed.

(** *** Byte lists in decimal *)

Definition is_digit (c : ascii) : bool :=
  (48 <=? nat_of_ascii c) && (nat_of_ascii c <=? 57).

(** A character the raw mode of the device takes as text. *)
Definition plain_char (c : ascii) : Prop :=
  ¬ (1 ≤ nat_of_ascii c ≤ 4).

Lemma decimal_small (n : nat) :
  n < 256 →
  parse_decimal (decimal n) = Some n ∧
  forallb is_digit (decimal n) = true ∧
  decimal n ≠ [].
Proof.
  intros Hn.
  assert (H : forallb (fun n =>
                 bool_decide (parse_decimal (decimal n) = Some n)
                 && forallb is_digit (decimal n)
                 && negb (bool_decide (decimal n = []))) (seq 0 256) = true)
    by (by vm_compute).
  rewrite forallb_forall in H. specialize (H n ltac:(apply in_seq; lia)).
  apply andb_prop in H as [H H3]. apply andb_prop in H as [H1 H2].
  apply bool_decide_eq_true in H1. apply negb_true_iff, bool_decide_eq_false in H3.
  done.
Qed.

Lemma is_digit_plain (c : ascii) :
  is_digit c = true → c ≠ ","%char ∧ plain_char c.
Proof.
  unfold is_digit, plain_char. intros [H1 H2]%andb_prop.
  apply Nat.leb_le in H1, H2. split; [|lia].
  intros ->. vm_compute in H1. lia.
Qed.

Lemma digits_no_comma (s : text) : forallb is_digit s = true → ","%char ∉ s.
Proof.
  rewrite forallb_forall. intros H Hin%list_elem_of_In.
  by destruct (is_digit_plain _ (H _ Hin)).
Qed.

Lemma split_on_join (sep : ascii) (items : list text) :
  items ≠ [] → Forall (fun x => sep ∉ x) items →
  split_on sep (join [sep] items) = items.
Proof.
  intros Hne Hall. induction Hall as [|x l Hx Hl IH]; [done|].
  destruct l as [|y l].
  - by apply split_on_plain.
  - change (join [sep] (x :: y :: l)) with (x ++ sep :: join [sep] (y :: l)).
    rewrite split_on_app, split_on_plain, IH by done. done.
Qed.

Lemma join_nonempty (sep : text) (items : list text) :
  items ≠ [] → Forall (fun x => x ≠ []) items → join sep items ≠ [].
Proof.
  intros Hne Hall. destruct Hall as [|x l Hx Hl]; [done|].
  destruct l; simpl; [done|]. by destruct x.
Qed.

(** The device reads back the bytes that the wrapper wrote in decimal. *)
Lemma parse_byte_list_toString (c : list Byte.byte) :
  parse_byte_list (uint8array_toString c) = Some c.
Proof.
  destruct c as [|b c]; [done|].
  unfold parse_byte_list, uint8array_toString.
  set (items := (fun b => decimal (Byte.to_nat b)) <$> (b :: c)).
  assert (Hb : ∀ b, Byte.to_nat b < 256)
    by (intros b'; pose proof (Byte.to_nat_bounded b'); lia).
  assert (Hjoin : join (lit ",") items ≠ []).
  { apply join_nonempty; [done|]. apply Forall_fmap, Forall_forall.
    intros b' _. apply (decimal_small _ (Hb b')). }
  destruct (join (lit ",") items) as [|x s] eqn:Hj; [done|]. rewrite <- Hj.
  change (lit ",") with [","%char]. rewrite split_on_join; [|done|].
  - apply mapM_fmap_Some. intros b'.
    destruct (decimal_small _ (Hb b')) as (-> & _). simpl.
    apply Byte.of_to_nat.
  - apply Forall_fmap, Forall_forall. intros b' _.
    apply digits_no_comma, (decimal_small _ (Hb b')).
Qed.

Lemma uint8array_toString_plain (c : list Byte.byte) :
  Forall plain_char (uint8array_toString c).
Proof.
  assert (Hb : ∀ b, Forall plain_char (decimal (Byte.to_nat b))).
  { intros b. pose proof (Byte.to_nat_bounded b).
    destruct (decimal_small (Byte.to_nat b)) as (_ & Hd & _); [lia|].
    rewrite forallb_forall in Hd. apply Forall_forall.
    intros x Hx%list_elem_of_In. by apply is_digit_plain, Hd. }
  unfold uint8array_toString.
  induction c as [|b [|b' c] IH]; [constructor | apply Hb |].
  change (Forall plain_char
            (decimal (Byte.to_nat b) ++ lit ","
             ++ join (lit ",") ((fun b => decimal (Byte.to_nat b)) <$> b' :: c))).
  apply Forall_app; split; [apply Hb|].
  apply Forall_app; split; [|apply IH].
  apply Forall_singleton. unfold plain_char. vm_compute. lia.
Qed.

(** *** Positions in the captured text *)

Lemma indexOf_from_here (s needle : text) (pos : Z) :
  startsWith s needle = true → indexOf_from s needle pos = pos.
Proof. intros H. destruct s; simpl; by rewrite H. Qed.

Lemma indexOf_prefix (m r : text) : indexOf (m ++ r) m = 0%Z.
Proof. apply indexOf_from_here, startsWith_spec. by exists r. Qed.

Lemma indexOf_from_char (c : ascii) (pre post : text) (pos : Z) :
  c ∉ pre →
  indexOf_from (pre ++ c :: post) [c] pos = (pos + Z.of_nat (length pre))%Z.
Proof.
  revert pos. induction pre as [|x pre IH]; intros pos.
  - intros _. simpl. rewrite Ascii.eqb_refl. lia.
  - intros [Hx Hpre]%not_elem_of_cons. simpl.
    destruct (Ascii.eqb_spec c x); [congruence|]. rewrite IH by done. lia.
Qed.

(** *** The device in raw mode *)

Lemma decode_ascii_bytes (t : text) : decode_ascii (byte_of_ascii <$> t) = t.
Proof.
  unfold decode_ascii. rewrite <- list_fmap_compose.
  rewrite <- (list_fmap_id t) at 2. apply list_fmap_ext.
  intros i c _. apply ascii_of_byte_of_ascii.
Qed.

Lemma receive_plain (c : ascii) (inp : text) (p : py_state) (g : list text)
    (h : option (list text)) (l : nat) :
  plain_char c →
  receive (mkMpy RawMode inp p g h l) c = (mkMpy RawMode (inp ++ [c]) p g h l, []).
Proof.
  unfold plain_char, receive. intros H. cbn [mode].
  destruct (Nat.eqb_spec (nat_of_ascii c) 1); [lia|].
  destruct (Nat.eqb_spec (nat_of_ascii c) 2); [lia|].
  destruct (Nat.eqb_spec (nat_of_ascii c) 3); [lia|].
  destruct (Nat.eqb_spec (nat_of_ascii c) 4); [lia|]. done.
Qed.

Lemma receive_all_plain (str : text) (p : py_state) (g : list text)
    (h : option (list text)) (l : nat) :
  Forall plain_char str →
  ∀ (inp acc : text),
  foldl (fun acc c => let '(d', o) := receive acc.1 c in (d', acc.2 ++ o))
    (mkMpy RawMode inp p g h l, acc) str
  = (mkMpy RawMode (inp ++ str) p g h l, acc).
Proof.
  induction 1 as [|c str Hc _ IH]; intros inp acc; simpl.
  - by rewrite app_nil_r.
  - rewrite receive_plain by done. rewrite app_nil_r, IH.
    by rewrite <- app_assoc.
Qed.

(** Text without control bytes is taken in silence. *)
Lemma mpy_respond_plain (str inp : text) (p : py_state) (g : list text)
    (h : option (list text)) (l : nat) :
  Forall plain_char str →
  mpy_respond str (mkMpy RawMode inp p g h l)
  = (mkMpy RawMode (inp ++ str) p g h l, []).
Proof. intros H. unfold mpy_respond. by rewrite receive_all_plain. Qed.

Lemma absorbs_plain (cs : list text) (p : py_state) (g : list text)
    (h : option (list text)) (l : nat) :
  Forall (Forall plain_char) cs →
  ∀ inp, absorbs mpy mpy_respond cs (mkMpy RawMode inp p g h l)
           (mkMpy RawMode (inp ++ concat cs) p g h l).
Proof.
  induction 1 as [|c cs Hc _ IH]; intros inp; simpl.
  - by rewrite app_nil_r.
  - eexists. split; [by apply mpy_respond_plain|].
    rewrite app_assoc. apply IH.
Qed.

Lemma absorbs_code (code : text) (p : py_state) (g : list text)
    (h : option (list text)) (l : nat) :
  Forall plain_char code →
  absorbs mpy mpy_respond (pieces 128 code) (mkMpy RawMode [] p g h l)
    (mkMpy RawMode code p g h l).
Proof.
  intros H.
  pose proof (absorbs_plain (pieces 128 code) p g h l) as Habs.
  rewrite concat_pieces in Habs by lia. apply Habs.
  unfold pieces. apply Forall_fmap, Forall_forall. intros k _. simpl.
  unfold chunk_at, slice. by apply Forall_take, Forall_drop.
Qed.

(** What follows the output of a command. *)
Definition error_text (e : option exception) : text :=
  match e with Some e => exception_text e | None => [] end.

(** The answer of raw mode to a command. *)
Definition raw_answer (stdout : text) (e : option exception) : text :=
  lit "OK" ++ stdout ++ [chr 4] ++ error_text e ++ [chr 4] ++ lit ">".

Lemma mpy_respond_run (code : text) (p : py_state) (g : list text)
    (h : option (list text)) (l : nat) (d' : mpy) (stdout : text)
    (e : option exception) :
  code ≠ [] →
  exec code (mkMpy RawMode [] p g h l) = (d', stdout, e) →
  mpy_respond [chr 4] (mkMpy RawMode code p g h l)
  = (d', [RChunk (byte_of_ascii <$> raw_answer stdout e)]).
Proof.
  intros Hne Hexec. destruct code as [|c code]; [done|].
  unfold mpy_respond. cbn [foldl fst snd]. unfold receive. cbn [mode input].
  change (nat_of_ascii (chr 4)) with 4. cbn [Nat.eqb].
  unfold with_mode. cbn [py globals handle recursion_limit]. rewrite Hexec.
  by destruct e.
Qed.

Lemma raw_answer_done (stdout : text) (e : option exception) :
  contains [chr 4; ">"%char] (raw_answer stdout e).
Proof.
  exists (lit "OK" ++ stdout ++ [chr 4] ++ error_text e), [].
  unfold raw_answer. by rewrite <- !app_assoc.
Qed.

(** On the device, [executeRaw] of a non-empty command without control
    bytes returns the answer of raw mode to the command. *)
Lemma mpy_executeRaw (code : text) (s : session) (p : py_state) (g : list text)
    (h : option (list text)) (l : nat) (o : list action) (d' : mpy)
    (stdout : text) (e : option exception) :
  standing s → code ≠ [] → Forall plain_char code →
  exec code (mkMpy RawMode [] p g h l) = (d', stdout, e) →
  ∃ s' o', standing s' ∧
    executeRaw decode_ascii mpy mpy_respond code
      (mkWorld s (mkMpy RawMode [] p g h l) [] [] o)
    = (Done (raw_answer stdout e), mkWorld s' d' [] [] o').
Proof.
  intros Hs Hne Hplain Hexec.
  destruct (executeRaw_returns decode_ascii mpy mpy_respond code s
              (mkMpy RawMode [] p g h l) (mkMpy RawMode code p g h l) d'
              (byte_of_ascii <$> raw_answer stdout e) o Hs)
    as (s' & Hs' & Hrun).
  - by apply absorbs_code.
  - by apply mpy_respond_run.
  - rewrite decode_ascii_bytes. apply raw_answer_done.
  - rewrite decode_ascii_bytes in Hrun. eauto.
Qed.

Lemma mpy_getPrompt (s : session) (inp : text) (p : py_state) (g : list text)
    (h : option (list text)) (l : nat) (o : list action) :
  standing s →
  ∃ s' o', standing s' ∧
    getPrompt decode_ascii mpy mpy_respond
      (mkWorld s (mkMpy Friendly inp p g h l) [] [] o)
    = (Done tt, mkWorld s' (mkMpy Friendly inp p g h l) [] [] o').
Proof.
  intros Hs.
  destruct (getPrompt_returns decode_ascii mpy mpy_respond s
              (mkMpy Friendly inp p g h l) (mkMpy Friendly inp p g h l)
              (byte_of_ascii <$> (crlf ++ lit ">>> " ++ friendly_banner)) o Hs)
    as (s' & Hs' & Hrun); [done| |eauto].
  rewrite decode_ascii_bytes. by exists crlf, (lit " " ++ friendly_banner).
Qed.

Lemma mpy_enterRawRepl (s : session) (inp : text) (p : py_state) (g : list text)
    (h : option (list text)) (l : nat) (o : list action) :
  standing s →
  ∃ s' o', standing s' ∧
    enterRawRepl decode_ascii mpy mpy_respond
      (mkWorld s (mkMpy Friendly inp p g h l) [] [] o)
    = (Done tt, mkWorld s' (mkMpy RawMode [] p g h l) [] [] o').
Proof.
  intros Hs.
  destruct (command_returns decode_ascii mpy mpy_respond [chr 1]
              (lit "raw REPL; CTRL-B to exit") s
              (mkMpy Friendly inp p g h l) (mkMpy RawMode [] p g h l)
              (byte_of_ascii <$> raw_banner) o Hs)
    as (s' & Hs' & Hrun); [done| |eauto].
  rewrite decode_ascii_bytes. by exists [], (crlf ++ lit ">").
Qed.

Lemma mpy_exitRawRepl (s : session) (inp : text) (p : py_state) (g : list text)
    (h : option (list text)) (l : nat) (o : list action) :
  standing s →
  ∃ s' o', standing s' ∧
    exitRawRepl decode_ascii mpy mpy_respond
      (mkWorld s (mkMpy RawMode inp p g h l) [] [] o)
    = (Done tt, mkWorld s' (mkMpy Friendly [] p g h l) [] [] o').
Proof.
  intros Hs.
  destruct (command_returns decode_ascii mpy mpy_respond [chr 2] (lit ">>>") s
              (mkMpy RawMode inp p g h l) (mkMpy Friendly [] p g h l)
              (byte_of_ascii <$> friendly_banner) o Hs)
    as (s' & Hs' & Hrun); [done| |eauto].
  rewrite decode_ascii_bytes.
  by exists (crlf ++ lit "MicroPython; badge with RP2040" ++ crlf), (lit " ").
Qed.

(** *** Files written and read back *)

Lemma lookup_entry_snoc (name : text) (c : node) (es : list (text * node)) :
  lookup_entry name es = None → lookup_entry name (es ++ [(name, c)]) = Some c.
Proof.
  induction es as [|[n x] es IH]; simpl; [by rewrite text_eqb_refl|].
  destruct (text_eqb n name); [done | apply IH].
Qed.

Lemma replace_entry_snoc (name : text) (c c' : node) (es : list (text * node)) :
  lookup_entry name es = None →
  replace_entry name c' (es ++ [(name, c)]) = es ++ [(name, c')].
Proof.
  induction es as [|[n x] es IH]; simpl; [by rewrite text_eqb_refl|].
  destruct (text_eqb n name); [done|]. intros H. by rewrite IH.
Qed.

Lemma write_file_step (es : list (text * node)) (name : text) (segs : list text)
    (data : list Byte.byte) :
  write_file (Dir es) (name :: segs) data
  = match segs with
    | [] =>
        match lookup_entry name es with
        | Some (File _) => Some (Dir (replace_entry name (File data) es))
        | Some (Dir _) => None
        | None => Some (Dir (es ++ [(name, File data)]))
        end
    | _ :: _ =>
        match lookup_entry name es with
        | Some c =>
            match write_file c segs data with
            | Some c' => Some (Dir (replace_entry name c' es))
            | None => None
            end
        | None => None
        end
    end.
Proof. by destruct segs. Qed.

Lemma write_file_root (n : node) (data : list Byte.byte) : write_file n [] data = None.
Proof. by destruct n. Qed.

Lemma write_file_File (old : list Byte.byte) (segs : list text) (data : list Byte.byte) :
  write_file (File old) segs data = None.
Proof. by destruct segs. Qed.

(** A file that was written holds what was written. *)
Lemma read_write_file (segs : list text) :
  ∀ (n n' : node) (data : list Byte.byte),
  write_file n segs data = Some n' → read_file n' segs = Some data.
Proof.
  unfold read_file.
  induction segs as [|name segs IH]; intros n n' data H.
  { by rewrite write_file_root in H. }
  destruct n as [old|es]; [by rewrite write_file_File in H|].
  rewrite write_file_step in H. destruct segs as [|name' segs].
  - destruct (lookup_entry name es) as [[old|es']|] eqn:Hl; simplify_eq; simpl.
    + by rewrite (lookup_replace_entry _ _ _ _ Hl).
    + by rewrite lookup_entry_snoc.
  - destruct (lookup_entry name es) as [c|] eqn:Hl; [|done].
    destruct (write_file c (name' :: segs) data) as [c'|] eqn:Hw; [|done].
    simplify_eq. specialize (IH _ _ _ Hw).
    change (resolve (Dir ?es) (name :: ?r))
      with (match lookup_entry name es with
            | Some c => resolve c r
            | None => None
            end).
    by rewrite (lookup_replace_entry _ _ _ _ Hl).
Qed.

(** Writing a file again replaces what the first write stored. *)
Lemma write_write_file (segs : list text) :
  ∀ (n n1 : node) (d1 d2 : list Byte.byte),
  write_file n segs d1 = Some n1 →
  ∃ n2, write_file n segs d2 = Some n2 ∧ write_file n1 segs d2 = Some n2.
Proof.
  induction segs as [|name segs IH]; intros n n1 d1 d2 H.
  { by rewrite write_file_root in H. }
  destruct n as [old|es]; [by rewrite write_file_File in H|].
  rewrite write_file_step in H. rewrite !write_file_step.
  destruct segs as [|name' segs].
  - destruct (lookup_entry name es) as [[old|es']|] eqn:Hl; simplify_eq.
    + eexists. split; [done|]. rewrite write_file_step.
      rewrite (lookup_replace_entry _ _ _ _ Hl).
      by rewrite (replace_replace_entry _ _ _ _ _ Hl).
    + eexists. split; [done|]. rewrite write_file_step.
      rewrite lookup_entry_snoc by done. by rewrite replace_entry_snoc.
  - destruct (lookup_entry name es) as [c|] eqn:Hl; [|done].
    destruct (write_file c (name' :: segs) d1) as [c1|] eqn:Hw; [|done].
    simplify_eq. destruct (IH _ _ _ d2 Hw) as (c2 & -> & Hc2).
    eexists. split; [done|]. rewrite write_file_step.
    rewrite (lookup_replace_entry _ _ _ _ Hl), Hc2.
    by rewrite (replace_replace_entry _ _ _ _ _ Hl).
Qed.

(** *** The commands of the upload and of the download on the device *)

Lemma strip_prefix_app (pre s : text) : strip_prefix pre (pre ++ s) = Some s.
Proof. induction pre; simpl; [done|]. by rewrite Ascii.eqb_refl. Qed.

Lemma escape_quotes_plain (path : text) : squote ∉ path → escape_quotes path = path.
Proof.
  induction path as [|c path IH]; [done|].
  intros [Hc Hp]%not_elem_of_cons. rewrite escape_quotes_cons, IH by done.
  by destruct (Ascii.eqb_spec c squote).
Qed.

Lemma escape_quotes_chars (path : text) :
  Forall plain_char path → Forall plain_char (escape_quotes path).
Proof.
  induction 1 as [|c path Hc _ IH]; [constructor|].
  rewrite escape_quotes_cons. apply Forall_app. split; [|done].
  destruct (Ascii.eqb_spec c squote).
  - repeat constructor; unfold plain_char; vm_compute; lia.
  - by constructor.
Qed.

(** Two commands that differ in their first two characters. *)
Ltac differ :=
  apply text_eqb_ne;
  let E := fresh in
  intros E; apply (f_equal (take 2)) in E; vm_compute in E; congruence.

Lemma exec_open (path : text) (root n : node) (da : list file_entry)
    (cl : list os_call) (g : list text) (h : option (list text)) (l : nat) :
  plain_path path →
  write_file root (segments path) [] = Some n →
  exec (open_wb_command (escape_quotes path))
    (mkMpy RawMode [] (mkPy root da cl) g h l)
  = (mkMpy RawMode [] (mkPy n da cl) (lit "f" :: lit "w" :: g)
       (Some (segments path)) l, [], None).
Proof.
  intros Hp Hw.
  assert (Hcode : open_wb_command (escape_quotes path)
                  = lit "f=open('" ++ (escape_quotes path ++ squote :: open_rest))
    by done.
  assert (H1 : text_eqb (open_wb_command (escape_quotes path)) HELPER_CODE = false)
    by differ.
  assert (H2 : text_eqb (open_wb_command (escape_quotes path)) close_command = false)
    by differ.
  unfold exec. rewrite H1, H2, Hcode, strip_prefix_app.
  rewrite (proj1 (uploadFile_path_escaped path open_rest Hp)).
  rewrite text_eqb_refl. cbn [py fs]. by rewrite Hw.
Qed.

Lemma exec_write (c old : list Byte.byte) (segs : list text) (root n : node)
    (da : list file_entry) (cl : list os_call) (g : list text) (l : nat) :
  read_file root segs = Some old →
  write_file root segs (old ++ c) = Some n →
  exec (write_command c)
    (mkMpy RawMode [] (mkPy root da cl) (lit "f" :: lit "w" :: g) (Some segs) l)
  = (mkMpy RawMode [] (mkPy n da cl) (lit "f" :: lit "w" :: g) (Some segs) l,
     [], None).
Proof.
  intros Hr Hw.
  assert (H1 : text_eqb (write_command c) HELPER_CODE = false) by differ.
  assert (H2 : text_eqb (write_command c) close_command = false) by differ.
  assert (H3 : strip_prefix (lit "f=open('") (write_command c) = None) by done.
  assert (H4 : strip_prefix (lit "w(bytes([") (write_command c)
               = Some (uint8array_toString c ++ lit "]))"))
    by apply strip_prefix_app.
  unfold exec. rewrite H1, H2, H3, H4.
  rewrite length_app. change (length (lit "]))")) with 3.
  replace (length (uint8array_toString c) + 3 - 3)
    with (length (uint8array_toString c)) by lia.
  rewrite drop_app_length, take_app_length, text_eqb_refl. cbn [negb].
  rewrite parse_byte_list_toString.
  assert (Hb : bound (lit "w") (mkMpy RawMode [] (mkPy root da cl)
                                  (lit "f" :: lit "w" :: g) (Some segs) l) = true).
  { apply bool_decide_eq_true. cbn [globals]. right. left. }
  rewrite Hb. cbn [negb handle py fs]. by rewrite Hr, Hw.
Qed.

Lemma exec_close (p : py_state) (g : list text) (h : option (list text)) (l : nat) :
  exec close_command (mkMpy RawMode [] p (lit "f" :: lit "w" :: g) h l)
  = (mkMpy RawMode [] p (lit "f" :: lit "w" :: g) None l, [], None).
Proof.
  assert (H1 : text_eqb close_command HELPER_CODE = false) by differ.
  unfold exec. rewrite H1, text_eqb_refl.
  assert (Hb : bound (lit "f") (mkMpy RawMode [] p (lit "f" :: lit "w" :: g) h l) = true).
  { apply bool_decide_eq_true. cbn [globals]. left. }
  by rewrite Hb.
Qed.

Lemma exec_helper (root : node) (da : list file_entry) (cl : list os_call)
    (g : list text) (h : option (list text)) (l : nat) :
  exec HELPER_CODE (mkMpy RawMode [] (mkPy root da cl) g h l)
  = (mkMpy RawMode [] (mkPy root [] cl) (helper_names ++ g) h l, [], None).
Proof. unfold exec. by rewrite text_eqb_refl. Qed.

Lemma exec_download (path : text) (data : list Byte.byte) (p : py_state)
    (g : list text) (h : option (list text)) (l : nat) :
  plain_path path → squote ∉ path →
  read_file (fs p) (segments path) = Some data →
  lit "b2a_base64" ∈ g →
  exec (downloadFile_command path) (mkMpy RawMode [] p g h l)
  = (mkMpy RawMode [] p (lit "b" :: lit "i" :: lit "f" :: g) h l,
     cooked (b2a_base64 data), None).
Proof.
  intros Hp Hq Hr Hg.
  assert (Hcode : downloadFile_command path
                  = lit "with open('" ++ (path ++ squote :: download_rest))
    by done.
  assert (H1 : text_eqb (downloadFile_command path) HELPER_CODE = false) by differ.
  assert (H2 : text_eqb (downloadFile_command path) close_command = false) by differ.
  assert (H3 : strip_prefix (lit "f=open('") (downloadFile_command path) = None)
    by done.
  assert (H4 : strip_prefix (lit "w(bytes([") (downloadFile_command path) = None)
    by done.
  unfold exec. rewrite H1, H2, H3, H4, Hcode, strip_prefix_app.
  pose proof (proj1 (uploadFile_path_escaped path download_rest Hp)) as Hsq.
  rewrite escape_quotes_plain in Hsq by done. rewrite Hsq.
  rewrite text_eqb_refl. cbn [py]. rewrite Hr.
  assert (Hb : bound (lit "b2a_base64")
                 (bind_names [lit "f"] (mkMpy RawMode [] p g h l)) = true).
  { apply bool_decide_eq_true. cbn [globals bind_names]. by right. }
  cbv zeta. by rewrite Hb.
Qed.

(** *** The upload on the device *)

Definition plain_charb (c : ascii) : bool :=
  negb ((1 <=? nat_of_ascii c) && (nat_of_ascii c <=? 4)).

Lemma plain_closed (t : text) : forallb plain_charb t = true → Forall plain_char t.
Proof.
  rewrite forallb_forall. intros H. apply Forall_forall.
  intros c Hc%list_elem_of_In. specialize (H c Hc).
  unfold plain_charb, plain_char in *.
  apply negb_true_iff, andb_false_iff in H as [H|H]; apply Nat.leb_gt in H; lia.
Qed.

Lemma open_wb_command_plain (path : text) :
  Forall plain_char path →
  Forall plain_char (open_wb_command (escape_quotes path)) ∧
  open_wb_command (escape_quotes path) ≠ [].
Proof.
  intros H. split; [|done]. unfold open_wb_command.
  repeat (apply Forall_app; split);
    first [by apply escape_quotes_chars | by apply plain_closed].
Qed.

Lemma write_command_plain (c : list Byte.byte) :
  Forall plain_char (write_command c) ∧ write_command c ≠ [].
Proof.
  split; [|done]. unfold write_command.
  repeat (apply Forall_app; split);
    first [apply uint8array_toString_plain | by apply plain_closed].
Qed.

Lemma downloadFile_command_plain (path : text) :
  Forall plain_char path →
  Forall plain_char (downloadFile_command path) ∧ downloadFile_command path ≠ [].
Proof.
  intros H. split; [|done]. unfold downloadFile_command.
  repeat (apply Forall_app; split); first [done | by apply plain_closed].
Qed.

(** The content of the first [k] chunks followed by the next chunk. *)
Lemma take_chunk_at {A} (s : list A) (k : nat) :
  take (k * 512) s ++ chunk_at 512 s k = take (S k * 512) s.
Proof.
  unfold chunk_at, slice.
  replace (k * 512 + 512 - k * 512) with 512 by lia.
  rewrite take_take_drop. f_equal. lia.
Qed.

(** One step of the upload loop on the device: the chunk is appended to
    the file. *)
Lemma mpy_upload_step (content : list Byte.byte) (k : nat) (segs : list text)
    (root nk : node) (da : list file_entry) (cl : list os_call) (g : list text)
    (l : nat) (s : session) (o : list action) :
  standing s →
  write_file root segs (take (k * 512) content) = Some nk →
  ∃ s' o' n',
    standing s' ∧
    write_file root segs (take (S k * 512) content) = Some n' ∧
    upload_step decode_ascii mpy mpy_respond content k
      (mkWorld s (mkMpy RawMode [] (mkPy nk da cl) (lit "f" :: lit "w" :: g)
                    (Some segs) l) [] [] o)
    = (Done tt,
       mkWorld s' (mkMpy RawMode [] (mkPy n' da cl) (lit "f" :: lit "w" :: g)
                     (Some segs) l) [] [] o').
Proof.
  intros Hs Hnk.
  destruct (write_write_file segs root nk _
              (take (k * 512) content ++ chunk_at 512 content k) Hnk)
    as (n' & Hn' & Hw).
  destruct (write_command_plain (chunk_at 512 content k)) as [Hplain Hne].
  destruct (mpy_executeRaw _ s _ _ _ _ o _ _ _ Hs Hne Hplain
              (exec_write _ _ segs nk n' da cl g l
                 (read_write_file _ _ _ _ Hnk) Hw))
    as (s' & o' & Hs' & Hrun).
  rewrite take_chunk_at in Hn'.
  eexists s', _, n'. split; [done|]. split; [done|].
  unfold upload_step. unfold bind. rewrite Hrun. reflexivity.
Qed.

(** [uploadFile] returns, and the file holds the content. *)
Lemma mpy_uploadFile (path : text) (content : list Byte.byte) (root n0 : node)
    (da : list file_entry) (cl : list os_call) (g : list text)
    (h : option (list text)) (l : nat) (inp : text) (s : session)
    (o : list action) :
  standing s → plain_path path → Forall plain_char path →
  write_file root (segments path) [] = Some n0 →
  ∃ s' o' n,
    standing s' ∧
    write_file root (segments path) content = Some n ∧
    uploadFile decode_ascii mpy mpy_respond path content
      (mkWorld s (mkMpy Friendly inp (mkPy root da cl) g h l) [] [] o)
    = (Done tt,
       mkWorld s' (mkMpy Friendly [] (mkPy n da cl) (lit "f" :: lit "w" :: g)
                     None l) [] [] o').
Proof.
  intros Hs Hp Hchars Hn0.
  destruct (mpy_getPrompt s inp (mkPy root da cl) g h l o Hs)
    as (s1 & o1 & Hs1 & E1).
  destruct (mpy_enterRawRepl s1 inp (mkPy root da cl) g h l o1 Hs1)
    as (s2 & o2 & Hs2 & E2).
  destruct (open_wb_command_plain path Hchars) as [Hplain Hne].
  destruct (mpy_executeRaw _ s2 _ _ _ _ o2 _ _ _ Hs2 Hne Hplain
              (exec_open path root n0 da cl g h l Hp Hn0))
    as (s3 & o3 & Hs3 & E3).
  set (cnt := chunk_count (length content) 512).
  set (I := fun (k : nat) (w : world mpy) =>
              ∃ s' o' nk,
                standing s' ∧
                write_file root (segments path) (take (k * 512) content) = Some nk ∧
                w = mkWorld s' (mkMpy RawMode [] (mkPy nk da cl)
                                  (lit "f" :: lit "w" :: g)
                                  (Some (segments path)) l) [] [] o').
  destruct (run_all_invariant mpy I
              (upload_step decode_ascii mpy mpy_respond content <$> seq 0 cnt))
    with (w := mkWorld s3 (mkMpy RawMode [] (mkPy n0 da cl)
                            (lit "f" :: lit "w" :: g)
                            (Some (segments path)) l) [] [] o3)
    as (w4 & E4 & (s4 & o4 & n & Hs4 & Hn & ->)).
  { intros k m w Hk (s' & o' & nk & Hs' & Hnk & ->).
    rewrite list_lookup_fmap in Hk.
    destruct (seq 0 cnt !! k) as [j|] eqn:Hj; [|done].
    apply lookup_seq in Hj as [-> _]. simpl in Hk. injection Hk as <-.
    destruct (mpy_upload_step content k (segments path) root nk da cl g l s' o'
                Hs' Hnk) as (s'' & o'' & n' & Hs'' & Hn' & Hrun).
    eexists. split; [exact Hrun|]. by exists s'', o'', n'. }
  { by exists s3, o3, n0. }
  rewrite length_fmap, length_seq in Hn.
  rewrite take_ge in Hn by (apply chunk_count_covers; lia).
  destruct (mpy_executeRaw close_command s4 _ _ _ _ o4 _ _ _ Hs4
              ltac:(done) ltac:(by apply plain_closed)
              (exec_close (mkPy n da cl) g (Some (segments path)) l))
    as (s5 & o5 & Hs5 & E5).
  destruct (mpy_exitRawRepl s5 [] (mkPy n da cl) (lit "f" :: lit "w" :: g) None l
              o5 Hs5) as (s6 & o6 & Hs6 & E6).
  exists s6, o6, n. split; [done|]. split; [done|].
  rewrite uploadFile_unroll.
  unfold bind at 1. rewrite E1.
  unfold bind at 1. rewrite E2.
  unfold bind at 1. rewrite E3.
  unfold bind at 1. fold cnt. rewrite E4.
  unfold bind at 1. rewrite E5.
  exact E6.
Qed.

(** *** The download on the device *)

(** The payload between ["OK"] and the first [0x04] of the answer. *)
Lemma payload_extracted (payload : text) :
  chr 4 ∉ payload →
  indexOf (raw_answer payload None) (lit "OK") = 0%Z ∧
  indexOf (raw_answer payload None) [chr 4] = Z.of_nat (2 + length payload) ∧
  slice (raw_answer payload None) 2 (2 + length payload) = payload.
Proof.
  intros Hno. unfold raw_answer. split; [apply indexOf_prefix|]. split.
  - unfold indexOf. rewrite app_assoc.
    change ([chr 4] ++ ?x) with (chr 4 :: x).
    rewrite indexOf_from_char.
    + rewrite length_app. change (length (lit "OK")) with 2. lia.
    + intros [H|H]%elem_of_app; [|done].
      vm_compute in H. by repeat (apply elem_of_cons in H as [H|H]; [done|]);
        apply elem_of_nil in H.
  - unfold slice. replace (2 + length payload - 2) with (length payload) by lia.
    change (drop 2 (lit "OK" ++ ?x)) with x. by rewrite take_app_length.
Qed.

Lemma cooked_b2a_base64_chars (data : list Byte.byte) :
  chr 4 ∉ cooked (b2a_base64 data).
Proof.
  destruct (cooked_b2a_base64 data) as (s & -> & _ & Hs).
  intros [H|[H|H]%elem_of_app]%elem_of_app.
  - unfold b64_text in Hs. rewrite Forall_forall in Hs.
    by destruct (Hs _ H) as (_ & _ & _ & ?).
  - unfold padding in H.
    repeat case_match;
      repeat (apply elem_of_cons in H as [H|H]; [done|]); by apply elem_of_nil in H.
  - repeat (apply elem_of_cons in H as [H|H]; [done|]). by apply elem_of_nil in H.
Qed.

(** [runHelper] returns, and the names of the helper are bound. *)
Lemma mpy_runHelper (root : node) (da : list file_entry) (cl : list os_call)
    (g : list text) (h : option (list text)) (l : nat) (inp : text)
    (s : session) (o : list action) :
  standing s →
  ∃ s' o',
    standing s' ∧
    runHelper decode_ascii mpy mpy_respond
      (mkWorld s (mkMpy Friendly inp (mkPy root da cl) g h l) [] [] o)
    = (Done (raw_answer [] None),
       mkWorld s' (mkMpy Friendly [] (mkPy root [] cl) (helper_names ++ g) h l)
         [] [] o').
Proof.
  intros Hs.
  destruct (mpy_getPrompt s inp (mkPy root da cl) g h l o Hs)
    as (s1 & o1 & Hs1 & E1).
  destruct (mpy_enterRawRepl s1 inp (mkPy root da cl) g h l o1 Hs1)
    as (s2 & o2 & Hs2 & E2).
  destruct (mpy_executeRaw HELPER_CODE s2 _ _ _ _ o2 _ _ _ Hs2
              ltac:(done) ltac:(by apply plain_closed)
              (exec_helper root da cl g h l))
    as (s3 & o3 & Hs3 & E3).
  destruct (mpy_exitRawRepl s3 [] (mkPy root [] cl) (helper_names ++ g) h l o3 Hs3)
    as (s4 & o4 & Hs4 & E4).
  exists s4, o4. split; [done|]. unfold runHelper.
  unfold bind at 1. rewrite E1.
  unfold bind at 1. rewrite E2.
  unfold bind at 1. rewrite E3.
  unfold bind at 1. rewrite E4. reflexivity.
Qed.

(** [downloadFile] returns the encoding of the file as the device printed
    it, provided the device knows [b2a_base64]. *)
Lemma mpy_downloadFile (path : text) (data : list Byte.byte) (root : node)
    (da : list file_entry) (cl : list os_call) (g : list text)
    (h : option (list text)) (l : nat) (inp : text) (s : session)
    (o : list action) :
  standing s → plain_path path → squote ∉ path → Forall plain_char path →
  read_file root (segments path) = Some data →
  lit "b2a_base64" ∈ g →
  ∃ s' o' d',
    standing s' ∧
    downloadFile decode_ascii mpy mpy_respond path
      (mkWorld s (mkMpy Friendly inp (mkPy root da cl) g h l) [] [] o)
    = (Done (cooked (b2a_base64 data)), mkWorld s' d' [] [] o').
Proof.
  intros Hs Hp Hq Hchars Hread Hg.
  destruct (mpy_getPrompt s inp (mkPy root da cl) g h l o Hs)
    as (s1 & o1 & Hs1 & E1).
  destruct (mpy_runHelper root da cl g h l inp s1 o1 Hs1) as (s2 & o2 & Hs2 & E2).
  set (p' := mkPy root [] cl) in *.
  set (g' := helper_names ++ g) in *.
  destruct (mpy_enterRawRepl s2 [] p' g' h l o2 Hs2) as (s3 & o3 & Hs3 & E3).
  destruct (downloadFile_command_plain path Hchars) as [Hplain Hne].
  assert (Hg' : lit "b2a_base64" ∈ g') by (apply elem_of_app; by right).
  destruct (mpy_executeRaw _ s3 _ _ _ _ o3 _ _ _ Hs3 Hne Hplain
              (exec_download path data p' g' h l Hp Hq Hread Hg'))
    as (s4 & o4 & Hs4 & E4).
  destruct (mpy_exitRawRepl s4 [] p' (lit "b" :: lit "i" :: lit "f" :: g') h l
              o4 Hs4) as (s5 & o5 & Hs5 & E5).
  destruct (payload_extracted (cooked (b2a_base64 data))
              (cooked_b2a_base64_chars data)) as (Hok & Hend & Hslice).
  exists s5, o5. eexists. split; [done|].
  unfold downloadFile.
  unfold bind at 1. rewrite E1.
  unfold bind at 1. rewrite E2.
  unfold bind at 1. rewrite E3.
  unfold bind at 1. rewrite E4.
  unfold bind at 1. rewrite E5.
  rewrite Hok, Hend. cbn [Z.eqb orb].
  replace (Z.to_nat (0 + 2)) with 2 by lia.
  rewrite Nat2Z.id, Hslice. reflexivity.
Qed.

(** *** Upload followed by download, for every content *)

(** On a device on which [b2a_base64] is bound, [uploadFile(path, content)]
    followed by [downloadFileToBytes(path)] returns [content], whatever its
    length, for a path without quote, backslash, line break or control byte
    whose file the device can create. The helper text is the only part of
    the round trip that is missing. *)
Lemma round_trip_returns_content (path : text) (content : list Byte.byte)
    (root n0 : node) (names : list text) :
  plain_path path → squote ∉ path → Forall plain_char path →
  write_file root (segments path) [] = Some n0 →
  lit "b2a_base64" ∈ names →
  ∃ w', round_trip path content (connected (mpy_boot root names))
        = (Done content, w').
Proof.
  intros Hp Hq Hchars Hn0 Hg. unfold round_trip, connected, mpy_boot.
  set (s0 := set_loop LoopReading _).
  assert (Hs0 : standing s0) by done.
  destruct (mpy_uploadFile path content root n0 [] [] names None 16 [] s0 []
              Hs0 Hp Hchars Hn0) as (s1 & o1 & n & Hs1 & Hn & E1).
  destruct (mpy_downloadFile path content n [] [] (lit "f" :: lit "w" :: names)
              None 16 [] s1 o1 Hs1 Hp Hq Hchars (read_write_file _ _ _ _ Hn))
    as (s2 & o2 & d' & Hs2 & E2).
  { by do 2 right. }
  eexists. unfold bind at 1. rewrite E1. unfold downloadFileToBytes.
  unfold bind at 1. rewrite E2.
  unfold bind at 1, atob_or_throw. rewrite atob_b2a_base64. unfold ret.
  rewrite <- list_fmap_compose.
  rewrite (list_fmap_ext _ id content); [by rewrite list_fmap_id|].
  intros i b _. apply byte_of_ascii_of_byte.
Qed.

(** * Further properties of the code *)

(** ** The optical flasher ([flash.ts]): checksum and frame *)

(** The value of a byte of a [Uint8Array]. *)
Definition byte_val (b : Byte.byte) : Z := Z.of_N (Byte.to_N b).

(** Storing a number into a [Uint8Array]: its value modulo 256. *)
Definition to_uint8 (z : Z) : Byte.byte :=
  default Byte.x00 (Byte.of_N (Z.to_N (z mod 256))).

(** One turn of the inner loop of [crc8]:
    [if (crc & 0x80) crc = ((crc << 1) ^ poly) & 0xff; else crc = (crc << 1) & 0xff].
    The operators work on 32-bit integers; every result is masked with
    [0xff], so the low eight bits, which do not depend on the width, are all
    that is kept. *)
Definition crc8_shift (poly crc : Z) : Z :=
  if negb (Z.land crc 0x80 =? 0)%Z
  then Z.land (Z.lxor (Z.shiftl crc 1) poly) 0xff
  else Z.land (Z.shiftl crc 1) 0xff.

(** The body of [for (const b of buf)]. *)
Definition crc8_byte (poly crc : Z) (b : Byte.byte) : Z :=
  Nat.iter 8 (crc8_shift poly) (Z.lxor crc (Z.land (byte_val b) 0xff)).

(** [crc8(buf, poly, init)] for integers [poly] and [init]. *)
Definition crc8 (buf : list Byte.byte) (poly init : Z) : Z :=
  Z.land (foldl (crc8_byte poly) (Z.land init 0xff) buf) 0xff.

Section Flasher.

(** [new TextEncoder().encode] *)
Variable encode : text → list Byte.byte.

Record encoded_config := mkEncoded {
  config_bytes : list Byte.byte;
  config_checksum : Z;
  withChecksum : list Byte.byte
}.

(** [encodeConfig()], given the values of the three input elements
    ([None] for an element that is missing). *)
Definition encodeConfig (userName userHandle userPronouns : option text)
  : encoded_config :=
  let name := default [] userName in
  let handle := default [] userHandle in
  let pronouns := default [] userPronouns in
  let joined := name ++ [chr 0] ++ handle ++ [chr 0] ++ pronouns in
  let bytes := encode joined in
  let checksum := crc8 bytes 0x07 0x00 in
  mkEncoded bytes checksum (bytes ++ [to_uint8 checksum]).

End Flasher.

Lemma land_255_range (z : Z) : (0 ≤ Z.land z 0xff < 256)%Z.
Proof.
  change 0xff%Z with (Z.ones 8). rewrite Z.land_ones by lia.
  change (2 ^ 8)%Z with 256%Z. apply Z.mod_pos_bound. lia.
Qed.

Lemma land_255_small (z : Z) : (0 ≤ z < 256)%Z → Z.land z 0xff = z.
Proof.
  intros H. change 0xff%Z with (Z.ones 8). rewrite Z.land_ones by lia.
  apply Z.mod_small. change (2 ^ 8)%Z with 256%Z. lia.
Qed.

Lemma crc8_shift_range (poly crc : Z) : (0 ≤ crc8_shift poly crc < 256)%Z.
Proof. unfold crc8_shift. destruct (negb _); apply land_255_range. Qed.

Lemma crc8_byte_range (poly crc : Z) (b : Byte.byte) :
  (0 ≤ crc8_byte poly crc b < 256)%Z.
Proof. unfold crc8_byte. cbn [Nat.iter]. apply crc8_shift_range. Qed.

Lemma crc8_state_range (poly : Z) (buf : list Byte.byte) :
  ∀ crc, (0 ≤ crc < 256)%Z → (0 ≤ foldl (crc8_byte poly) crc buf < 256)%Z.
Proof.
  induction buf as [|b buf IH]; intros crc H; [done|].
  simpl. apply IH, crc8_byte_range.
Qed.

Lemma crc8_state (buf : list Byte.byte) (poly init : Z) :
  foldl (crc8_byte poly) (Z.land init 0xff) buf = crc8 buf poly init.
Proof.
  unfold crc8. symmetry. apply land_255_small, crc8_state_range, land_255_range.
Qed.

Lemma byte_val_range (b : Byte.byte) : (0 ≤ byte_val b < 256)%Z.
Proof. unfold byte_val. pose proof (Byte.to_N_bounded b). lia. Qed.

Lemma byte_val_to_uint8 (z : Z) : byte_val (to_uint8 z) = (z mod 256)%Z.
Proof.
  unfold to_uint8, byte_val.
  pose proof (Z.mod_pos_bound z 256 ltac:(lia)) as Hz.
  destruct (Byte.of_N (Z.to_N (z mod 256))) as [b|] eqn:Hb.
  - apply Byte.to_of_N in Hb. simpl. rewrite Hb. lia.
  - apply Byte.of_N_None_iff in Hb. lia.
Qed.

Lemma crc8_shift_zero (poly : Z) : crc8_shift poly 0 = 0%Z.
Proof. done. Qed.

Lemma crc8_snoc (buf : list Byte.byte) (b : Byte.byte) (poly init : Z) :
  crc8 (buf ++ [b]) poly init = crc8_byte poly (crc8 buf poly init) b.
Proof.
  rewrite <- (crc8_state (buf ++ [b])), foldl_app. simpl.
  by rewrite crc8_state.
Qed.

Lemma crc8_range (buf : list Byte.byte) (poly init : Z) :
  (0 ≤ crc8 buf poly init < 256)%Z.
Proof. apply land_255_range. Qed.

Lemma crc8_checked (buf : list Byte.byte) (poly init : Z) :
  crc8 (buf ++ [to_uint8 (crc8 buf poly init)]) poly init = 0%Z.
Proof.
  rewrite crc8_snoc. unfold crc8_byte.
  pose proof (crc8_range buf poly init) as Hr.
  rewrite byte_val_to_uint8, Z.mod_small by lia.
  rewrite land_255_small by lia. rewrite Z.lxor_nilpotent. reflexivity.
Qed.

(** X1. [crc8] returns a byte value, whatever the polynomial and the
    initial value, and for the empty buffer it returns the low eight bits of
    the initial value. *)
Theorem crc8_is_byte (buf : list Byte.byte) (poly init : Z) :
  (0 ≤ crc8 buf poly init < 256)%Z ∧
  crc8 [] poly init = (init mod 256)%Z.
Proof.
  split; [apply crc8_range|].
  unfold crc8. simpl. rewrite land_255_small by apply land_255_range.
  change 0xff%Z with (Z.ones 8). by rewrite Z.land_ones by lia.
Qed.

(** X2. A buffer followed by its own checksum has checksum zero: this is
    the test a receiver of a frame makes. It holds for every polynomial and
    every initial value. *)
Theorem crc8_of_checked_buffer (buf : list Byte.byte) (poly init : Z) :
  crc8 (buf ++ [to_uint8 (crc8 buf poly init)]) poly init = 0%Z ∧
  byte_val (to_uint8 (crc8 buf poly init)) = crc8 buf poly init.
Proof.
  split; [apply crc8_checked|].
  rewrite byte_val_to_uint8. apply Z.mod_small, crc8_range.
Qed.

(** X3. The frame that [encodeConfig] builds is the encoded text (the three
    fields separated by NUL) followed by one byte, the checksum of the
    encoded text with polynomial [0x07] and initial value [0], and it passes
    the checksum test. *)
Theorem encodeConfig_frame (encode : text → list Byte.byte)
    (userName userHandle userPronouns : option text) :
  let e := encodeConfig encode userName userHandle userPronouns in
  config_bytes e
  = encode (default [] userName ++ [chr 0] ++ default [] userHandle
            ++ [chr 0] ++ default [] userPronouns) ∧
  config_checksum e = crc8 (config_bytes e) 0x07 0x00 ∧
  withChecksum e = config_bytes e ++ [to_uint8 (config_checksum e)] ∧
  length (withChecksum e) = S (length (config_bytes e)) ∧
  crc8 (withChecksum e) 0x07 0x00 = 0%Z.
Proof.
  cbn zeta. unfold encodeConfig. cbn [config_bytes withChecksum config_checksum].
  split; [done|]. split; [done|]. split; [done|].
  split; [rewrite length_app; simpl; lia|].
  apply crc8_checked.
Qed.

(** ** The optical flasher: hexadecimal log lines *)

Definition hex_digit (n : nat) : ascii := nth n (lit "0123456789abcdef") "0"%char.

(** [n.toString(16)] for a natural number: no leading zero, ["0"] for zero. *)
Fixpoint to_hex_from (fuel n : nat) (acc : text) : text :=
  match fuel with
  | 0 => acc
  | S fuel' =>
      let acc := hex_digit (n mod 16) :: acc in
      if n / 16 =? 0 then acc else to_hex_from fuel' (n / 16) acc
  end.

Definition to_hex (n : nat) : text := to_hex_from (S n) n [].

(** [s.padStart(len, fill)] for a one-character [fill]. *)
Definition padStart (len : nat) (fill : ascii) (s : text) : text :=
  repeat fill (len - length s) ++ s.

(** [b.toString(16).padStart(2, '0')] *)
Definition byte_hex (b : Byte.byte) : text :=
  padStart 2 "0"%char (to_hex (Byte.to_nat b)).

(** [Array.from(buf).map(b => b.toString(16).padStart(2, '0')).join('')] *)
Definition bytesToHex (buf : list Byte.byte) : text :=
  join [] (byte_hex <$> buf).

Definition is_hex_digit (c : ascii) : bool :=
  bool_decide (c ∈ lit "0123456789abcdef").

Lemma join_empty (xs : list text) : join [] xs = concat xs.
Proof.
  induction xs as [|x [|y xs] IH]; [done| by simpl; rewrite app_nil_r |].
  change (join [] (x :: y :: xs)) with (x ++ [] ++ join [] (y :: xs)).
  by rewrite IH.
Qed.

Lemma byte_hex_digits (b : Byte.byte) :
  byte_hex b = [hex_digit (Byte.to_nat b / 16); hex_digit (Byte.to_nat b mod 16)] ∧
  forallb is_hex_digit (byte_hex b) = true.
Proof. by destruct b. Qed.

(** The value of a hexadecimal digit. *)
Definition hex_value (c : ascii) : nat :=
  default 0 (fst <$> list_find (fun d => d = c) (lit "0123456789abcdef")).

Lemma byte_hex_inj (a b : Byte.byte) : byte_hex a = byte_hex b → a = b.
Proof.
  intros H.
  assert (Hd : ∀ x,
    Byte.of_nat
      (match byte_hex x with
       | [h; l] => 16 * hex_value h + hex_value l
       | _ => 0
       end) = Some x) by (by intros []).
  pose proof (Hd a) as Ha. rewrite H, Hd in Ha. congruence.
Qed.

Lemma bytesToHex_cons (b : Byte.byte) (buf : list Byte.byte) :
  bytesToHex (b :: buf) = byte_hex b ++ bytesToHex buf.
Proof. unfold bytesToHex. by rewrite !join_empty. Qed.

Lemma bytesToHex_length (buf : list Byte.byte) :
  length (bytesToHex buf) = 2 * length buf.
Proof.
  induction buf as [|b buf IH]; [done|].
  rewrite bytesToHex_cons, length_app, IH, (proj1 (byte_hex_digits b)). simpl. lia.
Qed.

Lemma bytesToHex_inj (a : list Byte.byte) :
  ∀ b, bytesToHex a = bytesToHex b → a = b.
Proof.
  induction a as [|x a IH]; intros [|y b] H.
  - done.
  - apply (f_equal length) in H. rewrite !bytesToHex_length in H. simpl in H. lia.
  - apply (f_equal length) in H. rewrite !bytesToHex_length in H. simpl in H. lia.
  - rewrite !bytesToHex_cons in H.
    apply app_inj_1 in H as [Hx Hrest].
    + f_equal; [by apply byte_hex_inj | by apply IH].
    + by rewrite (proj1 (byte_hex_digits x)), (proj1 (byte_hex_digits y)).
Qed.

(** X4. [bytesToHex] writes two lower-case hexadecimal digits for each
    byte, high digit first, so the text is twice as long as the buffer,
    and different buffers never give the same text. *)
Theorem bytesToHex_faithful (buf : list Byte.byte) :
  length (bytesToHex buf) = 2 * length buf ∧
  bytesToHex buf
  = concat ((fun b => [hex_digit (Byte.to_nat b / 16);
                       hex_digit (Byte.to_nat b mod 16)]) <$> buf) ∧
  forallb is_hex_digit (bytesToHex buf) = true ∧
  (∀ other, bytesToHex buf = bytesToHex other ↔ buf = other).
Proof.
  split; [apply bytesToHex_length|]. split; [|split].
  - unfold bytesToHex. rewrite join_empty. f_equal.
    apply list_fmap_ext. intros i b _. apply byte_hex_digits.
  - induction buf as [|b buf IH]; [done|].
    rewrite bytesToHex_cons, forallb_app, IH.
    by rewrite (proj2 (byte_hex_digits b)).
  - intros other. split; [apply bytesToHex_inj | by intros ->].
Qed.

(** ** The optical flasher: showing the bits *)

(** The background of the flasher element: [bg-white], [bg-black], and
    [bg-stone-800] between two bits. *)
Inductive colour := White | Black | Neutral.

Inductive flash_event :=
| Shown (c : colour)        (* the classes of the flasher element change *)
| Paused (ms : nat)         (* await sleep(ms) *)
| Cleared                   (* console.clear() *)
| Printed (line : text).    (* console.log(line) *)

(** The variable [flashing], the pauses left before the user presses Stop
    (the click handler then sets [flashing] to [false]; [None] when Stop is
    not pressed), and what has happened so far. *)
Record flash_state := mkFlash {
  flashing : bool;
  stop_in : option nat;
  flash_out : list flash_event
}.

Definition flash_emit (es : list flash_event) (st : flash_state) : flash_state :=
  mkFlash (flashing st) (stop_in st) (flash_out st ++ es).

(** [await sleep(ms)]: the only points where a click is handled. *)
Definition pause (ms : nat) (st : flash_state) : flash_state :=
  let st := flash_emit [Paused ms] st in
  match stop_in st with
  | Some 0 => mkFlash false None (flash_out st)
  | Some (S k) => mkFlash (flashing st) (Some k) (flash_out st)
  | None => st
  end.

(** [flashBit(bit)]; [flasher] tells whether the element exists. *)
Definition flashBit (flasher : bool) (hold gap : nat) (bit : bool)
    (st : flash_state) : flash_state :=
  if negb flasher then st
  else
    let st := flash_emit [Shown (if bit then White else Black)] st in
    let st := pause hold st in
    let st := flash_emit [Shown Neutral] st in
    pause gap st.

(** [(b >> bit) & 1] *)
Definition bit_of (b : Byte.byte) (bit : nat) : bool :=
  Z.testbit (byte_val b) (Z.of_nat bit).

(** The inner loop of [performFlash] over the bit positions left; the first
    component is [false] when the loop returned [false]. *)
Fixpoint flash_bits (report : text → list flash_event) (flasher : bool)
    (hold gap : nat) (b : Byte.byte) (positions : list nat) (bitLine : text)
    (st : flash_state) : bool * text * flash_state :=
  match positions with
  | [] => (true, bitLine, st)
  | bit :: positions' =>
      if negb (flashing st) then (false, bitLine, st)
      else
        let v := bit_of b bit in
        let bitLine := bitLine ++ [if v then "1"%char else "0"%char] in
        let st := flash_emit (report bitLine) st in
        let st := flashBit flasher hold gap v st in
        flash_bits report flasher hold gap b positions' bitLine st
  end.

(** [for (let bit = 7; bit >= 0; bit--)] *)
Definition msb_first : list nat := [7; 6; 5; 4; 3; 2; 1; 0].

Fixpoint flash_bytes (report : text → list flash_event) (flasher : bool)
    (hold gap : nat) (data : list Byte.byte) (bitLine : text)
    (st : flash_state) : bool * text * flash_state :=
  match data with
  | [] => (true, bitLine, st)
  | b :: data' =>
      match flash_bits report flasher hold gap b msb_first bitLine st with
      | (true, bitLine, st) =>
          flash_bytes report flasher hold gap data' bitLine (pause 100 st)
      | r => r
      end
  end.

(** The four lines printed again for every bit. *)
Definition flash_report (data : list Byte.byte) (crc : Byte.byte) (bitLine : text)
  : list flash_event :=
  [Cleared;
   Printed (lit "Pre-encoded (hex): " ++ bytesToHex (take (length data - 1) data));
   Printed (lit "CRC-8: 0x" ++ padStart 2 "0"%char (to_hex (Byte.to_nat crc)));
   Printed (lit "Encoded with checksum: " ++ bytesToHex data);
   Printed (lit "Bits: " ++ bitLine)].

(** [performFlash(data)]. With an empty [data] the element [data[-1]] is
    [undefined] and the call throws. *)
Definition performFlash (flasher : bool) (hold gap : nat) (data : list Byte.byte)
    (st : flash_state) : outcome bool * flash_state :=
  let st := mkFlash true (stop_in st) (flash_out st) in
  match last data with
  | None => (Threw (Error msg_type_error), st)
  | Some crc =>
      match flash_bytes (flash_report data crc) flasher hold gap data [] st with
      | (true, bitLine, st) => (Done true, flash_emit (flash_report data crc bitLine) st)
      | (false, _, st) => (Done false, st)
      end
  end.

(** The bits that were shown, in order. *)
Definition shown_bits (out : list flash_event) : list bool :=
  omap (fun e => match e with
                 | Shown White => Some true
                 | Shown Black => Some false
                 | _ => None
                 end) out.

(** The bits of a byte, most significant first. *)
Definition byte_bits (b : Byte.byte) : list bool := bit_of b <$> msb_first.

(** The byte whose bits, most significant first, are [bits]. *)
Definition bits_value (bits : list bool) : Z :=
  foldl (fun acc (v : bool) => (2 * acc + (if v then 1 else 0))%Z) 0%Z bits.

Lemma shown_bits_app (a b : list flash_event) :
  shown_bits (a ++ b) = shown_bits a ++ shown_bits b.
Proof. apply omap_app. Qed.

Lemma shown_bits_report (data : list Byte.byte) (crc : Byte.byte) (bitLine : text) :
  shown_bits (flash_report data crc bitLine) = [].
Proof. done. Qed.

Lemma pause_shown (ms : nat) (st : flash_state) :
  shown_bits (flash_out (pause ms st)) = shown_bits (flash_out st).
Proof.
  unfold pause. cbn [flash_emit stop_in flash_out flashing].
  destruct (stop_in st) as [[|k]|]; unfold flash_emit; cbn [flash_out];
    by rewrite shown_bits_app, app_nil_r.
Qed.

Lemma pause_running (ms : nat) (st : flash_state) :
  stop_in st = None →
  stop_in (pause ms st) = None ∧ flashing (pause ms st) = flashing st.
Proof.
  unfold pause. cbn [flash_emit stop_in flash_out flashing]. intros H.
  rewrite H. unfold flash_emit. by cbn [stop_in flashing].
Qed.

Lemma flashBit_shown (hold gap : nat) (v : bool) (st : flash_state) :
  shown_bits (flash_out (flashBit true hold gap v st))
  = shown_bits (flash_out st) ++ [v].
Proof.
  unfold flashBit. cbn [negb]. rewrite pause_shown. cbn [flash_emit flash_out].
  rewrite shown_bits_app, pause_shown. cbn [flash_emit flash_out].
  rewrite shown_bits_app. simpl. rewrite app_nil_r. by destruct v.
Qed.

Lemma flashBit_running (hold gap : nat) (v : bool) (st : flash_state) :
  stop_in st = None →
  stop_in (flashBit true hold gap v st) = None ∧
  flashing (flashBit true hold gap v st) = flashing st.
Proof.
  intros H. unfold flashBit. cbn [negb].
  set (st1 := flash_emit _ st).
  destruct (pause_running hold st1 H) as [H1 F1].
  set (st2 := flash_emit _ (pause hold st1)).
  destruct (pause_running gap st2 H1) as [H2 F2].
  split; [done|]. by rewrite F2; simpl; rewrite F1.
Qed.

(** What one run of the inner loop shows: a prefix of the bits at the
    positions, all of them exactly when the loop runs to its end; without a
    Stop it does. *)
Lemma flash_bits_shown (report : text → list flash_event) (hold gap : nat)
    (b : Byte.byte) (positions : list nat) :
  (∀ bl, shown_bits (report bl) = []) →
  ∀ bitLine st,
    ∃ l,
      shown_bits (flash_out (flash_bits report true hold gap b positions bitLine st).2)
      = shown_bits (flash_out st) ++ l ∧
      l `prefix_of` (bit_of b <$> positions) ∧
      ((flash_bits report true hold gap b positions bitLine st).1.1 = true
       ↔ l = bit_of b <$> positions) ∧
      (stop_in st = None → flashing st = true →
       (flash_bits report true hold gap b positions bitLine st).1.1 = true ∧
       stop_in (flash_bits report true hold gap b positions bitLine st).2 = None ∧
       flashing (flash_bits report true hold gap b positions bitLine st).2 = true).
Proof.
  intros Hrep. induction positions as [|bit positions IH]; intros bitLine st.
  - exists []. simpl. by rewrite app_nil_r.
  - cbn [flash_bits]. destruct (flashing st) eqn:Hf; cbn [negb].
    + set (bl := bitLine ++ _).
      set (st1 := flashBit true hold gap (bit_of b bit) (flash_emit (report bl) st)).
      destruct (IH bl st1) as (l & Hl & Hpre & Hiff & Hrun).
      exists (bit_of b bit :: l). split; [|split; [|split]].
      * rewrite Hl. unfold st1. rewrite flashBit_shown. cbn [flash_emit flash_out].
        rewrite shown_bits_app, Hrep, app_nil_r. by rewrite <- app_assoc.
      * rewrite fmap_cons. by apply prefix_cons.
      * rewrite Hiff, fmap_cons. split; [by intros -> | by intros [= ->]].
      * intros Hs _.
        assert (Hs' : stop_in (flash_emit (report bl) st) = None) by done.
        destruct (flashBit_running hold gap (bit_of b bit) _ Hs') as [A B].
        apply Hrun; [exact A | unfold st1; rewrite B; exact Hf].
    + exists []. simpl. rewrite app_nil_r. split; [done|].
      split; [apply prefix_nil|]. split; [done|]. done.
Qed.

Lemma flash_bytes_shown (report : text → list flash_event) (hold gap : nat)
    (data : list Byte.byte) :
  (∀ bl, shown_bits (report bl) = []) →
  ∀ bitLine st,
    ∃ l,
      shown_bits (flash_out (flash_bytes report true hold gap data bitLine st).2)
      = shown_bits (flash_out st) ++ l ∧
      l `prefix_of` concat (byte_bits <$> data) ∧
      ((flash_bytes report true hold gap data bitLine st).1.1 = true
       ↔ l = concat (byte_bits <$> data)) ∧
      (stop_in st = None → flashing st = true →
       (flash_bytes report true hold gap data bitLine st).1.1 = true).
Proof.
  intros Hrep. induction data as [|b data IH]; intros bitLine st.
  - exists []. simpl. by rewrite app_nil_r.
  - cbn [flash_bytes].
    destruct (flash_bits_shown report hold gap b msb_first Hrep bitLine st)
      as (l1 & Hl1 & Hpre1 & Hiff1 & Hrun1).
    destruct (flash_bits report true hold gap b msb_first bitLine st)
      as [[ok bl] st1] eqn:Hbits.
    cbn [fst snd] in *. destruct ok.
    + assert (l1 = byte_bits b) as -> by (by apply Hiff1).
      destruct (IH bl (pause 100 st1)) as (l2 & Hl2 & Hpre2 & Hiff2 & Hrun2).
      exists (byte_bits b ++ l2). rewrite fmap_cons, concat_cons.
      split; [|split; [|split]].
      * by rewrite Hl2, pause_shown, Hl1, <- app_assoc.
      * by apply prefix_app.
      * rewrite Hiff2. split; [by intros -> | by intros ?%app_inv_head].
      * intros Hs Hf. destruct (Hrun1 Hs Hf) as (_ & Hs1 & Hf1).
        destruct (pause_running 100 st1 Hs1) as [Hs2 Hf2].
        apply Hrun2; [done | by rewrite Hf2].
    + exists l1. rewrite fmap_cons, concat_cons.
      split; [done|]. split; [by apply prefix_app_r|].
      split; [|intros Hs Hf; by destruct (Hrun1 Hs Hf)].
      split; [done|]. intros ->.
      apply prefix_length in Hpre1. rewrite length_app in Hpre1.
      assert (length (byte_bits b) = 8) as H8 by done.
      assert (length (bit_of b <$> msb_first) = 8) as H8' by done.
      assert (length (concat (byte_bits <$> data)) = 0) as Hz by lia.
      apply nil_length_inv in Hz. rewrite Hz, app_nil_r in Hiff1.
      by destruct (proj2 Hiff1).
Qed.

Lemma bits_value_byte (b : Byte.byte) : bits_value (byte_bits b) = byte_val b.
Proof. by destruct b. Qed.

(** X5. Without a press on Stop, [performFlash] on a non-empty frame
    returns [true] and has shown exactly the bits of the frame, byte after
    byte, the most significant bit of each byte first: eight bits per byte,
    from which the byte is read back. *)
Theorem performFlash_shows_frame (hold gap : nat) (data : list Byte.byte)
    (st : flash_state) :
  data ≠ [] → stop_in st = None →
  (performFlash true hold gap data st).1 = Done true ∧
  shown_bits (flash_out (performFlash true hold gap data st).2)
  = shown_bits (flash_out st) ++ concat (byte_bits <$> data) ∧
  Forall (fun bits => length bits = 8) (byte_bits <$> data) ∧
  bits_value <$> (byte_bits <$> data) = byte_val <$> data.
Proof.
  intros Hne Hs. unfold performFlash.
  destruct (last data) as [crc|] eqn:Hlast;
    [|by apply last_None in Hlast].
  set (st0 := mkFlash true (stop_in st) (flash_out st)).
  destruct (flash_bytes_shown (flash_report data crc) hold gap data
              (shown_bits_report data crc) [] st0)
    as (l & Hl & _ & Hiff & Hrun).
  destruct (flash_bytes _ _ _ _ _ _ _) as [[ok bl] st1]. cbn [fst snd] in *.
  rewrite (Hrun Hs eq_refl) in *. cbn [fst snd flash_emit flash_out].
  split; [done|]. split; [|split].
  - rewrite shown_bits_app, shown_bits_report, app_nil_r, Hl.
    by rewrite (proj1 Hiff eq_refl).
  - by apply Forall_fmap, Forall_forall.
  - rewrite <- list_fmap_compose. apply list_fmap_ext.
    intros i b _. apply bits_value_byte.
Qed.


Lemma performFlash_shows_frame_witness :
  (performFlash true 120 50 [Byte.xa5; Byte.x3c] (mkFlash false None [])).1
  = Done true.
Proof.
  apply (performFlash_shows_frame 120 50 [Byte.xa5; Byte.x3c] (mkFlash false None [])).
  - done.
  - reflexivity.
Defined.

(** ** [sanitizeForLog] *)

(** The class [[\n\r\t\x20-\x7E]]. *)
Definition printable (c : ascii) : bool :=
  let n := nat_of_ascii c in
  (n =? 10) || (n =? 13) || (n =? 9) || ((32 <=? n) && (n <=? 126)).

(** ["<0x" + code.toString(16).padStart(2, '0') + ">"] *)
Definition hex_marker (c : ascii) : text :=
  lit "<0x" ++ padStart 2 "0"%char (to_hex (nat_of_ascii c)) ++ lit ">".

(** [s.replace(/[^\n\r\t\x20-\x7E]/g, ...)] *)
Definition sanitizeForLog (s : text) : text :=
  concat ((fun c => if printable c then [c] else hex_marker c) <$> s).


Lemma sanitizeForLog_app (s t : text) :
  sanitizeForLog (s ++ t) = sanitizeForLog s ++ sanitizeForLog t.
Proof. unfold sanitizeForLog. by rewrite fmap_app, concat_app. Qed.





(** ** [extract] *)

Definition gt : ascii := ">"%char.

(** What [/^>+/] matches: the run of ['>'] the text starts with, if there
    is one. The match is at index 0. *)
Fixpoint leading_gt (s : text) : nat :=
  match s with
  | c :: s' => if Ascii.eqb c gt then S (leading_gt s') else 0
  | [] => 0
  end.

(** A line terminator of the regular expression grammar. *)
Definition is_line_terminator (c : ascii) : bool :=
  (nat_of_ascii c =? 10) || (nat_of_ascii c =? 13).

(** The index of the first match of [/^>+/m]: the first ['>'] at the start
    of the text or right after a line terminator. *)
Fixpoint line_start_gt (s : text) (at_start : bool) (i : nat) : option nat :=
  match s with
  | [] => None
  | c :: s' =>
      if at_start && Ascii.eqb c gt then Some i
      else line_start_gt s' (is_line_terminator c) (S i)
  end.

(** [str.substring(start, end)]: the arguments are clamped to the length
    and swapped when the first is the larger one. *)
Definition substring (str : text) (start end_ : nat) : text :=
  let a := start `min` length str in
  let b := end_ `min` length str in
  take (a `max` b - a `min` b) (drop (a `min` b) str).

(** White space and line terminators, as [trim] sees them (among the code
    units below 256). *)
Definition is_js_space (c : ascii) : bool :=
  let n := nat_of_ascii c in
  (n =? 9) || (n =? 10) || (n =? 11) || (n =? 12) || (n =? 13) || (n =? 32)
  || (n =? 160).

Fixpoint trim_start (s : text) : text :=
  match s with
  | c :: s' => if is_js_space c then trim_start s' else s
  | [] => []
  end.

(** [s.trim()] *)
Definition trim (s : text) : text :=
  reverse (trim_start (reverse (trim_start s))).

Definition extract (str : text) : text :=
  let matched := leading_gt str in             (* str.match(startSequence) *)
  let start := 0 in                            (* ?.index ?? 0 *)
  let start := start + matched in              (* + (?.[0].length ?? 0) *)
  let end_ := match line_start_gt str true 0 with
              | Some i => i
              | None => length str
              end in
  trim (substring str start end_).

(** No line of [s] after the first starts with ['>']. *)
Definition no_prompt_line (s : text) : Prop :=
  ∀ l c r, s = l ++ c :: gt :: r → is_line_terminator c = false.

(** The same, as a test. *)
Fixpoint prompt_free (s : text) : bool :=
  match s with
  | c :: s' =>
      match s' with
      | d :: _ => negb (is_line_terminator c && Ascii.eqb d gt) && prompt_free s'
      | [] => true
      end
  | [] => true
  end.

Lemma prompt_free_spec (s : text) : prompt_free s = true → no_prompt_line s.
Proof.
  induction s as [|c s IH]; intros H l c' r Hs.
  - by destruct l.
  - destruct s as [|d s]; [by destruct l as [|? [|? ?]]|].
    cbn [prompt_free] in H. apply andb_prop in H as [H1 H2].
    destruct l as [|x l]; simpl in Hs.
    + injection Hs as -> -> ->. rewrite Ascii.eqb_refl, andb_true_r in H1.
      by apply negb_true_iff in H1.
    + injection Hs as -> Hs. by apply (IH H2 l c' r).
Qed.

Lemma line_start_gt_none (s : text) :
  ∀ at_start i,
    (at_start = true → head s ≠ Some gt) →
    no_prompt_line s →
    line_start_gt s at_start i = None.
Proof.
  induction s as [|c s IH]; intros at_start i Hhead Hno; [done|].
  simpl. assert (at_start && Ascii.eqb c gt = false) as ->.
  { destruct at_start; [|done]. simpl.
    destruct (Ascii.eqb_spec c gt) as [->|]; [|done]. by destruct Hhead. }
  apply IH.
  - intros Hterm Hs. destruct s as [|c' s]; [done|]. simpl in Hs.
    injection Hs as ->. specialize (Hno [] c s eq_refl). congruence.
  - intros l c' r ->. apply (Hno (c :: l) c' r eq_refl).
Qed.

Lemma leading_gt_none (s : text) : head s ≠ Some gt → leading_gt s = 0.
Proof.
  destruct s as [|c s]; [done|]. simpl. intros H.
  destruct (Ascii.eqb_spec c gt) as [->|]; [by destruct H | done].
Qed.

Lemma leading_gt_run (k : nat) (rest : text) :
  head rest ≠ Some gt → leading_gt (repeat gt k ++ rest) = k.
Proof.
  intros H. induction k as [|k IH]; simpl; [by apply leading_gt_none|].
  by rewrite IH.
Qed.

Lemma substring_all (s : text) : substring s 0 (length s) = s.
Proof.
  unfold substring. rewrite Nat.min_0_l, Nat.min_id, Nat.max_0_l, Nat.min_0_l.
  simpl. rewrite Nat.sub_0_r. apply firstn_all.
Qed.

Lemma trim_start_id (s : text) :
  (∀ c, head s = Some c → is_js_space c = false) → trim_start s = s.
Proof. destruct s as [|c s]; [done|]. simpl. intros H. by rewrite (H c). Qed.

(** A text that neither starts nor ends with white space is not changed by
    [trim]. *)
Lemma trim_id (s : text) :
  (∀ c, head s = Some c → is_js_space c = false) →
  (∀ c, last s = Some c → is_js_space c = false) →
  trim s = s.
Proof.
  intros Hh Hl. unfold trim. rewrite (trim_start_id s Hh).
  rewrite trim_start_id; [apply reverse_involutive|].
  intros c Hc. apply Hl. by rewrite <- head_reverse.
Qed.

(** X8. On a text that starts with ['>'], [extract] returns that leading
    run of ['>'] and nothing else: both patterns match at the start, so the
    end index is 0 and [substring] swaps its arguments. *)
Theorem extract_of_leading_prompt (k : nat) (rest : text) :
  0 < k → head rest ≠ Some gt →
  extract (repeat gt k ++ rest) = repeat gt k.
Proof.
  intros Hk Hrest. unfold extract. rewrite leading_gt_run by done.
  destruct k as [|k]; [lia|]. cbn [repeat app line_start_gt andb].
  rewrite Ascii.eqb_refl. unfold substring.
  assert (Hlen : S k ≤ length (gt :: repeat gt k ++ rest)).
  { simpl. rewrite length_app, repeat_length. lia. }
  rewrite (Nat.min_l (0 + S k)) by exact Hlen.
  rewrite Nat.min_0_l, Nat.max_0_r, Nat.min_0_r, Nat.sub_0_r. cbn [drop].
  change (gt :: repeat gt k ++ rest) with (repeat gt (S k) ++ rest).
  replace (0 + S k) with (length (repeat gt (S k))) by (by rewrite repeat_length).
  rewrite take_app_length. apply trim_id.
  - intros c [= <-]. done.
  - intros c Hc. apply last_Some_elem_of, list_elem_of_In in Hc.
    apply (repeat_spec (S k)) in Hc. by subst c.
Qed.

Lemma extract_of_leading_prompt_witness :
  extract (lit ">>>hello") = lit ">>>".
Proof.
  apply (extract_of_leading_prompt 3 (lit "hello")).
  - lia.
  - vm_compute. congruence.
Defined.

(** X9. When the text does not start with ['>'] and none of its lines does,
    [extract] only trims it. In particular the answer of raw mode to a
    command, ["OK"], the output, [0x04 0x04 '>'], comes back as it is,
    markers included, when no line of the output starts with ['>']: this is
    what [loadFile] returns. *)
Theorem extract_only_trims (str : text) :
  head str ≠ Some gt → no_prompt_line str →
  extract str = trim str ∧
  (∀ body, str = lit "OK" ++ body ++ [chr 4; chr 4; gt] → extract str = str).
Proof.
  intros Hhead Hno.
  assert (He : extract str = trim str).
  { unfold extract. rewrite leading_gt_none by done.
    rewrite line_start_gt_none by done. simpl. by rewrite substring_all. }
  split; [done|]. intros body ->. rewrite He. apply trim_id.
  - intros c [= <-]. done.
  - intros c Hc. rewrite !app_assoc in Hc.
    change ((?x ++ [chr 4; chr 4; gt])) with (x ++ [chr 4; chr 4] ++ [gt]) in Hc.
    rewrite !app_assoc, last_snoc in Hc. by injection Hc as <-.
Qed.

Lemma extract_only_trims_witness :
  extract (lit "OK" ++ lit "print(1)" ++ [chr 4; chr 4; gt])
  = lit "OK" ++ lit "print(1)" ++ [chr 4; chr 4; gt].
Proof.
  apply (extract_only_trims (lit "OK" ++ lit "print(1)" ++ [chr 4; chr 4; gt]))
    with (body := lit "print(1)"); [vm_compute; congruence | | reflexivity].
  apply prompt_free_spec. reflexivity.
Defined.

(** ** The firmware bundle ([usb.ts]): folders, duplicates, order *)

(** [s.lastIndexOf(c)] for a one-character [c]: [found] is the last index
    seen so far. *)
Fixpoint lastIndexOf_from (s : text) (c : ascii) (i found : Z) : Z :=
  match s with
  | [] => found
  | x :: s' => lastIndexOf_from s' c (i + 1)%Z (if Ascii.eqb x c then i else found)
  end.

Definition lastIndexOf (s : text) (c : ascii) : Z :=
  lastIndexOf_from s c 0%Z (-1)%Z.

Definition getFolder (path : text) : text :=
  let idx := lastIndexOf path slash in
  if (idx <=? 0)%Z then [slash] else slice path 0 (Z.to_nat idx).

Lemma lastIndexOf_from_absent (s : text) (c : ascii) :
  c ∉ s → ∀ i found, lastIndexOf_from s c i found = found.
Proof.
  induction s as [|x s IH]; [done|].
  intros [Hx Hs]%not_elem_of_cons i found. simpl.
  destruct (Ascii.eqb_spec x c); [congruence|]. by apply IH.
Qed.

Lemma lastIndexOf_from_last (pre post : text) (c : ascii) :
  c ∉ post →
  ∀ i found,
    lastIndexOf_from (pre ++ c :: post) c i found = (i + Z.of_nat (length pre))%Z.
Proof.
  intros Hpost. induction pre as [|x pre IH]; intros i found; simpl.
  - rewrite Ascii.eqb_refl, lastIndexOf_from_absent by done. lia.
  - rewrite IH. lia.
Qed.

(** X10. [getFolder] of [dir + '/' + name], for a [name] without slash, is
    [dir], except that an empty [dir] gives ['/']; a path without any slash
    also gives ['/']. *)
Theorem getFolder_of_child (dir name : text) :
  slash ∉ name →
  getFolder (dir ++ [slash] ++ name) = (if dir is [] then [slash] else dir) ∧
  getFolder name = [slash].
Proof.
  intros Hname. unfold getFolder, lastIndexOf. split.
  - cbn [app]. rewrite lastIndexOf_from_last by done.
    destruct dir as [|c dir]; [done|].
    destruct (Z.leb_spec (0 + Z.of_nat (length (c :: dir))) 0) as [H|_];
      [simpl in H; lia|].
    unfold slice. rewrite Nat.sub_0_r. cbn [drop].
    replace (Z.to_nat (0 + Z.of_nat (length (c :: dir)))) with (length (c :: dir))
      by lia.
    apply take_app_length.
  - by rewrite lastIndexOf_from_absent.
Qed.

Lemma getFolder_of_child_witness :
  getFolder (lit "/lib/sub/b.py") = lit "/lib/sub".
Proof.
  apply (getFolder_of_child (lit "/lib/sub") (lit "b.py")).
  vm_compute. intros H.
  repeat (apply elem_of_cons in H as [H|H]; [discriminate H|]).
  by apply elem_of_nil in H.
Defined.

(** A [Map] with text keys, as the list of its entries in insertion order.
    [map.set(k, v)] replaces the value of a key that is present, in place,
    and appends a new key. *)
Fixpoint map_set {V} (k : text) (v : V) (m : list (text * V)) : list (text * V) :=
  match m with
  | [] => [(k, v)]
  | (k', v') :: m' =>
      if text_eqb k' k then (k', v) :: m' else (k', v') :: map_set k v m'
  end.

(** [map.get(k)] *)
Fixpoint map_get {V} (k : text) (m : list (text * V)) : option V :=
  match m with
  | [] => None
  | (k', v') :: m' => if text_eqb k' k then Some v' else map_get k m'
  end.

(** "Deduplicate by path in case any duplicates exist in the zip". *)
Definition dedupe (firmwareFiles : list firmware_file) : list firmware_file :=
  let map := foldl (fun m f => map_set (path f) (content f) m) [] firmwareFiles in
  (fun e : text * list Byte.byte => mkFile e.1 e.2 (getFolder e.1)) <$> map.

(** The content of the last file of the list that has the path [k]. *)
Definition last_content (k : text) (files : list firmware_file)
  : option (list Byte.byte) :=
  content <$> last (filter (fun f => path f = k) files).

Lemma map_set_keys {V} (k : text) (v : V) (m : list (text * V)) :
  (map_set k v m).*1 = if bool_decide (k ∈ m.*1) then m.*1 else m.*1 ++ [k].
Proof.
  induction m as [|[k' v'] m IH]; [done|]. cbn [map_set].
  destruct (text_eqb k' k) eqn:E; rewrite !fmap_cons; cbn [fst].
  - apply text_eqb_eq in E as ->. rewrite bool_decide_eq_true_2 by left. done.
  - assert (k' ≠ k) by (intros ->; by rewrite text_eqb_refl in E).
    rewrite IH. destruct (bool_decide (k ∈ m.*1)) eqn:Hin.
    + apply bool_decide_eq_true in Hin.
      by rewrite bool_decide_eq_true_2 by (by right).
    + apply bool_decide_eq_false in Hin.
      rewrite bool_decide_eq_false_2; [done|].
      intros [?|?]%elem_of_cons; congruence.
Qed.

Lemma map_get_set {V} (k k' : text) (v : V) (m : list (text * V)) :
  map_get k' (map_set k v m) = if text_eqb k k' then Some v else map_get k' m.
Proof.
  induction m as [|[k0 v0] m IH]; simpl.
  - done.
  - destruct (text_eqb k0 k) eqn:E; simpl.
    + apply text_eqb_eq in E as ->. by destruct (text_eqb k k').
    + rewrite IH. destruct (text_eqb k0 k') eqn:E'; [|done].
      apply text_eqb_eq in E' as ->. rewrite text_eqb_ne; [done|].
      intros ->. by rewrite text_eqb_refl in E.
Qed.

Lemma map_set_NoDup {V} (k : text) (v : V) (m : list (text * V)) :
  NoDup m.*1 → NoDup (map_set k v m).*1.
Proof.
  intros H. rewrite map_set_keys. case_bool_decide as Hin; [done|].
  apply NoDup_app. split; [done|]. split; [|apply NoDup_singleton].
  intros x Hx ->%list_elem_of_singleton. done.
Qed.

Lemma last_content_snoc (k : text) (files : list firmware_file) (f : firmware_file) :
  last_content k (files ++ [f])
  = if text_eqb (path f) k then Some (content f) else last_content k files.
Proof.
  unfold last_content. rewrite filter_app.
  destruct (text_eqb (path f) k) eqn:E.
  - apply text_eqb_eq in E. rewrite filter_cons_True, filter_nil by done.
    by rewrite last_snoc.
  - assert (path f ≠ k) by (intros Hk; by rewrite Hk, text_eqb_refl in E).
    by rewrite filter_cons_False, filter_nil, app_nil_r by done.
Qed.

(** The map that the loop over the files builds. *)
Lemma dedupe_map (files : list firmware_file) :
  let map := foldl (fun m f => map_set (path f) (content f) m) [] files in
  NoDup map.*1 ∧
  (∀ k, k ∈ map.*1 ↔ k ∈ path <$> files) ∧
  (∀ k, map_get k map = last_content k files).
Proof.
  induction files as [|f files IH] using rev_ind.
  - split; [constructor|]. split; [|done]. intros k. by rewrite !elem_of_nil.
  - cbn zeta in *. rewrite foldl_app. simpl.
    destruct IH as (Hnd & Hkeys & Hget).
    set (m := foldl _ [] files) in *.
    split; [by apply map_set_NoDup|]. split.
    + intros k. rewrite map_set_keys, fmap_app, elem_of_app. simpl.
      rewrite list_elem_of_singleton, <- Hkeys.
      case_bool_decide as Hin.
      * split; [by left|]. by intros [?| ->].
      * by rewrite elem_of_app, list_elem_of_singleton.
    + intros k. by rewrite map_get_set, last_content_snoc, Hget.
Qed.

Lemma map_get_In {V} (k : text) (v : V) (m : list (text * V)) :
  NoDup m.*1 → (k, v) ∈ m → map_get k m = Some v.
Proof.
  induction m as [|[k' v'] m IH]; intros Hnd Hin; [by apply elem_of_nil in Hin|].
  simpl in *. apply NoDup_cons in Hnd as [Hk' Hnd].
  apply elem_of_cons in Hin as [[= -> ->]|Hin].
  - by rewrite text_eqb_refl.
  - rewrite text_eqb_ne; [by apply IH|].
    intros ->. apply Hk'. by apply (list_elem_of_fmap_2 fst _ (k, v)).
Qed.

Lemma map_set_fresh {V} (k : text) (v : V) (m : list (text * V)) :
  k ∉ m.*1 → map_set k v m = m ++ [(k, v)].
Proof.
  induction m as [|[k' v'] m IH]; [done|]. rewrite fmap_cons. cbn [fst].
  intros [Hk Hm]%not_elem_of_cons. cbn [map_set].
  rewrite text_eqb_ne by done. by rewrite IH.
Qed.

Lemma map_set_fresh_all (files : list firmware_file) :
  NoDup (path <$> files) →
  foldl (fun m f => map_set (path f) (content f) m) [] files
  = (fun f => (path f, content f)) <$> files.
Proof.
  induction files as [|f files IH] using rev_ind; [done|].
  rewrite fmap_app. intros [Hnd [Hdisj _]]%NoDup_app.
  rewrite foldl_app, fmap_app, IH by done. simpl.
  apply map_set_fresh. rewrite <- list_fmap_compose.
  intros Hin. apply (Hdisj (path f) Hin). by left.
Qed.

(** X11. After the step that removes duplicates, the paths of the bundle
    are pairwise distinct and are exactly the paths it had; each entry holds
    the content of the last file that had its path, and the folder computed
    from its path. A bundle without duplicates keeps its entries in their
    order. *)
Theorem dedupe_keeps_last (firmwareFiles : list firmware_file) :
  NoDup (path <$> dedupe firmwareFiles) ∧
  (∀ p, p ∈ path <$> dedupe firmwareFiles ↔ p ∈ path <$> firmwareFiles) ∧
  (∀ f, f ∈ dedupe firmwareFiles →
        last_content (path f) firmwareFiles = Some (content f) ∧
        folder f = getFolder (path f)) ∧
  (NoDup (path <$> firmwareFiles) →
   dedupe firmwareFiles
   = (fun f => mkFile (path f) (content f) (getFolder (path f))) <$> firmwareFiles).
Proof.
  destruct (dedupe_map firmwareFiles) as (Hnd & Hkeys & Hget).
  unfold dedupe. cbn zeta in *.
  set (m := foldl _ [] firmwareFiles) in *.
  assert (Hpaths : path <$> ((fun e : text * list Byte.byte =>
                                mkFile e.1 e.2 (getFolder e.1)) <$> m) = m.*1).
  { rewrite <- list_fmap_compose. by apply list_fmap_ext. }
  rewrite Hpaths. split; [done|]. split; [done|]. split.
  - intros f ([k v] & -> & Hin)%list_elem_of_fmap. simpl.
    split; [|done]. rewrite <- Hget. by apply map_get_In.
  - intros Hfresh. unfold m. rewrite map_set_fresh_all by done.
    rewrite <- list_fmap_compose. by apply list_fmap_ext.
Qed.

(** A [Set] of texts, as the list of its values in insertion order. *)
Definition set_add (x : text) (s : list text) : list text :=
  if bool_decide (x ∈ s) then s else s ++ [x].

(** [new Set(xs)] *)
Definition set_of (xs : list text) : list text :=
  foldl (fun s x => set_add x s) [] xs.

(** [xs.sort((a, b) => key(a) - key(b))]: the sort is stable, so the result
    is the one of inserting each element, from the last to the first, in
    front of the first element whose key is not smaller. *)
Fixpoint insert_by (key : text → nat) (x : text) (l : list text) : list text :=
  match l with
  | [] => [x]
  | y :: l' => if key x <=? key y then x :: l else y :: insert_by key x l'
  end.

Definition sort_by (key : text → nat) (l : list text) : list text :=
  foldr (insert_by key) [] l.

(** [a.split('/').length] *)
Definition folder_depth (a : text) : nat := length (split_on slash a).

(** "Create folders first (unique, excluding root)", "sort by depth so
    parents are created before children": the folders in the order in which
    [createFolder] is called for them. *)
Definition upload_folders (firmwareFiles : list firmware_file) : list text :=
  let folderSet :=
    set_of ((fun f => match folder f with [] => [slash] | d => d end)
            <$> firmwareFiles) in
  let folders := filter (fun f => f ≠ [] ∧ f ≠ [slash]) folderSet in
  sort_by folder_depth folders.

(** The bundle a zip file is loaded into: duplicates removed, then the
    version file moved to the end. *)
Definition load_bundle (firmwareFiles : list firmware_file) : list firmware_file :=
  move_version_last (dedupe firmwareFiles).

Lemma set_of_spec (xs : list text) :
  NoDup (set_of xs) ∧ ∀ x, x ∈ set_of xs ↔ x ∈ xs.
Proof.
  unfold set_of. induction xs as [|y xs IH] using rev_ind.
  - split; [constructor | done].
  - rewrite foldl_app. simpl. destruct IH as [Hnd Hin].
    set (s := foldl _ [] xs) in *. unfold set_add.
    case_bool_decide as Hy.
    + split; [done|]. intros x. rewrite elem_of_app, list_elem_of_singleton, <- Hin.
      split; [by left | by intros [?| ->]].
    + split.
      * apply NoDup_app. split; [done|]. split; [|apply NoDup_singleton].
        by intros x Hx ->%list_elem_of_singleton.
      * intros x. by rewrite !elem_of_app, Hin.
Qed.

Lemma insert_by_perm (key : text → nat) (x : text) (l : list text) :
  insert_by key x l ≡ₚ x :: l.
Proof.
  induction l as [|y l IH]; [done|]. simpl.
  destruct (key x <=? key y); [done|]. by rewrite IH, Permutation_swap.
Qed.

Lemma sort_by_perm (key : text → nat) (l : list text) : sort_by key l ≡ₚ l.
Proof.
  induction l as [|x l IH]; [done|]. unfold sort_by in *. simpl.
  by rewrite insert_by_perm, IH.
Qed.

(** Each element is followed only by elements whose key is not smaller. *)
Fixpoint sorted_by (key : text → nat) (l : list text) : Prop :=
  match l with
  | [] => True
  | x :: l' => Forall (fun y => key x ≤ key y) l' ∧ sorted_by key l'
  end.

Lemma insert_by_sorted (key : text → nat) (x : text) (l : list text) :
  sorted_by key l → sorted_by key (insert_by key x l).
Proof.
  induction l as [|y l IH]; [by repeat constructor|].
  intros [Hy Hl]. simpl. destruct (Nat.leb_spec (key x) (key y)) as [Hle|Hgt].
  - simpl. split; [|done]. constructor; [done|].
    eapply Forall_impl; [exact Hy|]. intros z Hz. simpl in Hz. lia.
  - simpl. split; [|by apply IH].
    rewrite insert_by_perm. constructor; [lia | done].
Qed.

Lemma sort_by_sorted (key : text → nat) (l : list text) : sorted_by key (sort_by key l).
Proof.
  induction l as [|x l IH]; [done|]. by apply insert_by_sorted.
Qed.

Lemma sorted_by_lookup (key : text → nat) (l : list text) :
  sorted_by key l →
  ∀ i j a b, i < j → l !! i = Some a → l !! j = Some b → key a ≤ key b.
Proof.
  induction l as [|x l IH]; intros Hs i j a b Hij Ha Hb; [done|].
  destruct Hs as [Hx Hl]. destruct j as [|j]; [lia|]. simpl in Hb.
  destruct i as [|i]; simpl in Ha.
  - injection Ha as ->. rewrite Forall_forall in Hx.
    apply Hx. by eapply list_elem_of_lookup_2.
  - apply (IH Hl i j); [lia|done|done].
Qed.

Lemma folder_depth_child (a rest : text) :
  folder_depth a < folder_depth (a ++ slash :: rest).
Proof.
  unfold folder_depth. rewrite split_on_app, length_app.
  assert (0 < length (split_on slash rest)); [|lia].
  destruct rest as [|c rest]; simpl; [lia|].
  destruct (Ascii.eqb c slash); simpl; [lia|].
  destruct (split_on slash rest); simpl; lia.
Qed.

(** X12. The folders that the upload creates are the folders of the files
    of the bundle, the root and the empty text left out, each one once; a
    folder never comes after a deeper one, so a folder of the list is
    created before every folder of the list below it. *)
Theorem upload_folders_parents_first (firmwareFiles : list firmware_file) :
  let folders := upload_folders firmwareFiles in
  NoDup folders ∧
  (∀ d, d ∈ folders ↔
        d ≠ [] ∧ d ≠ [slash] ∧ ∃ f, f ∈ firmwareFiles ∧ folder f = d) ∧
  (∀ i j a b, i < j → folders !! i = Some a → folders !! j = Some b →
              folder_depth a ≤ folder_depth b) ∧
  (∀ a b rest, a ∈ folders → b ∈ folders → b = a ++ slash :: rest →
               ∃ i j, i < j ∧ folders !! i = Some a ∧ folders !! j = Some b).
Proof.
  cbn zeta. unfold upload_folders.
  set (raw := (fun f => match folder f with [] => [slash] | d => d end)
              <$> firmwareFiles).
  destruct (set_of_spec raw) as [Hnd Hin].
  set (kept := filter (fun f => f ≠ [] ∧ f ≠ [slash]) (set_of raw)).
  assert (Hkept : NoDup kept) by (by apply NoDup_filter).
  assert (Hsorted := sort_by_sorted folder_depth kept).
  assert (Hperm := sort_by_perm folder_depth kept).
  assert (Hnd' : NoDup (sort_by folder_depth kept)) by (by rewrite Hperm).
  assert (Hlook := sorted_by_lookup folder_depth _ Hsorted).
  split; [done|]. split; [|split; [done|]].
  - intros d. rewrite Hperm. unfold kept. rewrite list_elem_of_filter, Hin.
    unfold raw. rewrite list_elem_of_fmap. split.
    + intros ((Hne & Hroot) & f & -> & Hf). split; [done|]. split; [done|].
      exists f. split; [done|]. by destruct (folder f).
    + intros (Hne & Hroot & f & Hf & <-). split; [done|].
      exists f. split; [|done]. by destruct (folder f).
  - intros a b rest Ha Hb ->.
    apply list_elem_of_lookup in Ha as [i Hi]. apply list_elem_of_lookup in Hb as [j Hj].
    exists i, j. split; [|done].
    pose proof (folder_depth_child a rest) as Hd.
    destruct (Nat.lt_trichotomy i j) as [?|[->|Hji]]; [done| |].
    + rewrite Hi in Hj. injection Hj as Hj. rewrite <- Hj in Hd. lia.
    + pose proof (Hlook j i _ _ Hji Hj Hi). lia.
Qed.

(** What the ordering step does to a bundle: nothing without a version
    file; otherwise the first version file goes to the end. *)
Lemma move_version_last_shape (files : list firmware_file) :
  ((VERSION ∉ (path <$> files)) ∧ move_version_last files = files) ∨
  (∃ pre v post,
     files = pre ++ v :: post ∧ path v = VERSION ∧
     (VERSION ∉ (path <$> pre)) ∧
     move_version_last files = (pre ++ post) ++ [v]).
Proof.
  unfold move_version_last, findIndex.
  destruct (findIndex_from_spec (fun f => text_eqb (path f) VERSION) files 0)
    as [(-> & Hall & _)|(pre & v & post & -> & Hv & Hpre & ->)].
  - left. split; [|done]. intros (f & Hp & Hf)%list_elem_of_fmap.
    rewrite Forall_forall in Hall. specialize (Hall f Hf).
    by rewrite <- Hp, text_eqb_refl in Hall.
  - right. exists pre, v, post. apply text_eqb_eq in Hv.
    split; [done|]. split; [done|]. split.
    + intros (f & Hp & Hf)%list_elem_of_fmap.
      rewrite Forall_forall in Hpre. specialize (Hpre f Hf).
      by rewrite <- Hp, text_eqb_refl in Hpre.
    + destruct (Z.eqb_spec (0 + Z.of_nat (length pre)) (-1)) as [?|_]; [lia|].
      cbn [negb].
      replace (Z.to_nat (0 + Z.of_nat (length pre))) with (length pre) by lia.
      unfold splice1. rewrite drop_app_length. cbn [take].
      rewrite take_app_length.
      replace (S (length pre)) with (length (pre ++ [v]))
        by (rewrite length_app; simpl; lia).
      by rewrite (cons_middle v pre post), app_assoc, drop_app_length.
Qed.

(** X13. Loading a zip file gives a bundle whose paths are pairwise
    distinct and are the paths found in the zip; when one of them is
    ['/VERSION'], the entry with that path is the last one and no other
    entry has it; without it, the order is the one after the duplicates
    were removed. *)
Theorem load_bundle_version_last (firmwareFiles : list firmware_file) :
  NoDup (path <$> load_bundle firmwareFiles) ∧
  (∀ p, p ∈ path <$> load_bundle firmwareFiles ↔ p ∈ path <$> firmwareFiles) ∧
  (VERSION ∈ (path <$> firmwareFiles) →
   ∃ init v, load_bundle firmwareFiles = init ++ [v] ∧
             path v = VERSION ∧
             last_content VERSION firmwareFiles = Some (content v) ∧
             VERSION ∉ (path <$> init)) ∧
  (VERSION ∉ (path <$> firmwareFiles) →
   load_bundle firmwareFiles = dedupe firmwareFiles).
Proof.
  destruct (dedupe_map firmwareFiles) as (Hnd0 & Hkeys0 & Hget0).
  assert (Hpaths : path <$> dedupe firmwareFiles
                   = (foldl (fun m f => map_set (path f) (content f) m) []
                        firmwareFiles).*1).
  { unfold dedupe. rewrite <- list_fmap_compose. by apply list_fmap_ext. }
  assert (Hnd : NoDup (path <$> dedupe firmwareFiles)) by (by rewrite Hpaths).
  assert (Hkeys : ∀ p, p ∈ path <$> dedupe firmwareFiles ↔ p ∈ path <$> firmwareFiles).
  { intros p. rewrite Hpaths. apply Hkeys0. }
  assert (Hcontent : ∀ f, f ∈ dedupe firmwareFiles →
                          last_content (path f) firmwareFiles = Some (content f)).
  { intros f ([k v] & -> & Hin)%list_elem_of_fmap. cbn zeta in Hget0. simpl.
    rewrite <- Hget0. by apply map_get_In. }
  unfold load_bundle.
  destruct (move_version_last_shape (dedupe firmwareFiles))
    as [[Hno ->]|(pre & v & post & Hd & Hv & Hpre & ->)].
  - split; [done|]. split; [done|]. split; [|done].
    intros Hin. by apply Hkeys in Hin.
  - rewrite Hd in Hnd, Hkeys, Hcontent.
    assert (Hperm : path <$> (pre ++ post) ++ [v] ≡ₚ path <$> pre ++ v :: post).
    { apply fmap_Permutation. rewrite <- app_assoc.
      apply Permutation_app_head. symmetry. apply Permutation_cons_append. }
    split; [by rewrite Hperm|]. split; [intros p; by rewrite Hperm|].
    split; [|intros Hno; destruct Hno; apply Hkeys; rewrite fmap_app, fmap_cons, Hv;
             apply elem_of_app; right; left].
    intros _. exists (pre ++ post), v. split; [done|]. split; [done|].
    split.
    + rewrite <- Hv. apply Hcontent. apply elem_of_app. right. left.
    + rewrite fmap_app, fmap_cons in Hnd.
      apply NoDup_app in Hnd as (_ & _ & Hnd).
      apply NoDup_cons in Hnd as [Hv' _]. rewrite Hv in Hv'.
      rewrite fmap_app. by intros [?|?]%elem_of_app.
Qed.

Lemma load_bundle_version_last_witness :
  ∃ init v,
    load_bundle [mkFile VERSION [Byte.x31] [slash];
                 mkFile (lit "/main.py") [] [slash];
                 mkFile VERSION [Byte.x32] [slash]] = init ++ [v] ∧
    path v = VERSION ∧ content v = [Byte.x32].
Proof.
  destruct (load_bundle_version_last
              [mkFile VERSION [Byte.x31] [slash];
               mkFile (lit "/main.py") [] [slash];
               mkFile VERSION [Byte.x32] [slash]])
    as (_ & _ & H & _).
  destruct H as (init & v & Hl & Hv & Hc & _).
  - vm_compute. left.
  - exists init, v. split; [done|]. split; [done|].
    vm_compute in Hc. by injection Hc.
Defined.

(** ** Methods called on a session that is waiting, ended or closed *)

Section Edge.

Variable decode : list Byte.byte → text.
Variable dev : Type.
Variable respond : text → dev → dev * list read_result.

Lemma read_settles_settled (s : session) (r : read_result) (q : nat) (v : settlement) :
  promises s !! q = Some v → v ≠ Pending →
  promises (read_settles decode s r) !! q = Some v.
Proof.
  intros Hq Hv. unfold read_settles. destruct (loop s); try done.
  destruct r; try done.
  - by apply onData_settled.
  - unfold notify. simpl. by destruct (onDisconnect s).
Qed.

Lemma await_promise_settled (p q : nat) (v : settlement) (inc : list read_result) :
  ∀ s, promises s !! q = Some v → v ≠ Pending →
       promises (await_promise decode p inc s).1.2 !! q = Some v.
Proof.
  induction inc as [|r inc IH]; intros s Hq Hv; simpl.
  - by destruct (promises s !! p) as [[]|].
  - destruct (promises s !! p) as [[]|]; try done;
      (apply IH; [by apply read_settles_settled | done]).
Qed.

(** A wait that is registered is fulfilled or stays pending: [await] on its
    promise does not throw. *)
Lemma await_promise_no_throw (m : text) (p : nat) (inc : list read_result) :
  ∀ buf s e, waiting m p buf s → (await_promise decode p inc s).1.1 ≠ Threw e.
Proof.
  induction inc as [|r inc IH]; intros buf s e Hw;
    pose proof (w_pending _ _ _ _ Hw) as Hp; simpl; rewrite Hp; [done|].
  destruct (decide (loop s = LoopReading)) as [Hl|Hl]; last first.
  { assert (read_settles decode s r = s) as ->; [|by eapply IH].
    unfold read_settles. by destruct (loop s). }
  destruct r as [value| |].
  - assert (read_settles decode s (RChunk value) = onData decode (Bytes value) s) as ->.
    { unfold read_settles. by rewrite Hl. }
    destruct (negb (indexOf (buf ++ decode value) m =? -1)%Z) eqn:Htest.
    + apply indexOf_test in Htest.
      destruct (onData_complete decode m p buf (Bytes value) s Hw Htest) as (Hps & _).
      assert (Hful : promises (onData decode (Bytes value) s) !! p
                     = Some (Fulfilled (buf ++ decode value))).
      { rewrite Hps. apply list_lookup_insert_eq. by apply lookup_lt_Some in Hp. }
      destruct inc; simpl; by rewrite Hful.
    + apply indexOf_test_false in Htest.
      destruct (onData_accumulate decode m p buf (Bytes value) s Hw Htest) as [Hw' _].
      by eapply IH.
  - rewrite await_promise_dead; [done| |].
    + unfold read_settles. by rewrite Hl.
    + unfold read_settles, notify. rewrite Hl. simpl. by destruct (onDisconnect s).
  - rewrite await_promise_dead; [done| |].
    + unfold read_settles. by rewrite Hl.
    + unfold read_settles. by rewrite Hl.
Qed.

Lemma write_nowait_sess (str : text) (w : world dev) :
  (write_nowait dev respond str w).1 = Done tt ∧
  sess (write_nowait dev respond str w).2 = sess w.
Proof.
  unfold write_nowait, send. destruct (writer (sess w)) as [[]|]; try done.
  by destruct (respond str (device w)).
Qed.

(** With the read loop ended, a method that waits for the device never
    returns. *)
Lemma readUntil_await_blocked (m : text) (w : world dev) :
  loop (sess w) ≠ LoopReading → readingUntil (sess w) = None →
  (readUntil_await decode dev m w).1 = Blocked.
Proof.
  intros Hl Hidle. unfold readUntil_await, await.
  destruct (readUntil_idle m (sess w) Hidle) as (Hw & Hp & _).
  pose proof (loop_readUntil m (sess w)) as Hl1.
  destruct (readUntil m (sess w)) as [s1 p] eqn:Hru. simpl in *. subst p.
  pose proof (await_promise_dead decode (length (promises (sess w))) (incoming w) s1)
    as Hdead.
  destruct (await_promise _ _ _ _) as [[r s2] inc2]. simpl in *.
  apply Hdead; [congruence | apply (w_pending _ _ _ _ Hw)].
Qed.

Lemma handshake_blocked (str m : text) (w : world dev) :
  loop (sess w) ≠ LoopReading → readingUntil (sess w) = None →
  (bind dev (write_nowait dev respond str)
     (fun _ => bind dev (readUntil_await decode dev m) (fun _ => ret dev tt)) w).1
  = Blocked.
Proof.
  intros Hl Hidle. unfold bind at 1.
  destruct (write_nowait_sess str w) as [Hr Hs].
  destruct (write_nowait dev respond str w) as [r w1]. simpl in *. subst r.
  unfold bind.
  pose proof (readUntil_await_blocked m w1) as Hb. rewrite Hs in Hb.
  destruct (readUntil_await decode dev m w1) as [r w2]. simpl in *.
  by rewrite (Hb Hl Hidle).
Qed.

Lemma executeRaw_unlocked (code : text) (w : world dev) :
  writer (sess w) ≠ Some true →
  executeRaw decode dev respond code w = (Threw (Error msg_type_error), w).
Proof.
  intros Hw. rewrite executeRaw_unroll.
  assert (Hsend : ∀ str, send dev respond str w = (Threw (Error msg_type_error), w)).
  { intros str. unfold send. by destruct (writer (sess w)) as [[]|]. }
  destruct (pieces 128 code) as [|c cs]; unfold bind at 1; simpl.
  - unfold write, bind. by rewrite Hsend.
  - unfold bind at 1. unfold bind at 1. unfold write, bind. by rewrite Hsend.
Qed.

(** X14. After [close()] on a live session the read loop has ended, the
    writer is released and the port is closed. A method called then does
    not fail cleanly: [getPrompt], [enterRawRepl] and [exitRawRepl] wait for
    ever, since their write is not awaited and its failure is lost, and
    [executeRaw] throws [TypeError] from its first write, without anything
    being sent. *)
Theorem methods_after_close (s : session) (code : text) (w : world dev) :
  reader s = Some true → writer s = Some true → loop s = LoopReading →
  readingUntil s = None →
  sess w = close decode s →
  loop (sess w) = LoopEnded ∧ writer (sess w) = Some false ∧
  isConnected (sess w) = false ∧ portOpen (sess w) = false ∧
  (getPrompt decode dev respond w).1 = Blocked ∧
  out (getPrompt decode dev respond w).2 = out w ∧
  (enterRawRepl decode dev respond w).1 = Blocked ∧
  (exitRawRepl decode dev respond w).1 = Blocked ∧
  executeRaw decode dev respond code w = (Threw (Error msg_type_error), w).
Proof.
  intros Hr Hw Hl Hidle Hs.
  assert (Hclose : loop (close decode s) = LoopEnded ∧
                   writer (close decode s) = Some false ∧
                   isConnected (close decode s) = false ∧
                   portOpen (close decode s) = false ∧
                   readingUntil (close decode s) = None).
  { clear Hs. destruct s as [rd wr rb ru res rej ic od ps nt lp li po].
    simpl in *. subst. unfold close, read_settles, notify. simpl.
    by destruct od. }
  rewrite <- Hs in Hclose. destruct Hclose as (Hl' & Hw' & Hc' & Hp' & Hi').
  do 4 (split; [done|]).
  assert (Hdead : loop (sess w) ≠ LoopReading) by (by rewrite Hl').
  split; [|split; [|split; [by apply handshake_blocked|
                     split; [by apply handshake_blocked|]]]].
  - unfold getPrompt. unfold bind at 1. unfold with_sess, interrupt_wait.
    rewrite Hi'. cbn [truthy_text]. apply handshake_blocked; simpl; done.
  - unfold getPrompt. unfold bind at 1. unfold with_sess, interrupt_wait.
    rewrite Hi'. cbn [truthy_text]. unfold bind at 1.
    unfold write_nowait, send. cbn [sess]. rewrite Hw'.
    unfold bind, readUntil_await, await. cbn [sess incoming].
    destruct (readUntil PROMPT (sess w)) as [s1 p].
    destruct (await_promise _ _ _ _) as [[r s2] inc2]. by destruct r.
  - apply executeRaw_unlocked. by rewrite Hw'.
Qed.

(** X15. When [getPrompt] is called while a wait for a non-empty marker is
    outstanding, the promise of that wait is rejected with the interrupt
    message and stays so, and [getPrompt] goes on with a wait of its own: it
    does not throw. A wait for the empty marker is not interrupted (the test
    is on the truthiness of the marker): [getPrompt] then throws the
    "already running" error, and the old wait stays pending. *)
Theorem getPrompt_interrupts_wait (m : text) (p : nat) (buf : text) (w : world dev) :
  waiting m p buf (sess w) →
  match m with
  | _ :: _ =>
      promises (sess (getPrompt decode dev respond w).2) !! p
      = Some (Rejected (Error (lit "Interrupt execution to get prompt"))) ∧
      ∀ e, (getPrompt decode dev respond w).1 ≠ Threw e
  | [] =>
      (getPrompt decode dev respond w).1 = Threw (Error msg_already_running) ∧
      promises (sess (getPrompt decode dev respond w).2) !! p = Some Pending ∧
      readingUntil (sess (getPrompt decode dev respond w).2) = Some []
  end.
Proof.
  intros Hw. destruct Hw as [Hu Hb Hres Hrej Hp].
  destruct (getPrompt decode dev respond w) as [res wres] eqn:Hrun.
  cbn [fst snd].
  unfold getPrompt in Hrun. unfold bind at 1 in Hrun.
  unfold with_sess, interrupt_wait in Hrun.
  cbn [sess device incoming schedule out] in Hrun. rewrite Hu in Hrun.
  destruct m as [|c m]; cbn [truthy_text] in Hrun.
  - set (w0 := mkWorld _ _ _ _ _) in Hrun.
    unfold bind at 1 in Hrun.
    destruct (write_nowait_sess (CTRL_C ++ CTRL_B) w0) as [Hr Hs].
    destruct (write_nowait dev respond (CTRL_C ++ CTRL_B) w0) as [r w1].
    simpl in Hr, Hs. subst r.
    unfold bind, readUntil_await, await, readUntil in Hrun. rewrite Hs, Hu in Hrun.
    cbn [new_promise fst snd with_sess sess incoming] in Hrun.
    set (s1 := set_promises _ _) in Hrun.
    assert (Hq : promises s1 !! length (promises (sess w))
                 = Some (Rejected (Error msg_already_running))).
    { unfold s1. simpl. by rewrite lookup_app_r, Nat.sub_diag. }
    assert (Haw : await_promise decode (length (promises (sess w))) (incoming w1) s1
                  = (Threw (Error msg_already_running), s1, incoming w1)).
    { destruct (incoming w1); cbn [await_promise]; by rewrite Hq. }
    rewrite Haw in Hrun. injection Hrun as <- <-. cbn [sess].
    split; [done|]. split; [|done].
    unfold s1. simpl. by rewrite lookup_app_l by (by eapply lookup_lt_Some).
  - rewrite Hrej in Hrun. cbn [call_resolve] in Hrun.
    set (s0 := settle p _ _) in Hrun.
    assert (Hs0 : promises s0 !! p
                  = Some (Rejected (Error (lit "Interrupt execution to get prompt")))).
    { unfold s0, settle. simpl. rewrite Hp. simpl.
      apply list_lookup_insert_eq. by eapply lookup_lt_Some. }
    assert (Hidle : readingUntil s0 = None).
    { unfold s0, settle. simpl. by rewrite Hp. }
    set (w0 := mkWorld s0 _ _ _ _) in Hrun.
    unfold bind at 1 in Hrun.
    destruct (write_nowait_sess (CTRL_C ++ CTRL_B) w0) as [Hr Hs].
    destruct (write_nowait dev respond (CTRL_C ++ CTRL_B) w0) as [r w1].
    simpl in Hr, Hs. subst r.
    unfold bind, readUntil_await, await in Hrun.
    destruct (readUntil_idle PROMPT (sess w1)) as (Hwait & Hq & Hps);
      [by rewrite Hs|].
    destruct (readUntil PROMPT (sess w1)) as [s1 q] eqn:Hru. simpl in Hwait, Hq, Hps.
    rewrite <- Hq in Hwait.
    cbn [with_sess sess incoming] in Hrun.
    assert (H1 : promises s1 !! p
                 = Some (Rejected (Error (lit "Interrupt execution to get prompt")))).
    { rewrite Hps, Hs. rewrite lookup_app_l by (by eapply lookup_lt_Some). done. }
    pose proof (await_promise_settled q p _ (incoming w1) s1 H1 ltac:(done)) as Hkeep.
    pose proof (await_promise_no_throw PROMPT q (incoming w1) [] s1) as Hno.
    destruct (await_promise decode q (incoming w1) s1) as [[r s2] inc2].
    simpl in Hkeep, Hno. split.
    + destruct r; unfold ret in Hrun; injection Hrun as <- <-; done.
    + intros e.
      destruct r as [a|e0|]; unfold ret in Hrun; injection Hrun as <- <-;
        [done | by destruct (Hno e0 Hwait) | done].
Qed.

End Edge.

(** A wrapper after [init()] and [close()], and one that waits for ["x"]. *)
Definition closed_world : world mpy :=
  mkWorld (close decode_ascii (sess (connected raw_device))) raw_device [] [] [].

Definition waiting_world : world mpy :=
  mkWorld (readUntil ["x"%char] (sess (connected raw_device))).1 raw_device [] [] [].

Lemma methods_after_close_witness :
  (getPrompt decode_ascii mpy mpy_respond closed_world).1 = Blocked ∧
  executeRaw decode_ascii mpy mpy_respond close_command closed_world
  = (Threw (Error msg_type_error), closed_world).
Proof.
  assert (Hs : sess closed_world = close decode_ascii (sess (connected raw_device)))
    by (unfold closed_world; cbn [sess]; reflexivity).
  destruct (methods_after_close decode_ascii mpy mpy_respond
              (sess (connected raw_device)) close_command closed_world)
    as (_ & _ & _ & _ & H1 & _ & _ & _ & H2);
    [vm_compute; reflexivity | vm_compute; reflexivity | vm_compute; reflexivity
    | vm_compute; reflexivity | exact Hs |].
  split; [exact H1 | exact H2].
Defined.

Lemma getPrompt_interrupts_wait_witness :
  promises (sess (getPrompt decode_ascii mpy mpy_respond waiting_world).2) !! 0
  = Some (Rejected (Error (lit "Interrupt execution to get prompt"))).
Proof.
  pose proof (getPrompt_interrupts_wait decode_ascii mpy mpy_respond
                ["x"%char] 0 [] waiting_world) as H.
  cbv iota in H. apply H. constructor; vm_compute; reflexivity.
Defined.

(** ** The helper routines of [HELPER_CODE] on every tree *)

Lemma sample_fs_wf : wf_node sample_fs.
Proof.
  unfold sample_fs.
  repeat first
    [ apply wf_File
    | apply wf_Dir; [compute_done|]
    | apply Forall_nil_2
    | apply Forall_cons; split; [split; [split; [done|compute_done]|]|] ].
Qed.

(** X16. [get_all_files(path, array_of_files)] on a directory of a
    well-formed file system, within the recursion limit: it does not raise,
    and it returns the list it was given followed by the entries below
    [path] in discovery order, each entry before what it contains. What
    the list held before is kept: the default list, which all calls without
    a second argument share, grows from call to call. *)
Theorem get_all_files_appends_listing (n : node) (limit : nat) (root : node)
    (path : text) (array_of_files : list file_entry) :
  wf_node n →
  depth n ≤ limit →
  resolve root (segments path) = Some n →
  is_file n = false →
  get_all_files limit root path array_of_files
  = (array_of_files ++ listing path n, None).
Proof. intros Hwf Hd Hres Hf. by apply get_all_files_listing. Qed.

Lemma get_all_files_appends_listing_witness :
  get_all_files 16 sample_fs [] [mkEntry (lit "/old") TypeFile]
  = ([mkEntry (lit "/old") TypeFile] ++ listing [] sample_fs, None).
Proof.
  apply get_all_files_appends_listing;
    [apply sample_fs_wf | vm_compute; lia | reflexivity | reflexivity].
Defined.

(** X17. [delete_folder(path)] of [HELPER_CODE], run right after the helper
    was loaded, on a directory other than the root of a well-formed file
    system and within the recursion limit: it returns normally, having
    called [os.remove] on the files below the directory in discovery order,
    then [os.rmdir] on the folders below it in reverse discovery order,
    then [os.rmdir] on the directory; none of the calls failed, and the file
    system is the one without the directory. *)
Theorem delete_folder_removes_directory
    (limit : nat) (path : text) (root : node) (es : list (text * node))
    (cl : list os_call) :
  wf_node root →
  resolve root (segments path) = Some (Dir es) →
  segments path ≠ [] →
  depth (Dir es) ≤ limit →
  ∃ root',
    delete_node root (segments path) = Some root' ∧
    delete_folder limit path (mkPy root [] cl)
    = (mkPy root' (listing path (Dir es))
         (cl ++ remove_calls (listing path (Dir es))
             ++ rmdir_calls (reverse (listing path (Dir es)))
             ++ [CallRmdir path]),
       None).
Proof. intros Hwf Hres Hne Hd. by apply delete_folder_removes_tree. Qed.

Lemma delete_folder_removes_directory_witness :
  ∃ root',
    delete_node sample_fs [lit "lib"] = Some root' ∧
    delete_folder 16 (lit "/lib") (mkPy sample_fs [] [])
    = (mkPy root'
         [mkEntry (lit "/lib/a.py") TypeFile; mkEntry (lit "/lib/sub") TypeFolder;
          mkEntry (lit "/lib/sub/b.py") TypeFile]
         [CallRemove (lit "/lib/a.py"); CallRemove (lit "/lib/sub/b.py");
          CallRmdir (lit "/lib/sub"); CallRmdir (lit "/lib")],
       None).
Proof.
  destruct (delete_folder_removes_directory 16 (lit "/lib") sample_fs
              [(lit "a.py", File []); (lit "sub", Dir [(lit "b.py", File [])])] [])
    as (root' & Hdel & Hrun);
    [apply sample_fs_wf | reflexivity | vm_compute; congruence | vm_compute; lia |].
  exists root'. split; [exact Hdel | exact Hrun].
Defined.

(** X18. [delete_folder(path)] of the helper that the wrapper inside the
    earlier [usb.ts] loads (the last statement is guarded by
    [path != '/'] and by [try: ... except OSError: pass]), on any directory
    of a well-formed file system within the recursion limit: it never
    raises. It removes everything below the directory; on ['/'] it makes no
    call on the root, and on another path it calls [os.rmdir] on it, which
    removes the directory, or fails unseen when the path has no segment. *)
Theorem delete_folder_guarded_never_raises
    (limit : nat) (path : text) (root : node) (es : list (text * node))
    (cl : list os_call) :
  wf_node root →
  resolve root (segments path) = Some (Dir es) →
  depth (Dir es) ≤ limit →
  delete_folder_guarded limit path (mkPy root [] cl)
  = (mkPy (default (Dir []) (delete_node root (segments path)))
       (listing path (Dir es))
       (cl ++ remove_calls (listing path (Dir es))
           ++ rmdir_calls (reverse (listing path (Dir es)))
           ++ (if text_eqb path [slash] then [] else [CallRmdir path])),
     None).
Proof.
  intros Hwf Hres Hdepth.
  assert (Hwft : wf_node (Dir es)) by (by eapply wf_node_resolve).
  unfold delete_folder_guarded. simpl.
  rewrite (get_all_files_listing (Dir es) Hwft limit root path [] Hdepth Hres eq_refl).
  simpl.
  rewrite (remove_files_listing (Dir es) Hwft root path _ cl Hres).
  rewrite (remove_folders_listing (Dir es) Hwft _ path); [|by eapply resolve_replace_at|done].
  rewrite replace_at_replace_at.
  assert (Hroot : segments path = [] →
                  replace_at root (segments path) (Dir []) = Dir [] ∧
                  delete_node root (segments path) = None).
  { intros ->. split; [done|]. by destruct root. }
  destruct (text_eqb path [slash]) eqn:Hp; cbn [negb].
  - apply text_eqb_eq in Hp. subst path.
    destruct (Hroot eq_refl) as [-> ->]. simpl. by rewrite <- !app_assoc, app_nil_r.
  - unfold rmdir_stmt, os_rmdir. cbn [fs default_array calls].
    destruct (decide (segments path = [])) as [Hs|Hs].
    + destruct (Hroot Hs) as [-> ->]. rewrite Hs. simpl. by rewrite <- !app_assoc.
    + destruct (remove_at_emptied root (segments path) (Dir es) Hs Hres)
        as [Hlast [root' Hroot']].
      rewrite Hlast, Hroot'. simpl. by rewrite <- !app_assoc.
Qed.

Lemma delete_folder_guarded_never_raises_witness :
  delete_folder_guarded 16 [slash] (mkPy sample_fs [] [])
  = (mkPy (Dir []) (listing [slash] sample_fs)
       [CallRemove (lit "//main.py"); CallRemove (lit "//lib/a.py");
        CallRemove (lit "//lib/sub/b.py"); CallRemove (lit "//VERSION");
        CallRmdir (lit "//lib/sub"); CallRmdir (lit "//lib")],
     None).
Proof.
  pose proof (delete_folder_guarded_never_raises 16 [slash] sample_fs
                [(lit "main.py", File []);
                 (lit "lib", Dir [(lit "a.py", File []);
                                  (lit "sub", Dir [(lit "b.py", File [])])]);
                 (lit "VERSION", File [])] []
                sample_fs_wf eq_refl ltac:(vm_compute; lia)) as H.
  rewrite H. vm_compute. reflexivity.
Defined.

(** ** The methods that run one command *)

Section Commands.

Variable decode : list Byte.byte → text.
Variable dev : Type.
Variable respond : text → dev → dev * list read_result.

(** Prompt, raw mode, one command, back to the prompt: when the device
    answers the three handshakes and runs the command, whatever the text of
    its answer, the sequence returns, and it has written the handshakes and
    the command. *)
Lemma command_sequence_returns (command : text) (s : session)
    (d d1 d2 d3 d4 : dev) (o : list action) :
  standing s →
  answers decode dev respond [chr 3; chr 2] (lit ">>>") d d1 →
  answers decode dev respond [chr 1] (lit "raw REPL; CTRL-B to exit") d1 d2 →
  runs decode dev respond command d2 d3 →
  answers decode dev respond [chr 2] (lit ">>>") d3 d4 →
  ∃ s' o', standing s' ∧
    bind dev (getPrompt decode dev respond) (fun _ =>
      bind dev (enterRawRepl decode dev respond) (fun _ =>
        bind dev (executeRaw decode dev respond command) (fun _ =>
          exitRawRepl decode dev respond)))
      (mkWorld s d [] [] o)
    = (Done tt, mkWorld s' d4 [] [] o') ∧
    quiet o' = quiet o ++ [Wrote [chr 3; chr 2]; Wrote [chr 1]]
                       ++ exec_trace command ++ [Wrote [chr 2]].
Proof.
  intros Hs (v1 & Hr1 & Hc1) H2 H3 H4.
  destruct (getPrompt_returns decode dev respond s d d1 v1 o Hs Hr1 Hc1)
    as (s1 & Hs1 & E1).
  set (o1 := o ++ [Wrote (CTRL_C ++ CTRL_B)]) in *.
  destruct (handshake_answered decode dev respond _ _ s1 d1 d2 o1 Hs1 H2)
    as (s2 & Hs2 & E2).
  destruct (executeRaw_runs decode dev respond _ s2 d2 d3 (o1 ++ [Wrote [chr 1]]) Hs2 H3)
    as (s3 & r3 & o3 & Hs3 & E3).
  destruct (handshake_answered decode dev respond _ _ s3 d3 d4 o3 Hs3 H4)
    as (s4 & Hs4 & E4).
  assert (Hrun :
    bind dev (getPrompt decode dev respond) (fun _ =>
      bind dev (enterRawRepl decode dev respond) (fun _ =>
        bind dev (executeRaw decode dev respond command) (fun _ =>
          exitRawRepl decode dev respond)))
      (mkWorld s d [] [] o)
    = (Done tt, mkWorld s4 d4 [] [] (o3 ++ [Wrote [chr 2]]))).
  { unfold bind at 1. rewrite E1.
    unfold bind at 1.
    change (enterRawRepl decode dev respond)
      with (bind dev (write_nowait dev respond [chr 1]) (fun _ =>
              bind dev (readUntil_await decode dev (lit "raw REPL; CTRL-B to exit"))
                (fun _ => ret dev tt))).
    rewrite E2.
    unfold bind at 1. rewrite E3. exact E4. }
  exists s4, (o3 ++ [Wrote [chr 2]]). split; [done|]. split; [exact Hrun|].
  eapply (performs_bind dev (getPrompt decode dev respond) _
            [Wrote (CTRL_C ++ CTRL_B)]
            ([Wrote CTRL_A] ++ exec_trace command ++ [Wrote CTRL_B])) in Hrun;
    [exact (proj1 Hrun) | apply performs_getPrompt | | exact (proj1 Hs)].
  intros _. apply performs_bind; [apply performs_enterRawRepl|]. intros _.
  apply performs_bind; [apply performs_executeRaw|]. intros _.
  apply performs_exitRawRepl.
Qed.

(** X19. [createFolder], [createFile] and [removeFile] send one command
    between the handshakes and do not look at what the device answers to
    it: on a standing session, when the device answers the handshakes and
    answers the command with any text that ends the command (the result,
    or the text of an exception), the method returns normally, having
    written the interrupt and the prompt request, the raw-mode request, the
    command in chunks followed by [0x04], and the request to leave raw
    mode. *)
Theorem command_methods_return (path : text) (s : session) (d d1 d2 d4 : dev)
    (o : list action) :
  standing s →
  answers decode dev respond [chr 3; chr 2] (lit ">>>") d d1 →
  answers decode dev respond [chr 1] (lit "raw REPL; CTRL-B to exit") d1 d2 →
  let returns (command : text) (method : M dev unit) :=
    ∀ d3,
      runs decode dev respond command d2 d3 →
      answers decode dev respond [chr 2] (lit ">>>") d3 d4 →
      ∃ s' o', standing s' ∧
        method (mkWorld s d [] [] o) = (Done tt, mkWorld s' d4 [] [] o') ∧
        quiet o' = quiet o ++ [Wrote [chr 3; chr 2]; Wrote [chr 1]]
                           ++ exec_trace command ++ [Wrote [chr 2]] in
  returns (lit "import os;os.mkdir('" ++ path ++ lit "')")
    (createFolder decode dev respond path) ∧
  returns (lit "f=open('" ++ path ++ lit "', 'w');f.close()")
    (createFile decode dev respond path) ∧
  returns (removeFile_command path) (removeFile decode dev respond path).
Proof.
  intros Hs H1 H2 returns.
  repeat split; intros d3 H3 H4;
    exact (command_sequence_returns _ s d d1 d2 d3 d4 o Hs H1 H2 H3 H4).
Qed.

End Commands.

Lemma command_methods_return_witness :
  ∃ s' o', standing s' ∧
    createFolder decode_ascii mpy mpy_respond (lit "/lib")
      (connected (mpy_boot (Dir []) []))
    = (Done tt, mkWorld s' (mpy_boot (Dir []) []) [] [] o') ∧
    quiet o' = [Wrote [chr 3; chr 2]; Wrote [chr 1]]
               ++ exec_trace (lit "import os;os.mkdir('/lib')") ++ [Wrote [chr 2]].
Proof.
  destruct (command_methods_return decode_ascii mpy mpy_respond (lit "/lib")
              (sess (connected (mpy_boot (Dir []) []))) (mpy_boot (Dir []) [])
              (mpy_boot (Dir []) [])
              (mpy_respond [chr 1] (mpy_boot (Dir []) [])).1
              (mpy_boot (Dir []) []) [])
    as (H & _ & _).
  - repeat split.
  - exists (dev_answer [chr 3; chr 2] (mpy_boot (Dir []) [])).
    split; [vm_compute; reflexivity|].
    exists crlf, (lit " " ++ friendly_banner). vm_compute. reflexivity.
  - exists (dev_answer [chr 1] (mpy_boot (Dir []) [])).
    split; [vm_compute; reflexivity|].
    exists [], (crlf ++ lit ">"). vm_compute. reflexivity.
  - apply (H (dev_step (lit "import os;os.mkdir('/lib')")
                (mpy_respond [chr 1] (mpy_boot (Dir []) [])).1)).
    + eexists _, (dev_answer [chr 4]
                    (mpy_respond (lit "import os;os.mkdir('/lib')")
                       (mpy_respond [chr 1] (mpy_boot (Dir []) [])).1).1).
      split; [|split].
      * vm_compute. eexists. split; reflexivity.
      * vm_compute. reflexivity.
      * exists (lit "OK" ++ [chr 4] ++ exception_text SyntaxError), [].
        vm_compute. reflexivity.
    + eexists. split; [vm_compute; reflexivity|].
      exists (crlf ++ lit "MicroPython; badge with RP2040" ++ crlf), (lit " ").
      vm_compute. reflexivity.
Defined.

(** ** [removeFolder] on the device *)






(** ** The path literal of [uploadFile] *)

Lemma py_squoted_escape_quotes (path tail : text) :
  plain_path path →
  py_squoted (escape_quotes path ++ tail)
  = match py_squoted tail with
    | Some (v, rest) => Some (path ++ v, rest)
    | None => None
    end.
Proof.
  intros [Hb Hn].
  induction path as [|c path IH]; [simpl; by destruct (py_squoted tail) as [[]|]|].
  apply not_elem_of_cons in Hb as [Hcb Hb].
  apply not_elem_of_cons in Hn as [Hcn Hn].
  specialize (IH Hb Hn). rewrite escape_quotes_cons, <- app_assoc.
  destruct (Ascii.eqb_spec c squote) as [->|Hq].
  - change ([backslash; squote] ++ ?x) with (backslash :: squote :: x).
    rewrite py_squoted_escaped_quote, IH. by destruct (py_squoted tail) as [[]|].
  - change ([c] ++ ?x) with (c :: x).
    rewrite py_squoted_plain, IH by done. by destruct (py_squoted tail) as [[]|].
Qed.

(** X21. [uploadFile] replaces every quote of its path by backslash-quote
    and nothing else. For every path without backslash and line break the
    literal in the command it generates denotes the path itself, quotes
    included, and the command goes on as written. A backslash is not
    escaped: for a path that ends in one, the backslash takes the closing
    quote of the literal with it, and the literal runs on to the next
    quote of the command. *)
Theorem uploadFile_literal_denotes_path (path : text) :
  plain_path path →
  uploadFile_command path
  = lit "f=open('" ++ escape_quotes path ++ lit "','wb')" ++ nl ++ lit "w=f.write" ∧
  py_squoted (drop 8 (uploadFile_command path))
  = Some (path, lit ",'wb')" ++ nl ++ lit "w=f.write") ∧
  py_squoted (drop 8 (uploadFile_command (path ++ [backslash])))
  = Some (path ++ lit "',", lit "wb')" ++ nl ++ lit "w=f.write").
Proof.
  intros Hp. split; [done|]. split.
  - change (drop 8 (uploadFile_command path))
      with (escape_quotes path ++ squote :: lit ",'wb')" ++ nl ++ lit "w=f.write").
    rewrite (py_squoted_escape_quotes _ _ Hp). simpl. by rewrite app_nil_r.
  - assert (Hesc : escape_quotes (path ++ [backslash]) = escape_quotes path ++ [backslash]).
    { unfold escape_quotes. by rewrite fmap_app, concat_app. }
    change (drop 8 (uploadFile_command (path ++ [backslash])))
      with (escape_quotes (path ++ [backslash])
            ++ squote :: lit ",'wb')" ++ nl ++ lit "w=f.write").
    rewrite Hesc, <- app_assoc. by rewrite (py_squoted_escape_quotes _ _ Hp).
Qed.

Lemma uploadFile_literal_denotes_path_witness :
  py_squoted (drop 8 (uploadFile_command (lit "/it's")))
  = Some (lit "/it's", lit ",'wb')" ++ nl ++ lit "w=f.write").
Proof.
  destruct (uploadFile_literal_denotes_path (lit "/it's")) as (_ & H & _);
    [split; compute_done | exact H].
Defined.

(** ** [uploadFileFromBase64] *)

Lemma atob_same_characters (a b : text) :
  filter (fun c => is_ascii_whitespace c = false) a
  = filter (fun c => is_ascii_whitespace c = false) b →
  atob a = atob b.
Proof. intros H. unfold atob. cbv zeta. by rewrite H. Qed.

(** [atob] undoes the standard encoding. *)
Lemma atob_b64_encode (content : list Byte.byte) :
  atob (b64_encode (Byte.to_nat <$> content)) = Some (ascii_of_byte <$> content).
Proof.
  rewrite <- atob_b2a_base64. apply atob_same_characters.
  destruct (cooked_b2a_base64 content) as (s & -> & -> & _).
  rewrite b64_encode_sextets, app_assoc, !filter_app.
  change (filter _ [chr 13; chr 10]) with (@nil ascii).
  by rewrite app_nil_r.
Qed.

Section FromBase64.

Variable decode : list Byte.byte → text.
Variable dev : Type.
Variable respond : text → dev → dev * list read_result.

Definition uploadFileFromBase64 (path base64 : text) : M dev unit :=
  bind dev (atob_or_throw dev base64) (fun decoded =>
    let content := byte_of_ascii <$> decoded in
    uploadFile decode dev respond path content).

(** X22. [uploadFileFromBase64(path, base64)] is [uploadFile] of the bytes
    that [base64] encodes: given the standard encoding of [content], padded,
    it does exactly what [uploadFile(path, content)] does. Given a text
    that [atob] refuses, it throws before anything is sent to the device. *)
Theorem uploadFileFromBase64_uploads_decoded (path : text) :
  (∀ content,
     uploadFileFromBase64 path (b64_encode (Byte.to_nat <$> content))
     = uploadFile decode dev respond path content) ∧
  (∀ base64 w,
     atob base64 = None →
     uploadFileFromBase64 path base64 w = (Threw (Error msg_invalid_character), w)).
Proof.
  split.
  - intros content. unfold uploadFileFromBase64, bind, atob_or_throw.
    rewrite atob_b64_encode. cbv zeta.
    rewrite <- list_fmap_compose.
    rewrite (list_fmap_ext _ id content); [by rewrite list_fmap_id|].
    intros i b _. apply byte_of_ascii_of_byte.
  - intros base64 w H. unfold uploadFileFromBase64, bind, atob_or_throw.
    by rewrite H.
Qed.

End FromBase64.

Lemma uploadFileFromBase64_uploads_decoded_witness :
  uploadFileFromBase64 decode_ascii mpy mpy_respond (lit "/f") (lit "QUJD=")
    (connected raw_device)
  = (Threw (Error msg_invalid_character), connected raw_device) ∧
  uploadFileFromBase64 decode_ascii mpy mpy_respond (lit "/f") (lit "QUI=")
  = uploadFile decode_ascii mpy mpy_respond (lit "/f") [Byte.x41; Byte.x42].
Proof.
  destruct (uploadFileFromBase64_uploads_decoded decode_ascii mpy mpy_respond (lit "/f"))
    as [Hok Hbad].
  split.
  - apply Hbad. vm_compute. reflexivity.
  - exact (Hok [Byte.x41; Byte.x42]).
Defined.

(** ** The folder helper of the earlier wrapper: [mkdirs]

    The wrapper inside the earlier [usb.ts] creates a folder with a helper
    of its own that also creates the missing parents. *)

(** [uos.mkdir(path)]: [None] stands for [OSError] (the entry exists, the
    parent is missing or is a file, or the path is the root). *)
Fixpoint mkdir_at (n : node) (segs : list text) : option node :=
  match n, segs with
  | Dir es, [name] =>
      match lookup_entry name es with
      | Some _ => None
      | None => Some (Dir (es ++ [(name, Dir [])]))
      end
  | Dir es, name :: segs' =>
      match lookup_entry name es with
      | Some c =>
          match mkdir_at c segs' with
          | Some c' => Some (Dir (replace_entry name c' es))
          | None => None
          end
      | None => None
      end
  | _, _ => None
  end.

Definition os_mkdir (st : node) (path : text) : option node :=
  mkdir_at st (segments path).

(** The loop of [mkdirs]: [cur += '/' + part], then [uos.mkdir(cur)] with
    [OSError] ignored. *)
Fixpoint mkdirs_loop (parts : list text) (cur : text) (st : node) : node :=
  match parts with
  | [] => st
  | part :: parts' =>
      let cur := cur ++ [slash] ++ part in
      let st := match os_mkdir st cur with
                | Some st' => st'
                | None => st
                end in
      mkdirs_loop parts' cur st
  end.

(** [mkdirs(p)] *)
Definition mkdirs (p : text) (st : node) : node :=
  let parts := filter (fun x => x ≠ []) (split_on slash p) in
  mkdirs_loop parts [] st.

Lemma split_on_no_sep (sep : ascii) (s : text) :
  Forall (fun x => sep ∉ x) (split_on sep s).
Proof.
  induction s as [|c s IH]; simpl.
  - repeat constructor. by intros ?%elem_of_nil.
  - destruct (Ascii.eqb_spec c sep) as [->|Hc].
    + constructor; [by intros ?%elem_of_nil | done].
    + destruct (split_on sep s) as [|h t].
      * repeat constructor. by intros [?|?%elem_of_nil]%elem_of_cons.
      * apply Forall_cons in IH as [Hh Ht]. constructor; [|done].
        by intros [?|?]%elem_of_cons.
Qed.

Lemma segments_valid (p : text) : Forall valid_name (segments p).
Proof.
  unfold segments. apply Forall_forall. intros x [Hx Hin]%list_elem_of_filter.
  split; [done|].
  pose proof (split_on_no_sep slash p) as H. rewrite Forall_forall in H.
  by apply H.
Qed.

Lemma mkdir_at_child (part : text) (es : list (text * node)) (done : list text) :
  ∀ st,
    resolve st done = Some (Dir es) →
    mkdir_at st (done ++ [part])
    = match lookup_entry part es with
      | Some _ => None
      | None => Some (replace_at st done (Dir (es ++ [(part, Dir [])])))
      end.
Proof.
  induction done as [|s done IH]; intros st; simpl.
  - by intros [= ->].
  - destruct st as [|es0]; [done|].
    destruct (lookup_entry s es0) as [c|] eqn:Hl; [|done].
    intros Hres. specialize (IH c Hres).
    destruct (done ++ [part]) as [|r l] eqn:E; [by destruct done|].
    rewrite IH. by destruct (lookup_entry part es).
Qed.

Lemma resolve_created (st : node) (done : list text) (part : text)
    (es : list (text * node)) :
  resolve st done = Some (Dir es) →
  lookup_entry part es = None →
  resolve (replace_at st done (Dir (es ++ [(part, Dir [])]))) (done ++ [part])
  = Some (Dir []).
Proof.
  intros Hres Hl. rewrite resolve_app, (resolve_replace_at _ _ _ _ Hres). simpl.
  by rewrite lookup_entry_snoc.
Qed.

Lemma resolve_prefix (n : node) (a b : list text) :
  is_Some (resolve n (a ++ b)) → is_Some (resolve n a).
Proof. rewrite resolve_app. by destruct (resolve n a). Qed.

Lemma mkdirs_loop_spec (root : node) (parts : list text) :
  ∀ done cur st es,
    Forall valid_name parts →
    segments cur = done →
    resolve st done = Some (Dir es) →
    st = root ∨ es = [] →
    (∀ k x, resolve root (take k (done ++ parts)) = Some x → is_file x = false) →
    (∃ es', resolve (mkdirs_loop parts cur st) (done ++ parts) = Some (Dir es')) ∧
    (st = root → is_Some (resolve root (done ++ parts)) →
     mkdirs_loop parts cur st = root).
Proof.
  induction parts as [|part parts IH]; intros done cur st es Hv Hcur Hres Hst Hfree.
  - rewrite app_nil_r. simpl. eauto.
  - apply Forall_cons in Hv as [Hpart Hv]. cbn [mkdirs_loop]. cbv zeta.
    assert (Hcur' : segments (cur ++ [slash] ++ part) = done ++ [part])
      by (by rewrite segments_child, Hcur).
    unfold os_mkdir. rewrite Hcur', (mkdir_at_child part es done st Hres).
    replace (done ++ part :: parts) with ((done ++ [part]) ++ parts) in *
      by (by rewrite <- app_assoc).
    destruct (lookup_entry part es) as [c|] eqn:Hl.
    + assert (st = root) as -> by (destruct Hst as [Hst|Hst]; [done | by subst es]).
      assert (Hc : resolve root (done ++ [part]) = Some c).
      { rewrite resolve_app, Hres. simpl. by rewrite Hl. }
      assert (Hdir : is_file c = false).
      { apply (Hfree (length (done ++ [part]))). by rewrite take_app_length. }
      destruct c as [|ec]; [done|].
      destruct (IH (done ++ [part]) _ root ec Hv Hcur' Hc (or_introl eq_refl) Hfree)
        as [H1 H2].
      split; [done|]. intros _. by apply H2.
    + pose proof (resolve_created st done part es Hres Hl) as Hnew.
      destruct (IH (done ++ [part]) _ _ [] Hv Hcur' Hnew (or_intror eq_refl) Hfree)
        as [H1 _].
      split; [done|]. intros -> Hsome.
      apply resolve_prefix in Hsome. rewrite resolve_app, Hres in Hsome.
      simpl in Hsome. rewrite Hl in Hsome. by destruct Hsome.
Qed.

(** X23. [mkdirs(p)] of the earlier wrapper: when no file stands at a
    prefix of the path, the path names a directory afterwards, whichever of
    its parents were missing; and when the path exists already, the file
    system is left as it is. *)
Theorem mkdirs_creates_path (p : text) (root : node) :
  (∀ k x, resolve root (take k (segments p)) = Some x → is_file x = false) →
  (∃ es, resolve (mkdirs p root) (segments p) = Some (Dir es)) ∧
  (is_Some (resolve root (segments p)) → mkdirs p root = root).
Proof.
  intros Hfree.
  assert (Hroot : is_file root = false) by (by apply (Hfree 0)).
  destruct root as [|es]; [done|].
  destruct (mkdirs_loop_spec (Dir es) (segments p) [] [] (Dir es) es
              (segments_valid p) eq_refl eq_refl (or_introl eq_refl) Hfree)
    as [H1 H2].
  split; [exact H1|]. intros Hsome. by apply H2.
Qed.

(** Every node at a prefix of [segs] is a directory. *)
Fixpoint no_file_on (n : node) (segs : list text) : bool :=
  match n, segs with
  | File _, _ => false
  | Dir _, [] => true
  | Dir es, name :: segs' =>
      match lookup_entry name es with
      | Some c => no_file_on c segs'
      | None => true
      end
  end.

Lemma no_file_on_spec (segs : list text) :
  ∀ n, no_file_on n segs = true →
       ∀ k x, resolve n (take k segs) = Some x → is_file x = false.
Proof.
  induction segs as [|name segs IH]; intros n Hn k x.
  - rewrite take_nil. simpl. intros [= <-]. by destruct n.
  - destruct k as [|k]; simpl.
    + intros [= <-]. by destruct n.
    + destruct n as [|es]; [done|]. simpl in Hn.
      destruct (lookup_entry name es) as [c|]; [|done].
      by apply IH.
Qed.

Lemma mkdirs_creates_path_witness :
  (∃ es, resolve (mkdirs (lit "/lib/new/deep") sample_fs)
           [lit "lib"; lit "new"; lit "deep"] = Some (Dir es)) ∧
  mkdirs (lit "/lib/sub/") sample_fs = sample_fs.
Proof.
  split.
  - apply (mkdirs_creates_path (lit "/lib/new/deep") sample_fs).
    apply no_file_on_spec. reflexivity.
  - apply (mkdirs_creates_path (lit "/lib/sub/") sample_fs).
    + apply no_file_on_spec. reflexivity.
    + eexists. reflexivity.
Defined.

(** ** Comparing what was read back: [arraysEqual] *)

#[global] Instance byte_eq_dec : EqDecision Byte.byte := Byte.byte_eq_dec.

(** The loop of [arraysEqual] from index [i], for [n] more rounds. *)
Fixpoint arraysEqual_loop (a b : list Byte.byte) (i n : nat) : bool :=
  match n with
  | 0 => true
  | S n' =>
      if negb (bool_decide (a !! i = b !! i)) then false
      else arraysEqual_loop a b (S i) n'
  end.

(** [arraysEqual(a, b)]; [None] is an argument that is [null] or
    [undefined]. *)
Definition arraysEqual (a b : option (list Byte.byte)) : bool :=
  match a, b with
  | Some a, Some b =>
      if negb (length a =? length b) then false
      else arraysEqual_loop a b 0 (length a)
  | _, _ => false
  end.

Lemma arraysEqual_loop_spec (a b : list Byte.byte) (n : nat) :
  ∀ i, arraysEqual_loop a b i n = true ↔ ∀ j, i ≤ j < i + n → a !! j = b !! j.
Proof.
  induction n as [|n IH]; intros i; simpl.
  - split; [|done]. intros _ j. lia.
  - destruct (decide (a !! i = b !! i)) as [He|He].
    + rewrite bool_decide_eq_true_2 by done. simpl. rewrite IH. split.
      * intros H j Hj. destruct (decide (j = i)) as [->|]; [done|]. apply H. lia.
      * intros H j Hj. apply H. lia.
    + rewrite bool_decide_eq_false_2 by done. simpl. split; [done|].
      intros H. destruct He. apply H. lia.
Qed.

(** X24. [arraysEqual(a, b)] of the earlier [usb.ts], which decides whether
    a file read back from the badge is the file that was sent: it answers
    [true] exactly when both arrays are there and hold the same bytes, in
    the same number. *)
Theorem arraysEqual_iff_same_bytes (a b : option (list Byte.byte)) :
  arraysEqual a b = true ↔ ∃ x, a = Some x ∧ b = Some x.
Proof.
  destruct a as [a|], b as [b|]; simpl;
    try (split; [done | by intros (x & ? & ?)]).
  destruct (Nat.eqb_spec (length a) (length b)) as [Hl|Hl]; simpl.
  - rewrite arraysEqual_loop_spec. split.
    + intros H. exists a. split; [done|]. f_equal. symmetry.
      apply list_eq. intros j.
      destruct (decide (j < length a)) as [Hj|Hj]; [apply H; lia|].
      rewrite !lookup_ge_None_2 by lia. done.
    + intros (x & [= ->] & [= ->]). done.
  - split; [done|]. intros (x & [= ->] & [= ->]). done.
Qed.

(** ** A download that fails on the device *)

Lemma failure_extracted (e : option exception) :
  indexOf (raw_answer [] e) (lit "OK") = 0%Z ∧
  indexOf (raw_answer [] e) [chr 4] = 2%Z.
Proof.
  unfold raw_answer. split; [apply indexOf_prefix|].
  unfold indexOf. rewrite app_assoc, app_nil_r.
  change ([chr 4] ++ ?x) with (chr 4 :: x).
  rewrite indexOf_from_char; [done|].
  intros H. vm_compute in H.
  by repeat (apply elem_of_cons in H as [H|H]; [done|]); apply elem_of_nil in H.
Qed.

Lemma exec_download_fails (path : text) (p : py_state) (g : list text)
    (h : option (list text)) (l : nat) :
  plain_path path → squote ∉ path →
  read_file (fs p) (segments path) = None ∨ (lit "b2a_base64" ∉ g) →
  ∃ g' e,
    exec (downloadFile_command path) (mkMpy RawMode [] p g h l)
    = (mkMpy RawMode [] p g' h l, [], Some e).
Proof.
  intros Hp Hq Hfail.
  assert (Hcode : downloadFile_command path
                  = lit "with open('" ++ (path ++ squote :: download_rest))
    by done.
  assert (H1 : text_eqb (downloadFile_command path) HELPER_CODE = false) by differ.
  assert (H2 : text_eqb (downloadFile_command path) close_command = false) by differ.
  assert (H3 : strip_prefix (lit "f=open('") (downloadFile_command path) = None)
    by done.
  assert (H4 : strip_prefix (lit "w(bytes([") (downloadFile_command path) = None)
    by done.
  unfold exec. rewrite H1, H2, H3, H4, Hcode, strip_prefix_app.
  pose proof (proj1 (uploadFile_path_escaped path download_rest Hp)) as Hsq.
  rewrite escape_quotes_plain in Hsq by done. rewrite Hsq.
  rewrite text_eqb_refl. cbn [py].
  destruct (read_file (fs p) (segments path)) as [data|] eqn:Hr; [|by eauto].
  destruct Hfail as [|Hg]; [done|].
  assert (Hb : bound (lit "b2a_base64")
                 (bind_names [lit "f"] (mkMpy RawMode [] p g h l)) = false).
  { apply bool_decide_eq_false. cbn [globals bind_names].
    intros [H|H]%elem_of_cons; [by vm_compute in H | done]. }
  cbv zeta. rewrite Hb. by eauto.
Qed.

(** X25. A download that fails on the device is not reported: when the file
    does not exist, or when the device does not know [b2a_base64],
    [downloadFileToBytes(path)] returns an empty array and
    [downloadFileToString(path)] the empty text, as for an empty file. The
    answer of the device then has nothing between ["OK"] and the first
    [0x04]; the text of the exception comes after it and is not looked
    at. *)
Theorem download_failure_is_empty (path : text) (root : node) (names : list text) :
  plain_path path → squote ∉ path → Forall plain_char path →
  read_file root (segments path) = None
  ∨ (lit "b2a_base64" ∉ helper_names ++ names) →
  (∃ w', downloadFileToBytes decode_ascii mpy mpy_respond path
           (connected (mpy_boot root names)) = (Done [], w')) ∧
  (∃ w', downloadFileToString decode_ascii mpy mpy_respond path
           (connected (mpy_boot root names)) = (Done [], w')).
Proof.
  intros Hp Hq Hchars Hfail. unfold connected, mpy_boot.
  set (s0 := set_loop LoopReading _).
  assert (Hs0 : standing s0) by done.
  destruct (mpy_getPrompt s0 [] (mkPy root [] []) names None 16 [] Hs0)
    as (s1 & o1 & Hs1 & E1).
  destruct (mpy_runHelper root [] [] names None 16 [] s1 o1 Hs1)
    as (s2 & o2 & Hs2 & E2).
  set (p' := mkPy root [] []) in *.
  set (g' := helper_names ++ names) in *.
  destruct (mpy_enterRawRepl s2 [] p' g' None 16 o2 Hs2) as (s3 & o3 & Hs3 & E3).
  destruct (downloadFile_command_plain path Hchars) as [Hplain Hne].
  destruct (exec_download_fails path p' g' None 16 Hp Hq Hfail) as (g'' & e & Hexec).
  destruct (mpy_executeRaw _ s3 _ _ _ _ o3 _ _ _ Hs3 Hne Hplain Hexec)
    as (s4 & o4 & Hs4 & E4).
  destruct (mpy_exitRawRepl s4 [] p' g'' None 16 o4 Hs4) as (s5 & o5 & Hs5 & E5).
  destruct (failure_extracted (Some e)) as [Hok Hend].
  assert (Hdl : downloadFile decode_ascii mpy mpy_respond path
                  (mkWorld s0 (mkMpy Friendly [] p' names None 16) [] [] [])
                = (Done [], mkWorld s5 (mkMpy Friendly [] p' g'' None 16) [] [] o5)).
  { unfold downloadFile.
    unfold bind at 1. rewrite E1.
    unfold bind at 1. rewrite E2.
    unfold bind at 1. rewrite E3.
    unfold bind at 1. rewrite E4.
    unfold bind at 1. rewrite E5.
    rewrite Hok, Hend. reflexivity. }
  split; eexists.
  - unfold downloadFileToBytes. unfold bind at 1. rewrite Hdl. reflexivity.
  - unfold downloadFileToString. unfold bind at 1. rewrite Hdl. reflexivity.
Qed.

Lemma download_failure_is_empty_witness :
  (∃ w', downloadFileToBytes decode_ascii mpy mpy_respond (lit "/absent")
           (connected (mpy_boot sample_fs [lit "b2a_base64"])) = (Done [], w')) ∧
  (∃ w', downloadFileToString decode_ascii mpy mpy_respond (lit "/absent")
           (connected (mpy_boot sample_fs [lit "b2a_base64"])) = (Done [], w')).
Proof.
  apply download_failure_is_empty.
  - split; compute_done.
  - compute_done.
  - apply plain_closed. reflexivity.
  - left. reflexivity.
Defined.
